(** * SyncMaster: word timestamps and lyrics embedding

    A shallow embedding of the timestamp pipeline of
    [audio_processor.py], [utils.py] and [mp3_embedder.py].

    Modelling conventions.
    - Times are rationals ([Q]).  The program is embedded with exact
      arithmetic first: there equality of times is [Qeq] ([==]) and
      [round(x, 3)] always yields the representation [z # 1000], so
      results of [round] compare with [=].  That embedding carries the
      properties that do not turn on how a float operation rounds.
    - [validate_timestamps], [_create_sylt_data] and
      [merge_overlapping_timestamps] are embedded a second time over
      binary64 values (modules [Binary64], [AudioProcessor64],
      [MP3Embedder64], [Utils64]): a float is the rational it stands
      for, in lowest terms, a decimal literal is the float nearest to it,
      and every operation is the exact operation followed by rounding to
      the nearest float, ties to even.  Infinities arise only from an
      overflow, which is modelled where the program can meet it; NaN is
      not modelled.
    - A word dictionary [{'word': .., 'start': .., 'end': ..}] is a record
      whose fields are optional: [None] is an absent key, so that
      [d.get(k, default)] and [d[k]] (which raises [KeyError]) differ as
      they do in Python.
    - Strings are [string]s of 8-bit characters; whitespace is the ASCII
      whitespace recognised by [str.split] and [str.strip]. *)

From Stdlib Require Import ZArith QArith Qround Qminmax Qabs Qpower Lia Lqa.
From Stdlib Require Import List String Ascii Bool Sorted DecimalString.
Import ListNotations.

Local Open Scope Q_scope.

(** * Part I: the program *)

(** ** Numbers *)

Module PyNum.

(** Python's [max(a, b)]: the first argument wins unless [b] is strictly
    larger. *)
Definition py_max (a b : Q) : Q := if Qlt_le_dec a b then b else a.

(** Python's [min(a, b)]: the first argument wins unless [b] is strictly
    smaller. *)
Definition py_min (a b : Q) : Q := if Qlt_le_dec b a then b else a.

(** Rounding to the nearest integer, ties to the even neighbour. *)
Definition round_half_even (x : Q) : Z :=
  let f := Qfloor x in
  match Qcompare (x - inject_Z f) (1 # 2) with
  | Lt => f
  | Gt => (f + 1)%Z
  | Eq => if Z.even f then f else (f + 1)%Z
  end.

(** [round(x, 3)]: the nearest multiple of one millisecond. *)
Definition round3 (x : Q) : Q := round_half_even (x * 1000) # 1000.

(** [int(x)] on a float: truncation toward zero. *)
Definition py_int (x : Q) : Z :=
  if Qlt_le_dec x 0 then Qceiling x else Qfloor x.

End PyNum.

(** ** Strings *)

Module PyStr.

Local Open Scope string_scope.
Local Open Scope nat_scope.

(** The ASCII characters on which [str.isspace] holds: tab to carriage
    return, the four separators 28 to 31, and the blank.  Characters
    above 127 stand for parts of multi-byte characters and are never
    whitespace here. *)
Definition is_space (c : ascii) : bool :=
  let n := nat_of_ascii c in
  ((9 <=? n) && (n <=? 13)) || ((28 <=? n) && (n <=? 31)) || (n =? 32).

Definition is_empty (s : string) : bool :=
  match s with EmptyString => true | String _ _ => false end.

(** [s.lstrip()] *)
Fixpoint lstrip (s : string) : string :=
  match s with
  | EmptyString => EmptyString
  | String c r => if is_space c then lstrip r else s
  end.

(** [s.rstrip()] *)
Fixpoint rstrip (s : string) : string :=
  match s with
  | EmptyString => EmptyString
  | String c r =>
      match rstrip r with
      | EmptyString => if is_space c then EmptyString else String c EmptyString
      | String _ _ as r' => String c r'
      end
  end.

(** [s.strip()] *)
Definition strip (s : string) : string := rstrip (lstrip s).

(** The word collected so far, emitted when a separator or the end of
    the text is reached. *)
Definition flush_word (cur : string) : list string :=
  match cur with EmptyString => [] | String _ _ => [cur] end.

Fixpoint split_from (cur : string) (s : string) : list string :=
  match s with
  | EmptyString => flush_word cur
  | String c r =>
      if is_space c then flush_word cur ++ split_from EmptyString r
      else split_from (cur ++ String c EmptyString) r
  end.

(** [s.split()]: maximal runs of non-whitespace characters. *)
Definition split (s : string) : list string := split_from EmptyString s.

(** [sep.join(l)] *)
Definition join (sep : string) (l : list string) : string := String.concat sep l.

(** No whitespace anywhere in the string. *)
Fixpoint no_space (s : string) : bool :=
  match s with
  | EmptyString => true
  | String c r => negb (is_space c) && no_space r
  end.

(** A token: non-empty and free of whitespace, as [split] produces. *)
Definition token (w : string) : Prop := w <> EmptyString /\ no_space w = true.

Definition lower_ascii (c : ascii) : ascii :=
  let n := nat_of_ascii c in
  if (65 <=? n) && (n <=? 90) then ascii_of_nat (n + 32) else c.

(** [s.lower()] on ASCII letters. *)
Fixpoint lower (s : string) : string :=
  match s with
  | EmptyString => EmptyString
  | String c r => String (lower_ascii c) (lower r)
  end.

(** [s.endswith(suffix)] *)
Definition endswith (s suffix : string) : bool :=
  let n := String.length s in
  let k := String.length suffix in
  (k <=? n) && String.eqb (substring (n - k) k s) suffix.

(** [s.startswith(p)] *)
Definition startswith (s p : string) : bool := String.prefix p s.

(** [os.path.basename(p)]: what follows the last slash. *)
Fixpoint basename_from (cur : string) (p : string) : string :=
  match p with
  | EmptyString => cur
  | String c r =>
      if Ascii.eqb c "/"%char then basename_from EmptyString r
      else basename_from (cur ++ String c EmptyString) r
  end.

Definition basename (p : string) : string := basename_from EmptyString p.

(** [os.path.join(a, b)] on POSIX: an absolute [b] discards [a]. *)
Definition path_join (a b : string) : string :=
  if startswith b "/" then b
  else if is_empty a || endswith a "/" then a ++ b
  else a ++ "/" ++ b.

(** [str(n)] for a natural number. *)
Definition str_of_nat (n : nat) : string := NilZero.string_of_uint (Nat.to_uint n).

(** [str(b)] for a boolean. *)
Definition str_of_bool (b : bool) : string := if b then "True" else "False".

(** A left-stripped string does not begin with whitespace. *)
Definition starts_clean (s : string) : Prop :=
  match s with EmptyString => True | String c _ => is_space c = false end.

End PyStr.

(** ** Word dictionaries *)

Module Model.

(** One entry of a word-timestamp list: a dictionary with the keys
    ['word'], ['start'] and ['end'].  A field is [None] when the key is
    absent. *)
Record WordData := mkWordData {
  word : option string;
  start : option Q;
  end_ : option Q
}.

(** [d.get(key, default)] *)
Definition get {A : Type} (field : option A) (default : A) : A :=
  match field with Some v => v | None => default end.

(** The dictionary literal [{'word': w, 'start': s, 'end': e}]. *)
Definition timed (w : string) (s e : Q) : WordData :=
  mkWordData (Some w) (Some s) (Some e).

Definition word_of (u : WordData) : string := get (word u) EmptyString.
Definition start_of (u : WordData) : Q := get (start u) 0.
Definition end_of (u : WordData) : Q := get (end_ u) 0.

(** All three keys are present. *)
Definition complete (u : WordData) : Prop :=
  exists w s e, u = timed w s e.

(** Start times never go down along the list. *)
Definition non_decreasing_start (l : list WordData) : Prop :=
  StronglySorted Qle (map start_of l).

End Model.

(** ** audio_processor.py *)

Module AudioProcessor.
Import PyNum PyStr Model.

(** What the collaborators of [get_word_timestamps] answer for one audio
    file: [os.path.exists], [transcribe_audio] and [get_audio_duration]. *)
Record Audio := {
  file_exists : bool;
  transcription : option string;
  audio_duration : Q
}.

(** The start and end time that the loop of [get_word_timestamps]
    computes for the word at index [i], before rounding. *)
Definition word_times (audio_duration : Q) (total_words i : nat) : Q * Q :=
  let start_offset := 0.5 in
  let end_offset := 0.5 in
  let usable_duration := audio_duration - start_offset - end_offset in
  let '(start_time, end_time) :=
    if Nat.eqb total_words 1 then
      (start_offset, audio_duration - end_offset)
    else
      let word_duration := usable_duration / inject_Z (Z.of_nat total_words) in
      (start_offset + inject_Z (Z.of_nat i) * word_duration,
       start_offset + inject_Z (Z.of_nat (i + 1)) * word_duration) in
  let start_time := if Nat.ltb 0 i then start_time + 0.05 else start_time in
  (start_time, end_time).

(** The share of the usable time that each of several words gets. *)
Definition word_duration (audio_duration : Q) (total_words : nat) : Q :=
  (audio_duration - 0.5 - 0.5) / inject_Z (Z.of_nat total_words).

(** The dictionary appended for the word at index [i]. *)
Definition word_timing (audio_duration : Q) (total_words i : nat) (word : string)
  : WordData :=
  let '(start_time, end_time) := word_times audio_duration total_words i in
  timed (strip word) (round3 start_time) (round3 end_time).

(** [for i, word in enumerate(words)], from index [i] on. *)
Fixpoint word_loop (audio_duration : Q) (total_words i : nat) (words : list string)
  : list WordData :=
  match words with
  | [] => []
  | word :: rest =>
      word_timing audio_duration total_words i word
      :: word_loop audio_duration total_words (S i) rest
  end.

(** [get_word_timestamps]: every early exit, the missing file included
    (its exception is caught inside), returns the empty list. *)
Definition get_word_timestamps (a : Audio) : list WordData :=
  if negb (file_exists a) then []
  else
    match transcription a with
    | None => []
    | Some text =>
        if is_empty text then []
        else if Qle_bool (audio_duration a) 0 then []
        else
          let words := split text in
          match words with
          | [] => []
          | _ :: _ => word_loop (audio_duration a) (List.length words) 0 words
          end
    end.

(** The body of the loop of [validate_timestamps]. *)
Definition validate_word (audio_duration : Q) (word_data : WordData) : WordData :=
  let start_time := py_max 0 (get (start word_data) 0) in
  let end_time := py_min audio_duration (get (end_ word_data) (start_time + 0.1)) in
  let end_time :=
    if Qle_bool end_time start_time then start_time + 0.1 else end_time in
  timed (strip (get (word word_data) EmptyString))
        (round3 start_time) (round3 end_time).

Fixpoint validate_timestamps (word_timestamps : list WordData) (audio_duration : Q)
  : list WordData :=
  match word_timestamps with
  | [] => []
  | word_data :: rest =>
      let cleaned_word := validate_word audio_duration word_data in
      if is_empty (word_of cleaned_word)
      then validate_timestamps rest audio_duration
      else cleaned_word :: validate_timestamps rest audio_duration
  end.

(** The start and end of a unit after the two clamps of
    [validate_timestamps], before the repair and the rounding. *)
Definition clamped_start (u : WordData) : Q := py_max 0 (get (start u) 0).

Definition clamped_end (audio_duration : Q) (u : WordData) : Q :=
  py_min audio_duration (get (end_ u) (clamped_start u + 0.1)).

(** The end after the repair [if end_time <= start_time], before the
    rounding. *)
Definition repaired_end (audio_duration : Q) (u : WordData) : Q :=
  if Qle_bool (clamped_end audio_duration u) (clamped_start u)
  then clamped_start u + 0.1
  else clamped_end audio_duration u.

(** What [validate_timestamps] hands out: all keys present, a trimmed
    non-empty word, times in whole milliseconds, start not negative. *)
Definition cleaned (u : WordData) : Prop :=
  exists w zs ze,
    u = timed w (zs # 1000) (ze # 1000) /\
    strip w = w /\ is_empty w = false /\ (0 <= zs)%Z.

End AudioProcessor.

(** ** utils.py *)

Module Utils.
Import PyNum PyStr Model.

(** [l[-1]]; [None] stands for the [IndexError] on an empty list. *)
Definition last_item {A : Type} (l : list A) : option A :=
  match l with
  | [] => None
  | x :: r => Some (last r x)
  end.

(** [[w['word'] for w in group]]; [None] stands for a [KeyError]. *)
Fixpoint words_of_group (group : list WordData) : option (list string) :=
  match group with
  | [] => Some []
  | w :: rest =>
      match word w, words_of_group rest with
      | Some x, Some xs => Some (x :: xs)
      | _, _ => None
      end
  end.

(** What is appended to [merged_timestamps] for a finished group: the
    unit itself when it is alone, one merged unit otherwise. *)
Definition flush_group (current_group : list WordData) : option WordData :=
  match current_group with
  | [w] => Some w
  | _ =>
      match words_of_group current_group,
            hd_error current_group, last_item current_group with
      | Some ws, Some first, Some final =>
          match start first, end_ final with
          | Some s, Some e => Some (timed (join " " ws) s e)
          | _, _ => None
          end
      | _, _, _ => None
      end
  end.

(** The loop of [merge_overlapping_timestamps].  [None] is a [KeyError]
    on a unit that lacks a key the loop reads. *)
Fixpoint merge_loop (rest current_group merged_timestamps : list WordData)
  (overlap_threshold : Q) : option (list WordData) :=
  match rest with
  | [] =>
      match flush_group current_group with
      | Some m => Some (merged_timestamps ++ [m])
      | None => None
      end
  | word_data :: rest' =>
      match last_item current_group with
      | Some final =>
          match end_ final, start word_data with
          | Some last_end, Some current_start =>
              if Qle_bool (current_start - last_end) overlap_threshold then
                merge_loop rest' (current_group ++ [word_data])
                           merged_timestamps overlap_threshold
              else
                match flush_group current_group with
                | Some m =>
                    merge_loop rest' [word_data] (merged_timestamps ++ [m])
                               overlap_threshold
                | None => None
                end
          | _, _ => None
          end
      | None => None
      end
  end.

Definition merge_overlapping_timestamps (word_timestamps : list WordData)
  (overlap_threshold : Q) : option (list WordData) :=
  match word_timestamps with
  | [] => Some []
  | first :: rest => merge_loop rest [first] [] overlap_threshold
  end.

(** The default threshold of [merge_overlapping_timestamps]. *)
Definition default_overlap_threshold : Q := 0.05.

(** The gap between two neighbours exceeds the threshold. *)
Definition gap_exceeds (overlap_threshold : Q) (a b : WordData) : Prop :=
  match end_ a, start b with
  | Some ea, Some sb => ~ (sb - ea <= overlap_threshold)
  | _, _ => False
  end.

(** Every pair of neighbours of the list is further apart than the
    threshold. *)
Fixpoint gaps_exceed (overlap_threshold : Q) (l : list WordData) : Prop :=
  match l with
  | a :: ((b :: _) as tail) =>
      gap_exceeds overlap_threshold a b /\ gaps_exceed overlap_threshold tail
  | _ => True
  end.

(** A unit with all keys whose word is a single token. *)
Definition token_unit (u : WordData) : Prop :=
  exists w s e, u = timed w s e /\ token w.

(** The words of one merged group: at least one, each a token. *)
Definition word_group (g : list string) : Prop :=
  g <> [] /\ Forall token g.

(** The first unit of [out] starts when the first unit of [group]
    does. *)
Definition same_first_start (group out : list WordData) : Prop :=
  exists h first,
    hd_error group = Some h /\ hd_error out = Some first /\
    start first = start h.

End Utils.

(** ** The tag library, as this program uses it *)

Module Mutagen.

(** Text encodings of a frame; [Encoding.UTF8] is the one written. *)
Inductive Encoding := LATIN1 | UTF16 | UTF16BE | UTF8.

(** A frame of an ID3 tag.  Frames other than lyrics are kept opaque:
    only their identifier and the key under which the tag stores them
    matter here. *)
Inductive Frame :=
| SYLT (encoding : Encoding) (lang : string) (format type : nat)
       (desc : string) (text : list (string * Z))
| USLT (encoding : Encoding) (lang : string) (desc : string) (text : string)
| OtherFrame (frame_id hash_key : string).

Definition FrameID (f : Frame) : string :=
  match f with
  | SYLT _ _ _ _ _ _ => "SYLT"
  | USLT _ _ _ _ => "USLT"
  | OtherFrame frame_id _ => frame_id
  end.

(** The key of a frame inside the tag: lyrics frames are told apart by
    description and language. *)
Definition HashKey (f : Frame) : string :=
  match f with
  | SYLT _ lang _ _ desc _ => "SYLT:" ++ desc ++ ":" ++ lang
  | USLT _ lang desc _ => "USLT:" ++ desc ++ ":" ++ lang
  | OtherFrame _ hash_key => hash_key
  end.

(** The tag container: its frames. *)
Definition ID3 := list Frame.

(** [tags.getall(key)]: all frames of that kind. *)
Definition getall (key : string) (tags : ID3) : list Frame :=
  filter (fun f => String.eqb (FrameID f) key) tags.

(** [tags.delall(key)]: removes all frames of that kind. *)
Definition delall (key : string) (tags : ID3) : ID3 :=
  filter (fun f => negb (String.eqb (FrameID f) key)) tags.

(** [tags.add(frame)]: the frame takes the place of any frame stored
    under the same key. *)
Definition add (frame : Frame) (tags : ID3) : ID3 :=
  filter (fun f => negb (String.eqb (HashKey f) (HashKey frame))) tags ++ [frame].

(** [frame.text] of the first synchronized frame, for counting entries. *)
Definition text_length (f : Frame) : nat :=
  match f with
  | SYLT _ _ _ _ _ text => List.length text
  | _ => 0%nat
  end.

(** The content of a file as [MP3(path)] sees it: audio with or without
    a tag, or something it refuses with the given message. *)
Inductive File :=
| Mpeg (tags : option ID3)
| Unreadable (message : string).

End Mutagen.

(** ** mp3_embedder.py *)

Module MP3Embedder.
Import PyNum PyStr Model Mutagen.
Local Open Scope string_scope.

(** [_create_sylt_data]: the entries [(text, milliseconds)]. *)
Fixpoint _create_sylt_data (word_timestamps : list WordData) : list (string * Z) :=
  match word_timestamps with
  | [] => []
  | word_data :: rest =>
      let word := strip (get (Model.word word_data) EmptyString) in
      let start_time := get (start word_data) 0%Q in
      if is_empty word then _create_sylt_data rest
      else
        let timestamp_ms := py_int (start_time * 1000) in
        (word, timestamp_ms) :: _create_sylt_data rest
  end.

(** *** Exceptions, the log and the output file *)

Inductive exn :=
| CalledProcessError (stderr : string) (message : string)
| Exception (message : string).

(** [str(e)] *)
Definition str (e : exn) : string :=
  match e with
  | CalledProcessError _ message => message
  | Exception message => message
  end.

Inductive Res (A : Type) :=
| Ok (value : A)
| Raise (e : exn).

Arguments Ok {A} value.
Arguments Raise {A} e.

(** What a call of [embed_sylt_lyrics] changes: its list of log lines
    and the file at the output path ([None]: no such file). *)
Record State := mkState {
  log_messages : list string;
  disk : option File
}.

(** A statement: it ends normally or raises, and the changes it made up
    to that point stay. *)
Definition M (A : Type) : Type := State -> Res A * State.

Definition ret {A : Type} (a : A) : M A := fun st => (Ok a, st).

Definition raise {A : Type} (e : exn) : M A := fun st => (Raise e, st).

Definition bind {A B : Type} (c : M A) (k : A -> M B) : M B :=
  fun st =>
    match c st with
    | (Ok a, st') => k a st'
    | (Raise e, st') => (Raise e, st')
    end.

(** [try: body except Exception as e: handler(e)] *)
Definition try_except {A : Type} (body : M A) (handler : exn -> M A) : M A :=
  fun st =>
    match body st with
    | (Ok a, st') => (Ok a, st')
    | (Raise e, st') => handler e st'
    end.

Declare Scope py_scope.
Delimit Scope py_scope with py.
Notation "x <- c ;; k" := (bind c (fun x => k))
  (at level 61, c at next level, right associativity) : py_scope.
Notation "c ;; k" := (bind c (fun _ => k))
  (at level 61, right associativity) : py_scope.
Local Open Scope py_scope.

(** The nested [log_and_print]: the message joins the log. *)
Definition log_and_print (message : string) : M unit :=
  fun st => (Ok tt, mkState (log_messages st ++ [message]) (disk st)).

(** [return output_path, log_messages] *)
Definition return_logs (output_path : string) : M (string * list string) :=
  fun st => (Ok (output_path, log_messages st), st).

(** What lies outside the program during one call. *)
Record Env := {
  (** [self.ffmpeg_available] *)
  ffmpeg_available : bool;
  (** the file at [audio_path], if there is one *)
  source : option File;
  (** how the [ffmpeg] subprocess ends: with the converted file, or
      with an exception *)
  ffmpeg : Res File;
  (** an error of [shutil.copy2] other than a missing source *)
  copy_fault : option string;
  (** an error while a frame of the given kind is built and added *)
  frame_fault : string -> option string;
  (** an error of [audio_file.save()] *)
  save_fault : option string
}.

(** [self.temp_dir] *)
Definition temp_dir : string := "/tmp/audio_sync".

Definition no_such_file (path : string) : exn :=
  Exception ("[Errno 2] No such file or directory: '" ++ path ++ "'").

(** [subprocess.run(['ffmpeg', ...], check=True, ...)] *)
Definition run_ffmpeg (env : Env) : M unit :=
  fun st =>
    match ffmpeg env with
    | Ok converted => (Ok tt, mkState (log_messages st) (Some converted))
    | Raise e => (Raise e, st)
    end.

(** [shutil.copy2(audio_path, output_path)] *)
Definition copy2 (env : Env) (audio_path : string) : M unit :=
  fun st =>
    match source env with
    | None => (Raise (no_such_file audio_path), st)
    | Some content =>
        match copy_fault env with
        | Some message => (Raise (Exception message), st)
        | None => (Ok tt, mkState (log_messages st) (Some content))
        end
    end.

(** [MP3(path)] applied to the content of a file: its tag, if any. *)
Definition load (path : string) (content : option File) : Res (option ID3) :=
  match content with
  | None => Raise (no_such_file path)
  | Some (Unreadable message) => Raise (Exception message)
  | Some (Mpeg tags) => Ok tags
  end.

(** [MP3(output_path, ID3=ID3)] *)
Definition load_output (output_path : string) : M (option ID3) :=
  fun st => (load output_path (disk st), st).

(** Building a frame and adding it in place of those of its kind:
    [tags.delall(kind)] then [tags.add(frame)]. *)
Definition replace_frame (env : Env) (frame : Frame) (tags : ID3) : M ID3 :=
  match frame_fault env (FrameID frame) with
  | Some message => raise (Exception message)
  | None => ret (add frame (delall (FrameID frame) tags))
  end.

(** [audio_file.save()] *)
Definition save (env : Env) (tags : ID3) : M unit :=
  fun st =>
    match save_fault env with
    | Some message => (Raise (Exception message), st)
    | None => (Ok tt, mkState (log_messages st) (Some (Mpeg (Some tags))))
    end.

(** The log lines that tell how a call ended. *)
Definition success_message : string :=
  "--- Successfully embedded SYLT and USLT frames. ---".

Definition skip_message : string :=
  "--- WARNING: No SYLT data could be created. Skipping embedding. ---".

Definition embed_failed_message (e : exn) : string :=
  "--- ERROR: Failed to embed SYLT/USLT: " ++ str e ++ " ---".

Definition unexpected_message (e : exn) : string :=
  "--- ERROR: Unexpected error in embed_sylt_lyrics: " ++ str e ++ " ---".

Definition conversion_failed_message : string :=
  "--- ERROR: ffmpeg conversion failed. ---".

(** Step 1: the output file becomes an MP3 copy of the input. *)
Definition ensure_mp3 (env : Env) (audio_path : string) : M unit :=
  if negb (endswith (lower audio_path) ".mp3") then
    if ffmpeg_available env then
      log_and_print ("'" ++ basename audio_path
                     ++ "' is not an MP3. Converting with ffmpeg...") ;;
      try_except
        (run_ffmpeg env ;;
         log_and_print "--- ffmpeg conversion successful. ---")
        (fun e =>
           match e with
           | CalledProcessError stderr _ =>
               log_and_print conversion_failed_message ;;
               log_and_print ("--- ffmpeg stderr: " ++ stderr ++ " ---") ;;
               log_and_print "--- Fallback: Copying original file without conversion. ---" ;;
               copy2 env audio_path
           | Exception _ => raise e
           end)
    else
      log_and_print "--- WARNING: ffmpeg is not available. Cannot convert non-MP3 file. Copying directly. ---" ;;
      copy2 env audio_path
  else
    log_and_print "--- Audio is already MP3. Copying to temporary location. ---" ;;
    copy2 env audio_path.

(** The frames that the embedding writes. *)
Definition sylt_frame (sylt_data : list (string * Z)) : Frame :=
  SYLT UTF8 "eng" 2 1 EmptyString sylt_data.

Definition uslt_frame (text : string) : Frame :=
  USLT UTF8 "eng" EmptyString text.

(** Step 3, the body of the inner [try]. *)
Definition embed_frames (env : Env) (sylt_data : list (string * Z))
  (text output_path : string) : M unit :=
  log_and_print "--- Loading MP3 file with mutagen... ---" ;;
  loaded <- load_output output_path ;;
  tags <- match loaded with
          | None =>
              log_and_print "--- No ID3 tags found. Creating new ones. ---" ;;
              ret []
          | Some tags => ret tags
          end ;;
  log_and_print "--- Creating and adding SYLT frame... ---" ;;
  tags <- replace_frame env (sylt_frame sylt_data) tags ;;
  log_and_print "--- Creating and adding USLT frame... ---" ;;
  tags <- replace_frame env (uslt_frame text) tags ;;
  save env tags ;;
  log_and_print success_message.

(** The body of the outer [try]. *)
Definition embed_steps (env : Env) (audio_path : string)
  (word_timestamps : list WordData) (text output_path : string)
  : M (string * list string) :=
  ensure_mp3 env audio_path ;;
  log_and_print "--- Creating SYLT data from timestamps... ---" ;;
  let sylt_data := _create_sylt_data word_timestamps in
  match sylt_data with
  | [] =>
      log_and_print skip_message ;;
      return_logs output_path
  | _ :: _ =>
      log_and_print ("--- Created " ++ str_of_nat (List.length sylt_data)
                     ++ " SYLT entries. ---") ;;
      try_except
        (embed_frames env sylt_data text output_path)
        (fun e => log_and_print (embed_failed_message e)) ;;
      return_logs output_path
  end.

(** [embed_sylt_lyrics], run on an output location whose content is
    [before]: what the call returns or raises, and the state it leaves. *)
Definition embed_sylt_lyrics (env : Env) (audio_path : string)
  (word_timestamps : list WordData) (text output_filename : string)
  (before : option File) : Res (string * list string) * State :=
  (log_and_print ("--- MP3Embedder initialized. ffmpeg available: "
                  ++ str_of_bool (ffmpeg_available env) ++ " ---") ;;
   log_and_print ("--- Starting SYLT embedding for: " ++ basename audio_path ++ " ---") ;;
   let output_path := path_join temp_dir output_filename in
   try_except
     (embed_steps env audio_path word_timestamps text output_path)
     (fun e =>
        log_and_print (unexpected_message e) ;;
        return_logs output_path))
  (mkState [] before).

(** The dictionary that [verify_sylt_embedding] returns. *)
Record Verification := {
  has_sylt : bool;
  has_uslt : bool;
  sylt_entries : nat;
  error : option string
}.

(** [verify_sylt_embedding], on the content of the file at [mp3_path]. *)
Definition verify_sylt_embedding (mp3_path : string) (content : option File)
  : Verification :=
  match load mp3_path content with
  | Raise e =>
      {| has_sylt := false; has_uslt := false; sylt_entries := 0;
         error := Some (str e) |}
  | Ok None | Ok (Some []) =>
      {| has_sylt := false; has_uslt := false; sylt_entries := 0; error := None |}
  | Ok (Some tags) =>
      let sylt_frames := getall "SYLT" tags in
      let uslt_frames := getall "USLT" tags in
      {| has_sylt := match sylt_frames with [] => false | _ :: _ => true end;
         has_uslt := match uslt_frames with [] => false | _ :: _ => true end;
         sylt_entries := match sylt_frames with
                         | [] => 0
                         | first :: _ => text_length first
                         end;
         error := None |}
  end.

(** The tag after both replacements, from the tag that was loaded. *)
Definition embedded_tags (loaded : option ID3) (sylt_data : list (string * Z))
  (text : string) : ID3 :=
  let tags := match loaded with None => [] | Some tags => tags end in
  let tags := add (sylt_frame sylt_data) (delall "SYLT" tags) in
  add (uslt_frame text) (delall "USLT" tags).

(** The output file is what step 1 left, or what was there before the
    call: nothing of the tag was written. *)
Definition not_tagged (env : Env) (before content : option File) : Prop :=
  content = before \/ content = source env \/
  exists converted, ffmpeg env = Ok converted /\ content = Some converted.

(** The last line of the log. *)
Definition last_message (logs : list string) : string := last logs EmptyString.

(** The ways a call can end, as its last log line tells them. *)
Inductive Ending (logs : list string) : Prop :=
| Embedded : last_message logs = success_message -> Ending logs
| Skipped : last_message logs = skip_message -> Ending logs
| EmbedFailed e : last_message logs = embed_failed_message e -> Ending logs
| Unexpected e : last_message logs = unexpected_message e -> Ending logs.

(** What the caller holds after a call: the log lines and the content of
    the output file. *)
Definition logs_of (run : Res (string * list string) * State) : list string :=
  log_messages (snd run).

Definition output_of (run : Res (string * list string) * State) : option File :=
  disk (snd run).

(** The entry that [_create_sylt_data] emits for a unit it keeps. *)
Definition sylt_entry (u : WordData) : string * Z :=
  (strip (get (Model.word u) EmptyString), py_int (get (start u) 0%Q * 1000)).

(** A unit that [_create_sylt_data] keeps: its trimmed word is not
    empty. *)
Definition kept (u : WordData) : bool :=
  negb (is_empty (strip (get (Model.word u) EmptyString))).

End MP3Embedder.

(** ** Concrete inputs *)

Module Scenario.
Import Model AudioProcessor Mutagen MP3Embedder.
Local Open Scope string_scope.

(** A transcript of two words over three seconds of audio. *)
Definition hello_world : Audio :=
  {| file_exists := true; transcription := Some "Hello world"; audio_duration := 3 |}.

(** The two timed words of that transcript. *)
Definition hello_units : list WordData :=
  [timed "Hello" 0.5 1.5; timed "world" 1.55 2.5].

(** An MP3 without a tag, and one whose tag already holds lyrics in two
    languages. *)
Definition plain_song : File := Mpeg None.

Definition tagged_song : File :=
  Mpeg (Some [SYLT UTF8 "eng" 2 1 EmptyString [("old", 0%Z)];
              SYLT UTF8 "fra" 2 1 "paroles" [("vieux", 10%Z)];
              USLT UTF8 "eng" EmptyString "old text";
              OtherFrame "TIT2" "TIT2"]).

(** Surroundings in which nothing fails: no ffmpeg, the given input
    file. *)
Definition calm (input : File) : Env :=
  {| ffmpeg_available := false;
     source := Some input;
     ffmpeg := Raise (Exception "ffmpeg: not found");
     copy_fault := None;
     frame_fault := fun _ => None;
     save_fault := None |}.

(** The same, except that the synchronized frame cannot be built. *)
Definition sylt_fails (input : File) : Env :=
  {| ffmpeg_available := false;
     source := Some input;
     ffmpeg := Raise (Exception "ffmpeg: not found");
     copy_fault := None;
     frame_fault := fun kind => if String.eqb kind "SYLT" then Some "bad frame" else None;
     save_fault := None |}.

End Scenario.

(** ** audio_processor.py: lines for display *)

Module Sentences.
Import PyNum PyStr Model Utils.
Local Open Scope string_scope.

(** One entry of the result of [create_sentence_timestamps]: the keys
    ['text'], ['start'], ['end'] and ['words']. *)
Record Sentence := mkSentence {
  sentence_text : string;
  sentence_start : Q;
  sentence_end : Q;
  sentence_words : list WordData
}.

(** [word.endswith('.') or word.endswith('!') or word.endswith('?')] *)
Definition ends_sentence (word : string) : bool :=
  endswith word "." || endswith word "!" || endswith word "?".

(** The dictionary built from the current sentence; [None] when the
    list is empty, the case that [if current_sentence:] guards. *)
Definition sentence_data (current_sentence : list WordData) : option Sentence :=
  match current_sentence with
  | [] => None
  | first :: _ =>
      Some {| sentence_text :=
                strip (join " " (map (fun w => get (word w) EmptyString)
                                     current_sentence));
              sentence_start := get (start first) 0;
              sentence_end := get (end_ (last current_sentence first)) 0;
              sentence_words := current_sentence |}
  end.

(** The loop of [create_sentence_timestamps] and the flush that follows
    it. *)
Fixpoint sentence_loop (max_words_per_line : Z)
  (word_timestamps current_sentence : list WordData) (sentences : list Sentence)
  : list Sentence :=
  match word_timestamps with
  | [] =>
      match sentence_data current_sentence with
      | Some sentence => (sentences ++ [sentence])%list
      | None => sentences
      end
  | word_data :: rest =>
      let current_sentence := (current_sentence ++ [word_data])%list in
      let word := get (Model.word word_data) EmptyString in
      if (Z.of_nat (List.length current_sentence) >=? max_words_per_line)%Z
         || ends_sentence word
      then
        match sentence_data current_sentence with
        | Some sentence =>
            sentence_loop max_words_per_line rest [] (sentences ++ [sentence])%list
        | None =>
            sentence_loop max_words_per_line rest current_sentence sentences
        end
      else sentence_loop max_words_per_line rest current_sentence sentences
  end.

Definition create_sentence_timestamps (word_timestamps : list WordData)
  (max_words_per_line : Z) : list Sentence :=
  match word_timestamps with
  | [] => []
  | _ :: _ => sentence_loop max_words_per_line word_timestamps [] []
  end.

(** The default of [max_words_per_line]. *)
Definition default_max_words_per_line : Z := 8.

(** A sentence as the words it holds determine it. *)
Definition well_formed (s : Sentence) : Prop :=
  sentence_data (sentence_words s) = Some s.

(** The sentence was closed by the loop: it is full, or its last word
    ends it. *)
Definition closed (max_words_per_line : Z) (s : Sentence) : Prop :=
  (Z.of_nat (List.length (sentence_words s)) >= max_words_per_line)%Z \/
  exists w, last_item (sentence_words s) = Some w /\
            ends_sentence (get (word w) EmptyString) = true.

(** No word of the list ends a sentence. *)
Definition open_words (l : list WordData) : Prop :=
  Forall (fun w => ends_sentence (get (word w) EmptyString) = false) l.

(** The size that no sentence exceeds: the maximum asked for, and one
    word at least. *)
Definition line_limit (max_words_per_line : Z) : Z := Z.max 1 max_words_per_line.

End Sentences.

(** ** mp3_embedder.py: lines, extraction and the LRC file *)

Module Exports.
Import PyNum PyStr Model Mutagen MP3Embedder.
Local Open Scope string_scope.

(** [[w.get('word', '') for w in current_line]] *)
Definition line_words (current_line : list WordData) : list string :=
  map (fun w => get (word w) EmptyString) current_line.

(** What a finished line adds to [sylt_data]: one entry, or nothing
    when the line is empty or its text trims to nothing. *)
Definition line_entry (current_line : list WordData) : list (string * Z) :=
  match current_line with
  | [] => []
  | first :: _ =>
      let line_text := strip (join " " (line_words current_line)) in
      let start_time := get (start first) 0%Q in
      let timestamp_ms := py_int (start_time * 1000) in
      if is_empty line_text then [] else [(line_text, timestamp_ms)]
  end.

(** The loop of [_create_line_based_sylt_data] and the flush that
    follows it. *)
Fixpoint line_loop (max_words_per_line : Z)
  (word_timestamps current_line : list WordData) (sylt_data : list (string * Z))
  : list (string * Z) :=
  match word_timestamps with
  | [] => (sylt_data ++ line_entry current_line)%list
  | word_data :: rest =>
      let current_line := (current_line ++ [word_data])%list in
      if (Z.of_nat (List.length current_line) >=? max_words_per_line)%Z then
        match current_line with
        | [] => line_loop max_words_per_line rest current_line sylt_data
        | _ :: _ =>
            line_loop max_words_per_line rest []
                      (sylt_data ++ line_entry current_line)%list
        end
      else line_loop max_words_per_line rest current_line sylt_data
  end.

Definition _create_line_based_sylt_data (word_timestamps : list WordData)
  (max_words_per_line : Z) : list (string * Z) :=
  line_loop max_words_per_line word_timestamps [] [].

(** [f"{n:02d}"] for a natural number. *)
Definition pad2 (n : nat) : string :=
  let digits := str_of_nat n in
  if (String.length digits <? 2)%nat then "0" ++ digits else digits.

(** [f"{z:02d}"]: the sign counts for the width. *)
Definition format_02d (z : Z) : string :=
  if (z <? 0)%Z then "-" ++ str_of_nat (Z.to_nat (- z)) else pad2 (Z.to_nat z).

(** [f"{x:05.2f}"] for [x] that is not negative: hundredths, rounded. *)
Definition format_05_2f (x : Q) : string :=
  let hundredths := Z.to_nat (round_half_even (x * 100)) in
  pad2 (hundredths / 100) ++ "." ++ pad2 (hundredths mod 100).

(** The prefix [[mm:ss.xx]] of a line of the LRC file:
    [minutes = int(start_time // 60)], [seconds = start_time % 60]. *)
Definition lrc_timestamp (start_time : Q) : string :=
  let minutes := Qfloor (start_time / 60) in
  let seconds := (start_time - inject_Z minutes * 60)%Q in
  "[" ++ format_02d minutes ++ ":" ++ format_05_2f seconds ++ "]".

(** The text of one line of the LRC file; an empty line of words, which
    the loop never meets, gives no line. *)
Definition lrc_line (current_line : list WordData) : list string :=
  match current_line with
  | [] => []
  | first :: _ =>
      let line_text := join " " (line_words current_line) in
      let start_time := get (start first) 0%Q in
      [lrc_timestamp start_time ++ line_text]
  end.

(** The loop of [create_lrc_file], eight words to a line, and the flush
    that follows it. *)
Fixpoint lrc_loop (word_timestamps current_line : list WordData)
  (lrc_lines : list string) : list string :=
  match word_timestamps with
  | [] => (lrc_lines ++ lrc_line current_line)%list
  | word_data :: rest =>
      let current_line := (current_line ++ [word_data])%list in
      if (8 <=? List.length current_line)%nat then
        match current_line with
        | [] => lrc_loop rest current_line lrc_lines
        | _ :: _ => lrc_loop rest [] (lrc_lines ++ lrc_line current_line)%list
        end
      else lrc_loop rest current_line lrc_lines
  end.

Definition lrc_lines_of (word_timestamps : list WordData) : list string :=
  lrc_loop word_timestamps [] [].

Definition newline : string := String (ascii_of_nat 10) EmptyString.

(** [create_lrc_file]: the path returned and the text written, or the
    exception raised when the file cannot be written. *)
Definition create_lrc_file (write_fault : option string)
  (word_timestamps : list WordData) (output_path : string)
  : Res string * option string :=
  match write_fault with
  | Some message =>
      (Raise (Exception ("Error creating LRC file: " ++ message)), None)
  | None => (Ok output_path, Some (join newline (lrc_lines_of word_timestamps)))
  end.

(** One entry of the result of [extract_sylt_lyrics]: the keys ['text']
    and ['timestamp'], the latter in seconds. *)
Record Lyric := mkLyric {
  lyric_text : string;
  timestamp : Q
}.

(** [frame.text] of a synchronized frame. *)
Definition frame_text (f : Frame) : list (string * Z) :=
  match f with
  | SYLT _ _ _ _ _ text => text
  | _ => []
  end.

Definition lyric_of (entry : string * Z) : Lyric :=
  mkLyric (fst entry) (inject_Z (snd entry) / 1000).

(** [extract_sylt_lyrics], on the content of the file at [mp3_path]:
    every failure gives the empty list. *)
Definition extract_sylt_lyrics (mp3_path : string) (content : option File)
  : list Lyric :=
  match load mp3_path content with
  | Raise _ => []
  | Ok None | Ok (Some []) => []
  | Ok (Some tags) =>
      flat_map (fun frame => map lyric_of (frame_text frame)) (getall "SYLT" tags)
  end.

(** Cutting a list into runs of [size] elements, the last run being
    what is left: the grouping that the two loops above perform. *)
Fixpoint chunk_from {A : Type} (size : nat) (current : list A) (l : list A)
  : list (list A) :=
  match l with
  | [] => match current with [] => [] | _ :: _ => [current] end
  | x :: rest =>
      let current := (current ++ [x])%list in
      if (size <=? List.length current)%nat
      then current :: chunk_from size [] rest
      else chunk_from size current rest
  end.

(** Runs of at most [size] elements, none empty, all full but the
    last. *)
Definition full_runs {A : Type} (size : nat) (runs : list (list A)) : Prop :=
  Forall (fun g => (1 <= List.length g <= size)%nat) runs /\
  Forall (fun g => List.length g = size) (removelast runs).

End Exports.

(** ** utils.py: the second validator *)

Module UtilsValidate.
Import PyNum PyStr Model.
Local Open Scope string_scope.

(** The body of the loop of [validate_word_timestamps]: the cleaned
    entry, or [None] when the word is skipped. *)
Definition validated_entry (word_data : WordData) : option WordData :=
  let word := strip (get (Model.word word_data) EmptyString) in
  let start := get (Model.start word_data) 0%Q in
  let end_time := get (end_ word_data) 0%Q in
  if is_empty word then None
  else
    let start := if Qlt_le_dec start 0 then 0%Q else start in
    let end_time :=
      if Qle_bool end_time start then (start + 0.1)%Q else end_time in
    Some (timed word (round3 start) (round3 end_time)).

Fixpoint validate_word_timestamps (word_timestamps : list WordData)
  : list WordData :=
  match word_timestamps with
  | [] => []
  | word_data :: rest =>
      match validated_entry word_data with
      | None => validate_word_timestamps rest
      | Some entry => entry :: validate_word_timestamps rest
      end
  end.

End UtilsValidate.

(** ** Predicates on timed words used by the properties *)

Module Shapes.
Import PyNum PyStr Model.

(** A unit of the output of a validator: all keys, a trimmed word that
    is not empty, a start that is not negative and an end not before
    it. *)
Definition tidy (u : WordData) : Prop :=
  exists w s e,
    u = timed w s e /\ strip w = w /\ is_empty w = false /\ 0 <= s /\ s <= e.

End Shapes.

(** ** Runs of units, for the properties of merging *)

Module Runs.
Import PyNum PyStr Model Utils.

(** The unit that stands for a whole run: the blank-joined words, the
    start of the first and the end of the last. *)
Definition spans (g : list WordData) (m : WordData) : Prop :=
  flush_group g = Some m /\
  exists first final,
    hd_error g = Some first /\ last_item g = Some final /\
    start m = start first /\ end_ m = end_ final.

End Runs.

From Stdlib Require HexadecimalString.

(** ** utils.py: text, colours and file names *)

Module UtilsText.
Import PyNum PyStr Model Utils.
Local Open Scope string_scope.

Definition is_nil {A : Type} (l : list A) : bool :=
  match l with [] => true | _ :: _ => false end.

(** The loop of [split_text_into_chunks] and the flush that follows
    it. *)
Fixpoint chunk_loop (max_chars_per_chunk : Z) (words current_chunk : list string)
  (current_length : Z) (chunks : list string) : list string :=
  match words with
  | [] =>
      if is_nil current_chunk then chunks
      else (chunks ++ [join " " current_chunk])%list
  | word :: rest =>
      let word_length := (Z.of_nat (String.length word) + 1)%Z in
      if (current_length + word_length >? max_chars_per_chunk)%Z
         && negb (is_nil current_chunk)
      then
        chunk_loop max_chars_per_chunk rest [word]
                   (Z.of_nat (String.length word))
                   (chunks ++ [join " " current_chunk])%list
      else
        chunk_loop max_chars_per_chunk rest (current_chunk ++ [word])%list
                   (current_length + word_length)%Z chunks
  end.

Definition split_text_into_chunks (text : string) (max_chars_per_chunk : Z)
  : list string :=
  if is_empty text then []
  else chunk_loop max_chars_per_chunk (split text) [] 0%Z [].

(** The default of [max_chars_per_chunk]. *)
Definition default_max_chars_per_chunk : Z := 100.

(** A chunk is short enough, or it is one word that could not be cut. *)
Definition fits (max_chars_per_chunk : Z) (chunk : string) : Prop :=
  (Z.of_nat (String.length chunk) <= max_chars_per_chunk)%Z \/
  List.length (split chunk) = 1%nat.

(** The words of one chunk: tokens, at least one, and within the limit
    once joined unless the chunk is a single word. *)
Definition chunk_group (max_chars_per_chunk : Z) (g : list string) : Prop :=
  word_group g /\
  ((2 <= List.length g)%nat ->
   (Z.of_nat (String.length (join " " g)) <= max_chars_per_chunk)%Z).

(** A chunk is not empty, its words are set apart by single blanks, and
    it is short enough unless it is one word. *)
Definition well_cut (max_chars_per_chunk : Z) (chunk : string) : Prop :=
  chunk <> EmptyString /\ join " " (split chunk) = chunk /\
  fits max_chars_per_chunk chunk.

(** [s.replace(old, new)] for a pattern that is not empty: occurrences
    are replaced from the left and do not overlap.  [skip] counts the
    characters of an occurrence still to pass over. *)
Fixpoint replace_from (old new : string) (skip : nat) (s : string) : string :=
  match s with
  | EmptyString => EmptyString
  | String c rest =>
      match skip with
      | S k => replace_from old new k rest
      | O =>
          if String.prefix old s
          then new ++ replace_from old new (String.length old - 1) rest
          else String c (replace_from old new 0 rest)
      end
  end.

Definition replace (old new s : string) : string := replace_from old new 0 s.

(** [clean_text] *)
Definition clean_text (text : string) : string :=
  if is_empty text then EmptyString
  else
    let text := join " " (split text) in
    let text := replace "[Music]" EmptyString text in
    let text := replace "[Applause]" EmptyString text in
    let text := replace "[Laughter]" EmptyString text in
    let text := replace "(Music)" EmptyString text in
    let text := replace "(Applause)" EmptyString text in
    let text := replace "(Laughter)" EmptyString text in
    let text := join " " (split text) in
    strip text.

(** *** Colours *)

(** The value of a hexadecimal digit. *)
Definition hex_value (c : ascii) : option Z :=
  let n := nat_of_ascii c in
  if ((48 <=? n) && (n <=? 57))%nat then Some (Z.of_nat n - 48)%Z
  else if ((97 <=? n) && (n <=? 102))%nat then Some (Z.of_nat n - 87)%Z
  else if ((65 <=? n) && (n <=? 70))%nat then Some (Z.of_nat n - 55)%Z
  else None.

(** The whitespace that [int] passes over at both ends of an ASCII
    string. *)
Definition int_space (c : ascii) : bool :=
  let n := nat_of_ascii c in
  (((9 <=? n) && (n <=? 13)) || (n =? 32))%nat.

Fixpoint skip_int_space (s : string) : string :=
  match s with
  | EmptyString => EmptyString
  | String c rest => if int_space c then skip_int_space rest else s
  end.

(** Digits, single underscores between them, then whitespace up to the
    end; [after_digit] tells that the last character read was a digit. *)
Fixpoint hex_digits (value : Z) (after_digit : bool) (s : string) : option Z :=
  match s with
  | EmptyString => if after_digit then Some value else None
  | String c rest =>
      match hex_value c with
      | Some v => hex_digits (16 * value + v)%Z true rest
      | None =>
          if Ascii.eqb c "_" then
            if after_digit then hex_digits value false rest else None
          else if int_space c && after_digit then
            match skip_int_space rest with
            | EmptyString => Some value
            | String _ _ => None
            end
          else None
      end
  end.

(** The digits proper: a first digit is required, after an optional
    prefix [0x] that may be followed by one underscore. *)
Definition hex_magnitude (s : string) : option Z :=
  let body :=
    match s with
    | String c0 (String c1 rest) =>
        if Ascii.eqb c0 "0" && (Ascii.eqb c1 "x" || Ascii.eqb c1 "X") then
          match rest with
          | String c2 rest' => if Ascii.eqb c2 "_" then rest' else rest
          | EmptyString => rest
          end
        else s
    | _ => s
    end in
  match body with
  | EmptyString => None
  | String c _ =>
      match hex_value c with
      | Some _ => hex_digits 0 false body
      | None => None
      end
  end.

(** [int(s, 16)] on an ASCII string; [None] stands for [ValueError]. *)
Definition int16 (s : string) : option Z :=
  match skip_int_space s with
  | String c rest =>
      if Ascii.eqb c "-" then option_map Z.opp (hex_magnitude rest)
      else if Ascii.eqb c "+" then hex_magnitude rest
      else hex_magnitude (String c rest)
  | EmptyString => None
  end.

(** [s.lstrip(c)] and [s.strip(c)] for a single character [c]. *)
Fixpoint lstrip_char (c : ascii) (s : string) : string :=
  match s with
  | EmptyString => EmptyString
  | String a rest => if Ascii.eqb a c then lstrip_char c rest else s
  end.

Fixpoint rstrip_char (c : ascii) (s : string) : string :=
  match s with
  | EmptyString => EmptyString
  | String a rest =>
      match rstrip_char c rest with
      | EmptyString => if Ascii.eqb a c then EmptyString else String a EmptyString
      | String _ _ as rest' => String a rest'
      end
  end.

Definition strip_char (c : ascii) (s : string) : string :=
  rstrip_char c (lstrip_char c s).

Definition white : Z * Z * Z := (255, 255, 255)%Z.

(** [convert_color_hex_to_rgb] *)
Definition convert_color_hex_to_rgb (hex_color : string) : Z * Z * Z :=
  let hex_color := lstrip_char "#" hex_color in
  if negb (String.length hex_color =? 6)%nat then white
  else
    match int16 (substring 0 2 hex_color),
          int16 (substring 2 2 hex_color),
          int16 (substring 4 2 hex_color) with
    | Some r, Some g, Some b => (r, g, b)
    | _, _, _ => white
    end.

(** Lower-case hexadecimal digits of a natural number. *)
Definition hex_of_N (n : N) : string :=
  HexadecimalString.NilZero.string_of_uint (N.to_hex_uint n).

(** [f"{z:02x}"]: the sign counts for the width. *)
Definition format_02x (z : Z) : string :=
  if (z <? 0)%Z then "-" ++ hex_of_N (Z.to_N (- z))
  else
    let digits := hex_of_N (Z.to_N z) in
    if (String.length digits <? 2)%nat then "0" ++ digits else digits.

(** [convert_rgb_to_hex] *)
Definition convert_rgb_to_hex (r g b : Z) : string :=
  "#" ++ format_02x r ++ format_02x g ++ format_02x b.

(** A colour channel: a whole number from 0 to 255. *)
Definition channel (z : Z) : Prop := (0 <= z <= 255)%Z.

(** *** File names *)

Definition quote_char : ascii := ascii_of_nat 34.
Definition backslash_char : ascii := ascii_of_nat 92.

(** The characters of the class of the first substitution of
    [create_safe_filename]. *)
Definition invalid_char (c : ascii) : bool :=
  Ascii.eqb c "<" || Ascii.eqb c ">" || Ascii.eqb c ":" || Ascii.eqb c quote_char
  || Ascii.eqb c "/" || Ascii.eqb c backslash_char || Ascii.eqb c "|"
  || Ascii.eqb c "?" || Ascii.eqb c "*".

(** The characters of the class of the second substitution: the
    underscore and whitespace. *)
Definition separator_char (c : ascii) : bool := Ascii.eqb c "_" || is_space c.

(** The first substitution: each character of the class becomes an
    underscore. *)
Fixpoint replace_invalid (s : string) : string :=
  match s with
  | EmptyString => EmptyString
  | String c rest =>
      String (if invalid_char c then "_"%char else c) (replace_invalid rest)
  end.

(** The second substitution: every run of separators becomes one
    underscore; [in_run] tells that the run has begun. *)
Fixpoint collapse_runs (in_run : bool) (s : string) : string :=
  match s with
  | EmptyString => EmptyString
  | String c rest =>
      if separator_char c then
        if in_run then collapse_runs true rest
        else String "_" (collapse_runs true rest)
      else String c (collapse_runs false rest)
  end.

(** [create_safe_filename] *)
Definition create_safe_filename (filename : string) : string :=
  let safe_filename := replace_invalid filename in
  let safe_filename := collapse_runs false safe_filename in
  let safe_filename := strip_char "_" safe_filename in
  if is_empty safe_filename then "output" else safe_filename.

(** No character of the name satisfies the test. *)
Fixpoint free_of (test : ascii -> bool) (s : string) : bool :=
  match s with
  | EmptyString => true
  | String c rest => negb (test c) && free_of test rest
  end.

(** The digits that [format_02x] writes. *)
Definition lower_hex (c : ascii) : bool :=
  let n := nat_of_ascii c in
  (((48 <=? n) && (n <=? 57)) || ((97 <=? n) && (n <=? 102)))%nat.

(** Six lower-case hexadecimal digits. *)
Definition colour_digits (s : string) : Prop :=
  String.length s = 6%nat /\ free_of (fun c => negb (lower_hex c)) s = true.

(** *** Checks by enumeration *)

(** What is checked of one channel value: two digits come out, the first
    is not the hash sign, and they read back as the value. *)
Definition channel_round_trip (z : Z) : bool :=
  match format_02x z with
  | String c1 (String c2 EmptyString) =>
      negb (Ascii.eqb c1 "#") && lower_hex c1 && lower_hex c2 &&
      match int16 (String c1 (String c2 EmptyString)) with
      | Some v => (v =? z)%Z
      | None => false
      end
  | _ => false
  end.

(** The lower-case hexadecimal digits, and what is checked of a pair
    of them: it reads as a channel that is written back as the pair. *)
Definition all_chars : list ascii := map ascii_of_nat (seq 0 256).

Definition hex_digit_chars : list ascii := filter lower_hex all_chars.

Definition digits_round_trip (c1 c2 : ascii) : bool :=
  match int16 (String c1 (String c2 EmptyString)) with
  | Some v =>
      (0 <=? v)%Z && (v <=? 255)%Z &&
      String.eqb (format_02x v) (String c1 (String c2 EmptyString))
  | None => false
  end.

(** Every character, and what is checked of a pair of them: when it
    reads as a number, the number is from -15 to 255. *)
Definition in_range (c1 c2 : ascii) : bool :=
  match int16 (String c1 (String c2 EmptyString)) with
  | Some v => (-15 <=? v)%Z && (v <=? 255)%Z
  | None => true
  end.

(** No two underscores follow each other. *)
Fixpoint single_underscores (s : string) : bool :=
  match s with
  | String a ((String b _) as rest) =>
      negb (Ascii.eqb a "_" && Ascii.eqb b "_") && single_underscores rest
  | _ => true
  end.

Definition first_char (s : string) : option ascii :=
  match s with EmptyString => None | String c _ => Some c end.

Fixpoint last_char (s : string) : option ascii :=
  match s with
  | EmptyString => None
  | String c rest =>
      match last_char rest with None => Some c | Some l => Some l end
  end.

(** A name that needs no cleaning: not empty, none of the characters
    that are replaced, no whitespace, underscores only one at a time and
    not at either end. *)
Definition safe_name (s : string) : Prop :=
  s <> EmptyString /\
  free_of invalid_char s = true /\ free_of is_space s = true /\
  single_underscores s = true /\
  first_char s <> Some "_"%char /\ last_char s <> Some "_"%char.

End UtilsText.

(** ** Binary64 arithmetic *)

Module Binary64.
Import PyNum.

(** [2 ** k] *)
Definition pow2 (k : Z) : Q := 2 ^ k.

(** [floor(log2(x))] for a positive rational: the difference of the bit
    lengths of numerator and denominator, or one less. *)
Definition ilog2 (x : Q) : Z :=
  let g := (Z.log2 (Qnum x) - Z.log2 (Zpos (Qden x)))%Z in
  if Qle_bool (pow2 g) x then g else (g - 1)%Z.

(** The exponent of the last place of the binary64 numbers around [x]:
    53 significant bits, and no place below [2 ** -1074]. *)
Definition ulp_exponent (x : Q) : Z := Z.max (-1074) (ilog2 x - 52).

(** The binary64 number nearest to a positive rational, ties to the
    even significand. *)
Definition round_pos (x : Q) : Q :=
  let s := ulp_exponent x in
  inject_Z (round_half_even (x / pow2 s)) * pow2 s.

(** The binary64 number nearest to [x], as a rational in lowest terms.
    Every operation on floats is the exact operation followed by this
    rounding.  Overflow is left to the operations that can meet it. *)
Definition rnd (x : Q) : Q :=
  Qred match Qcompare x 0 with
       | Eq => 0
       | Gt => round_pos x
       | Lt => - round_pos (- x)
       end.

(** The value is a binary64 number. *)
Definition double (x : Q) : Prop := rnd x = x.

(** The float that a decimal literal denotes. *)
Definition literal (x : Q) : Q := rnd x.

Definition fadd (a b : Q) : Q := rnd (a + b).
Definition fsub (a b : Q) : Q := rnd (a - b).
Definition fmul (a b : Q) : Q := rnd (a * b).
Definition fdiv (a b : Q) : Q := rnd (a / b).

(** The result of an operation is beyond the largest binary64 number:
    the float is an infinity. *)
Definition overflows (x : Q) : bool := Qle_bool (pow2 1024) (Qabs x).

(** [round(x, 3)] on a float: the decimal rounding of the exact value,
    ties to even, then the nearest float. *)
Definition round_ms (x : Q) : Q := rnd (round_half_even (x * 1000) # 1000).

End Binary64.

(** ** The functions whose results depend on how floats round *)

(** [validate_timestamps] over binary64 values. *)

Module AudioProcessor64.
Import PyNum PyStr Model Binary64.

(** The body of the loop of [validate_timestamps]; [0.1] is the float
    that the literal denotes and [+] the float addition. *)
Definition validate_word (audio_duration : Q) (word_data : WordData) : WordData :=
  let start_time := py_max 0 (get (start word_data) 0) in
  let end_time :=
    py_min audio_duration
           (get (end_ word_data) (fadd start_time (literal 0.1))) in
  let end_time :=
    if Qle_bool end_time start_time then fadd start_time (literal 0.1)
    else end_time in
  timed (strip (get (word word_data) EmptyString))
        (round_ms start_time) (round_ms end_time).

Fixpoint validate_timestamps (word_timestamps : list WordData) (audio_duration : Q)
  : list WordData :=
  match word_timestamps with
  | [] => []
  | word_data :: rest =>
      let cleaned_word := validate_word audio_duration word_data in
      if is_empty (word_of cleaned_word)
      then validate_timestamps rest audio_duration
      else cleaned_word :: validate_timestamps rest audio_duration
  end.

(** The start and end of a unit after the two clamps, before the repair
    and the rounding. *)
Definition clamped_start (u : WordData) : Q := py_max 0 (get (start u) 0).

Definition clamped_end (audio_duration : Q) (u : WordData) : Q :=
  py_min audio_duration
         (get (end_ u) (fadd (clamped_start u) (literal 0.1))).

(** The end after the repair [if end_time <= start_time], before the
    rounding. *)
Definition repaired_end (audio_duration : Q) (u : WordData) : Q :=
  if Qle_bool (clamped_end audio_duration u) (clamped_start u)
  then fadd (clamped_start u) (literal 0.1)
  else clamped_end audio_duration u.

End AudioProcessor64.

(** [_create_sylt_data] over binary64 values. *)

Module MP3Embedder64.
Import PyNum PyStr Model Binary64.
Local Open Scope string_scope.

(** The float product [start_time * 1000] of a unit. *)
Definition milliseconds (u : WordData) : Q := fmul (get (start u) 0) 1000.

(** The loop inside the [try] of [_create_sylt_data].  [None] stands for
    the [OverflowError] that [int] raises on an infinite product. *)
Fixpoint sylt_loop (word_timestamps : list WordData) : option (list (string * Z)) :=
  match word_timestamps with
  | [] => Some []
  | word_data :: rest =>
      let word := strip (get (Model.word word_data) EmptyString) in
      if is_empty word then sylt_loop rest
      else
        let product := milliseconds word_data in
        if overflows product then None
        else
          let timestamp_ms := py_int product in
          option_map (cons (word, timestamp_ms)) (sylt_loop rest)
  end.

(** [_create_sylt_data]: an exception inside the loop is caught and the
    empty list returned. *)
Definition _create_sylt_data (word_timestamps : list WordData) : list (string * Z) :=
  match sylt_loop word_timestamps with
  | Some sylt_data => sylt_data
  | None => []
  end.

(** The entry emitted for a unit that is kept. *)
Definition sylt_entry (u : WordData) : string * Z :=
  (strip (get (word u) EmptyString), py_int (milliseconds u)).

(** A unit that is kept: its trimmed word is not empty. *)
Definition kept (u : WordData) : bool :=
  negb (is_empty (strip (get (word u) EmptyString))).

End MP3Embedder64.

(** [merge_overlapping_timestamps] over binary64 values. *)

Module Utils64.
Import PyNum PyStr Model Binary64 Utils.

(** The loop of [merge_overlapping_timestamps]; the difference
    [current_start - last_end] is the float difference.  [None] is a
    [KeyError] on a unit that lacks a key the loop reads. *)
Fixpoint merge_loop (rest current_group merged_timestamps : list WordData)
  (overlap_threshold : Q) : option (list WordData) :=
  match rest with
  | [] =>
      match flush_group current_group with
      | Some m => Some (merged_timestamps ++ [m])
      | None => None
      end
  | word_data :: rest' =>
      match last_item current_group with
      | Some final =>
          match end_ final, start word_data with
          | Some last_end, Some current_start =>
              if Qle_bool (fsub current_start last_end) overlap_threshold then
                merge_loop rest' (current_group ++ [word_data])
                           merged_timestamps overlap_threshold
              else
                match flush_group current_group with
                | Some m =>
                    merge_loop rest' [word_data] (merged_timestamps ++ [m])
                               overlap_threshold
                | None => None
                end
          | _, _ => None
          end
      | None => None
      end
  end.

Definition merge_overlapping_timestamps (word_timestamps : list WordData)
  (overlap_threshold : Q) : option (list WordData) :=
  match word_timestamps with
  | [] => Some []
  | first :: rest => merge_loop rest [first] [] overlap_threshold
  end.

(** The default threshold of [merge_overlapping_timestamps]. *)
Definition default_overlap_threshold : Q := literal 0.05.

(** The second unit starts within the threshold after the first ends,
    by the test of the loop. *)
Definition close_enough (overlap_threshold : Q) (a b : WordData) : Prop :=
  match end_ a, start b with
  | Some ea, Some sb => fsub sb ea <= overlap_threshold
  | _, _ => False
  end.

(** Every unit of the list is close enough to the one before it. *)
Fixpoint chained (overlap_threshold : Q) (g : list WordData) : Prop :=
  match g with
  | a :: ((b :: _) as tail) =>
      close_enough overlap_threshold a b /\ chained overlap_threshold tail
  | _ => True
  end.

(** The gap between two neighbours, as the loop computes it, exceeds
    the threshold. *)
Definition gap_exceeds (overlap_threshold : Q) (a b : WordData) : Prop :=
  match end_ a, start b with
  | Some ea, Some sb => ~ (fsub sb ea <= overlap_threshold)
  | _, _ => False
  end.

Fixpoint gaps_exceed (overlap_threshold : Q) (l : list WordData) : Prop :=
  match l with
  | a :: ((b :: _) as tail) =>
      gap_exceeds overlap_threshold a b /\ gaps_exceed overlap_threshold tail
  | _ => True
  end.

(** The exact difference of the two values exceeds the threshold. *)
Definition apart (overlap_threshold : Q) (a b : WordData) : Prop :=
  match end_ a, start b with
  | Some ea, Some sb => overlap_threshold < sb - ea
  | _, _ => False
  end.

Fixpoint all_apart (overlap_threshold : Q) (l : list WordData) : Prop :=
  match l with
  | a :: ((b :: _) as tail) =>
      apart overlap_threshold a b /\ all_apart overlap_threshold tail
  | _ => True
  end.

End Utils64.

(** Timed words as floats. *)

Module Scenario64.
Import Model Binary64.
Local Open Scope string_scope.

(** The dictionary literal with the floats that the decimals denote. *)
Definition timed_at (w : string) (s e : Q) : WordData :=
  timed w (literal s) (literal e).

(** The two timed words of the transcript of two words. *)
Definition hello_units : list WordData :=
  [timed_at "Hello" 0.5 1.5; timed_at "world" 1.55 2.5].

End Scenario64.

(** * Part II: properties *)

(** ** Arithmetic of clamping and rounding *)

Module PyNumFacts.
Import PyNum.

Lemma py_max_spec a b : py_max a b == Qmax a b.
Proof.
  unfold py_max. destruct (Qlt_le_dec a b) as [H|H].
  - symmetry. apply Q.max_r. now apply Qlt_le_weak.
  - symmetry. apply Q.max_l. exact H.
Qed.

Lemma py_min_spec a b : py_min a b == Qmin a b.
Proof.
  unfold py_min. destruct (Qlt_le_dec b a) as [H|H].
  - symmetry. apply Q.min_r. now apply Qlt_le_weak.
  - symmetry. apply Q.min_l. exact H.
Qed.

Lemma py_max_lb a b : a <= py_max a b.
Proof. unfold py_max. destruct (Qlt_le_dec a b); lra. Qed.

(** *** Facts on [Qfloor] used for rounding *)

Lemma Qfloor_bounds x : inject_Z (Qfloor x) <= x < inject_Z (Qfloor x) + 1.
Proof.
  split; [apply Qfloor_le|].
  pose proof (Qlt_floor x) as H. rewrite inject_Z_plus in H. exact H.
Qed.

Lemma Qfloor_unique x z : inject_Z z <= x < inject_Z z + 1 -> Qfloor x = z.
Proof.
  intros [Hl Hu]. destruct (Qfloor_bounds x) as [Fl Fu].
  assert (H1 : (z < Qfloor x + 1)%Z).
  { rewrite Zlt_Qlt, inject_Z_plus. change (inject_Z 1) with 1. lra. }
  assert (H2 : (Qfloor x < z + 1)%Z).
  { rewrite Zlt_Qlt, inject_Z_plus. change (inject_Z 1) with 1. lra. }
  lia.
Qed.

Lemma Qfloor_add_Z x n : Qfloor (x + inject_Z n) = (Qfloor x + n)%Z.
Proof.
  apply Qfloor_unique. rewrite inject_Z_plus.
  destruct (Qfloor_bounds x). lra.
Qed.

(** *** Facts on [round_half_even] *)

#[export] Instance round_half_even_comp : Proper (Qeq ==> eq) round_half_even.
Proof.
  intros x y E. unfold round_half_even.
  rewrite (Qfloor_comp _ _ E).
  assert (C : Qcompare (x - inject_Z (Qfloor y)) (1 # 2) = Qcompare (y - inject_Z (Qfloor y)) (1 # 2)).
  { apply Qcompare_comp; [now rewrite E | reflexivity]. }
  now rewrite C.
Qed.

Lemma round_half_even_cases x :
  let f := Qfloor x in
  (x - inject_Z f < 1 # 2 /\ round_half_even x = f) \/
  (1 # 2 < x - inject_Z f /\ round_half_even x = (f + 1)%Z) \/
  (x - inject_Z f == 1 # 2 /\
   round_half_even x = if Z.even f then f else (f + 1)%Z).
Proof.
  intros f. unfold round_half_even. fold f.
  destruct (Qcompare (x - inject_Z f) (1 # 2)) eqn:C.
  - right; right. split; [now rewrite Qeq_alt | reflexivity].
  - left. split; [now rewrite Qlt_alt | reflexivity].
  - right; left. split; [now rewrite Qgt_alt | reflexivity].
Qed.

Lemma round_half_even_near x :
  inject_Z (round_half_even x) - (1 # 2) <= x <= inject_Z (round_half_even x) + (1 # 2).
Proof.
  destruct (Qfloor_bounds x) as [Fl Fu].
  destruct (round_half_even_cases x) as [[H E]|[[H E]|[H E]]]; rewrite E.
  - lra.
  - rewrite inject_Z_plus. change (inject_Z 1) with 1. lra.
  - destruct (Z.even (Qfloor x)).
    + lra.
    + rewrite inject_Z_plus. change (inject_Z 1) with 1. lra.
Qed.

Lemma round_half_even_Z n : round_half_even (inject_Z n) = n.
Proof.
  unfold round_half_even. rewrite Qfloor_Z.
  assert (C : Qcompare (inject_Z n - inject_Z n) (1 # 2) = Lt).
  { rewrite <- Qlt_alt. lra. }
  now rewrite C.
Qed.

Lemma round_half_even_add_even x n :
  Z.even n = true -> round_half_even (x + inject_Z n) = (round_half_even x + n)%Z.
Proof.
  intros En. unfold round_half_even. rewrite Qfloor_add_Z.
  assert (C : Qcompare (x + inject_Z n - inject_Z (Qfloor x + n)) (1 # 2)
              = Qcompare (x - inject_Z (Qfloor x)) (1 # 2)).
  { apply Qcompare_comp; [|reflexivity]. rewrite inject_Z_plus. ring. }
  rewrite C. destruct (Qcompare (x - inject_Z (Qfloor x)) (1 # 2)); try lia.
  rewrite Z.even_add, En. destruct (Z.even (Qfloor x)); simpl; lia.
Qed.

Lemma round_half_even_mono x y : x <= y -> (round_half_even x <= round_half_even y)%Z.
Proof.
  intros Hxy.
  destruct (Qfloor_bounds x) as [Xl Xu]. destruct (Qfloor_bounds y) as [Yl Yu].
  assert (Hf : (Qfloor x <= Qfloor y)%Z) by now apply Qfloor_resp_le.
  destruct (Z.eq_dec (Qfloor x) (Qfloor y)) as [E|NE].
  - destruct (round_half_even_cases x) as [[Hx Ex]|[[Hx Ex]|[Hx Ex]]];
    destruct (round_half_even_cases y) as [[Hy Ey]|[[Hy Ey]|[Hy Ey]]];
    rewrite Ex, Ey; rewrite <- ?E in *;
    try destruct (Z.even (Qfloor x)); try lia; exfalso; lra.
  - assert (Hlt : (Qfloor x + 1 <= Qfloor y)%Z) by lia.
    assert (Hx : (round_half_even x <= Qfloor x + 1)%Z).
    { destruct (round_half_even_cases x) as [[_ Ex]|[[_ Ex]|[_ Ex]]]; rewrite Ex;
      try destruct (Z.even (Qfloor x)); lia. }
    assert (Hy : (Qfloor y <= round_half_even y)%Z).
    { destruct (round_half_even_cases y) as [[_ Ey]|[[_ Ey]|[_ Ey]]]; rewrite Ey;
      try destruct (Z.even (Qfloor y)); lia. }
    lia.
Qed.

(** *** Facts on [round3] *)

#[export] Instance round3_comp : Proper (Qeq ==> eq) round3.
Proof. intros x y E. unfold round3. now rewrite E. Qed.

Lemma Qmake_1000 z : z # 1000 == inject_Z z / 1000.
Proof. unfold Qeq, Qdiv, Qmult, Qinv, inject_Z. simpl. lia. Qed.

Lemma Qmake_1000_le a b : (a <= b)%Z <-> a # 1000 <= b # 1000.
Proof. unfold Qle. simpl. lia. Qed.

Lemma round3_mono x y : x <= y -> round3 x <= round3 y.
Proof.
  intros H. unfold round3. apply -> Qmake_1000_le.
  apply round_half_even_mono. lra.
Qed.

Lemma round3_ms z : round3 (z # 1000) = z # 1000.
Proof.
  unfold round3. f_equal.
  assert (E : (z # 1000) * 1000 == inject_Z z) by (rewrite Qmake_1000; field).
  rewrite E. apply round_half_even_Z.
Qed.

Lemma round3_idem x : round3 (round3 x) = round3 x.
Proof. unfold round3 at 2. apply round3_ms. Qed.

Lemma round3_near x : round3 x - (1 # 2000) <= x <= round3 x + (1 # 2000).
Proof.
  unfold round3. rewrite Qmake_1000.
  pose proof (round_half_even_near (x * 1000)) as [L U].
  split.
  - apply Qmult_le_r with (z := 1000); [reflexivity|].
    setoid_replace ((inject_Z (round_half_even (x * 1000)) / 1000 - (1 # 2000)) * 1000)
      with (inject_Z (round_half_even (x * 1000)) - (1 # 2)) by field.
    exact L.
  - apply Qmult_le_r with (z := 1000); [reflexivity|].
    setoid_replace ((inject_Z (round_half_even (x * 1000)) / 1000 + (1 # 2000)) * 1000)
      with (inject_Z (round_half_even (x * 1000)) + (1 # 2)) by field.
    exact U.
Qed.

Lemma round3_nonneg x : 0 <= x -> 0 <= round3 x.
Proof.
  intros H. apply Qle_trans with (round3 0).
  - vm_compute. discriminate.
  - now apply round3_mono.
Qed.

(** *** Truncation against floor *)

Lemma py_int_nonneg x : 0 <= x -> py_int x = Qfloor x.
Proof.
  intros H. unfold py_int. destruct (Qlt_le_dec x 0); [lra | reflexivity].
Qed.

Lemma py_int_neg x : x < 0 -> py_int x = Qceiling x.
Proof.
  intros H. unfold py_int. destruct (Qlt_le_dec x 0); [reflexivity | lra].
Qed.

End PyNumFacts.

(** ** Stripping, splitting and joining *)

Module PyStrFacts.
Import PyStr.
Local Open Scope string_scope.
Local Open Scope nat_scope.

(** *** Facts on [strip] *)

Lemma lstrip_no_space s : no_space s = true -> lstrip s = s.
Proof.
  destruct s as [|c r]; simpl; [reflexivity|].
  intros H. apply andb_prop in H as [Hc _].
  apply negb_true_iff in Hc. now rewrite Hc.
Qed.

Lemma rstrip_no_space s : no_space s = true -> rstrip s = s.
Proof.
  induction s as [|c r IH]; simpl; [reflexivity|].
  intros H. apply andb_prop in H as [Hc Hr].
  apply negb_true_iff in Hc. rewrite (IH Hr), Hc. now destruct r.
Qed.

Lemma strip_token w : no_space w = true -> strip w = w.
Proof.
  intros H. unfold strip. rewrite (lstrip_no_space _ H). now apply rstrip_no_space.
Qed.

Lemma lstrip_starts_clean s : starts_clean (lstrip s).
Proof.
  induction s as [|c r IH]; simpl; [exact I|].
  destruct (is_space c) eqn:E; [exact IH | exact E].
Qed.

Lemma lstrip_of_clean s : starts_clean s -> lstrip s = s.
Proof. destruct s as [|c r]; simpl; [reflexivity|]. now intros ->. Qed.

Lemma rstrip_starts_clean s : starts_clean s -> starts_clean (rstrip s).
Proof.
  destruct s as [|c r]; simpl; [exact id|].
  intros H. destruct (rstrip r); [rewrite H|]; exact H.
Qed.

Lemma rstrip_idem s : rstrip (rstrip s) = rstrip s.
Proof.
  induction s as [|c r IH]; simpl; [reflexivity|].
  destruct (rstrip r) as [|c' r'] eqn:E.
  - destruct (is_space c) eqn:Ec; simpl; [reflexivity | now rewrite Ec].
  - simpl. simpl in IH. destruct (rstrip r') as [|c'' r''] eqn:E'.
    + destruct (is_space c') eqn:Ec'; [discriminate|].
      now inversion IH.
    + now inversion IH.
Qed.

Lemma strip_idem s : strip (strip s) = strip s.
Proof.
  unfold strip.
  rewrite (lstrip_of_clean (rstrip (lstrip s))).
  - apply rstrip_idem.
  - apply rstrip_starts_clean, lstrip_starts_clean.
Qed.

(** *** Facts on [split] and [join] *)

Lemma append_nil_r s : s ++ EmptyString = s.
Proof. induction s as [|c r IH]; simpl; [reflexivity | now rewrite IH]. Qed.

Lemma append_assoc a b c : (a ++ b) ++ c = a ++ (b ++ c).
Proof. induction a as [|x a IH]; simpl; [reflexivity | now rewrite IH]. Qed.

Lemma no_space_app a b : no_space (a ++ b) = no_space a && no_space b.
Proof.
  induction a as [|c a IH]; simpl; [reflexivity|].
  now rewrite IH, andb_assoc.
Qed.

Lemma flush_word_token cur : no_space cur = true -> Forall token (flush_word cur).
Proof.
  intros H. destruct cur; simpl; constructor; [|constructor].
  split; [discriminate | exact H].
Qed.

Lemma split_from_tokens s : forall cur,
  no_space cur = true -> Forall token (split_from cur s).
Proof.
  induction s as [|c r IH]; intros cur H; simpl.
  - now apply flush_word_token.
  - destruct (is_space c) eqn:E.
    + apply Forall_app. split; [now apply flush_word_token | now apply IH].
    + apply IH. rewrite no_space_app, H. simpl. now rewrite E.
Qed.

(** Every word that [split] returns is a token. *)
Lemma split_tokens s : Forall token (split s).
Proof. now apply split_from_tokens. Qed.

Lemma split_from_no_space w : forall cur s,
  no_space w = true -> split_from cur (w ++ s) = split_from (cur ++ w) s.
Proof.
  induction w as [|c r IH]; intros cur s H; simpl.
  - now rewrite append_nil_r.
  - simpl in H. apply andb_prop in H as [Hc Hr].
    apply negb_true_iff in Hc. rewrite Hc, (IH _ _ Hr).
    now rewrite append_assoc.
Qed.

(** A token splits into itself. *)
Lemma split_token w : token w -> split w = [w].
Proof.
  intros [Hne Hns]. unfold split.
  rewrite <- (append_nil_r w) at 1.
  rewrite (split_from_no_space _ _ _ Hns). simpl.
  destruct w; [contradiction | reflexivity].
Qed.

(** Splitting the blank-separated concatenation of tokens gives the
    tokens back. *)
Lemma split_join ws : Forall token ws -> split (join " " ws) = ws.
Proof.
  induction ws as [|w ws IH]; intros H; [reflexivity|].
  inversion H as [|? ? Hw Hws]; subst.
  destruct ws as [|w' ws'].
  - simpl. now apply split_token.
  - change (join " " (w :: w' :: ws')) with (w ++ " " ++ join " " (w' :: ws')).
    destruct Hw as [Hne Hns]. unfold split.
    rewrite (split_from_no_space _ _ _ Hns).
    change (split_from (EmptyString ++ w) (" " ++ join " " (w' :: ws')))
      with ((flush_word w ++ split (join " " (w' :: ws')))%list).
    rewrite (IH Hws).
    destruct w; [contradiction | reflexivity].
Qed.

End PyStrFacts.

(** ** validate_timestamps *)

Module ValidateFacts.
Import PyNum PyStr Model AudioProcessor PyNumFacts PyStrFacts.

Lemma validate_word_fields d u :
  validate_word d u =
  timed (strip (get (word u) EmptyString))
        (round3 (clamped_start u)) (round3 (repaired_end d u)).
Proof. reflexivity. Qed.

Lemma clamped_start_nonneg u : 0 <= clamped_start u.
Proof. apply py_max_lb. Qed.

Lemma repaired_end_of_long d u :
  clamped_start u < clamped_end d u ->
  repaired_end d u = clamped_end d u.
Proof.
  intros H. unfold repaired_end. destruct (Qle_bool _ _) eqn:E; [|reflexivity].
  apply Qle_bool_iff in E. lra.
Qed.

Lemma validate_word_cleaned d u :
  is_empty (word_of (validate_word d u)) = false -> cleaned (validate_word d u).
Proof.
  intros H. rewrite validate_word_fields in *. unfold round3.
  eexists _, _, _. split; [reflexivity|]. split; [apply strip_idem|].
  split; [exact H|].
  pose proof (round3_nonneg _ (clamped_start_nonneg u)) as N.
  unfold round3, Qle in N. simpl in N. lia.
Qed.

Lemma validate_timestamps_cleaned x d : Forall cleaned (validate_timestamps x d).
Proof.
  induction x as [|u x IH]; simpl; [constructor|].
  destruct (is_empty _) eqn:E; [exact IH|].
  constructor; [now apply validate_word_cleaned | exact IH].
Qed.

(** A cleaned unit that ends after it starts and within the duration is
    left as it is. *)
Lemma validate_word_fixed d u :
  cleaned u -> start_of u < end_of u -> end_of u <= d ->
  validate_word d u = u.
Proof.
  intros (w & zs & ze & -> & Hw & _ & Hs) Hlt Hle.
  unfold start_of, end_of in Hlt, Hle. simpl in Hlt, Hle.
  assert (Hs' : 0 <= zs # 1000) by (unfold Qle; simpl; lia).
  rewrite validate_word_fields. simpl.
  assert (Cs : clamped_start (timed w (zs # 1000) (ze # 1000)) == zs # 1000).
  { unfold clamped_start. simpl. rewrite py_max_spec. now apply Q.max_r. }
  assert (Ce : clamped_end d (timed w (zs # 1000) (ze # 1000)) == ze # 1000).
  { unfold clamped_end. simpl. rewrite py_min_spec. now apply Q.min_r. }
  rewrite repaired_end_of_long by (rewrite Cs, Ce; exact Hlt).
  rewrite Cs, Ce, !round3_ms, Hw. reflexivity.
Qed.

End ValidateFacts.

(** ** What validate_timestamps guarantees *)

Module ValidateSpec.
Import PyNum PyStr Model AudioProcessor PyNumFacts PyStrFacts ValidateFacts.
Local Open Scope string_scope.

(** Closed comparisons of rationals, by computation. *)
Ltac q_holds := vm_compute; first [reflexivity | discriminate].
Ltac q_fails H := vm_compute in H; first [discriminate H | apply H; reflexivity].

(** C5, as amended.  [validate_timestamps] gives a fixed point when
    every unit it returns ends after its start and within the duration:
    validating that result again changes nothing. *)
Theorem validate_timestamps_idempotent_bounded (x : list WordData) (d : Q) :
  Forall (fun u => start_of u < end_of u /\ end_of u <= d)
         (validate_timestamps x d) ->
  validate_timestamps (validate_timestamps x d) d = validate_timestamps x d.
Proof.
  pose proof (validate_timestamps_cleaned x d) as C.
  induction (validate_timestamps x d) as [|u l IH]; intros B; [reflexivity|].
  inversion C as [|? ? Cu Cl]; subst. inversion B as [|? ? [Bs Be] Bl]; subst.
  simpl. rewrite (validate_word_fixed d u Cu Bs Be), (IH Cl Bl).
  destruct Cu as (w & zs & ze & -> & _ & Hw & _).
  unfold word_of. simpl. now rewrite Hw.
Qed.

Lemma validate_timestamps_idempotent_bounded_witness :
  let x := [timed "Hello" 0.5 1.5; timed "world" 1.55 2.5] in
  Forall (fun u => start_of u < end_of u /\ end_of u <= 3) (validate_timestamps x 3) /\
  validate_timestamps (validate_timestamps x 3) 3 = validate_timestamps x 3.
Proof.
  intros x.
  assert (B : Forall (fun u => start_of u < end_of u /\ end_of u <= 3)
                     (validate_timestamps x 3)).
  { apply Forall_cons; [split; q_holds|].
    apply Forall_cons; [split; q_holds | apply Forall_nil]. }
  exact (conj B (validate_timestamps_idempotent_bounded x 3 B)).
Defined.

(** C5 as stated fails: an end repaired to [start + 0.1] beyond the
    duration is clamped back to the duration by a second pass. *)
Lemma validate_twice_differs :
  let x := [timed "a" 0.95 0.5] in
  validate_timestamps x 1 = [timed "a" (950 # 1000) (1050 # 1000)] /\
  validate_timestamps (validate_timestamps x 1) 1
    = [timed "a" (950 # 1000) (1000 # 1000)] /\
  validate_timestamps (validate_timestamps x 1) 1 <> validate_timestamps x 1.
Proof.
  split; [reflexivity|]. split; [reflexivity|].
  vm_compute. discriminate.
Qed.

End ValidateSpec.

(** ** get_word_timestamps *)

Module AllocateFacts.
Import PyNum PyStr Model AudioProcessor PyNumFacts PyStrFacts.

Lemma word_loop_length d n ws : forall i,
  List.length (word_loop d n i ws) = List.length ws.
Proof.
  induction ws as [|w ws IH]; intros i; simpl; [reflexivity | now rewrite IH].
Qed.

Lemma word_timing_fields d n i w :
  word_timing d n i w =
  timed (strip w) (round3 (fst (word_times d n i))) (round3 (snd (word_times d n i))).
Proof. unfold word_timing. now destruct (word_times d n i). Qed.

Lemma word_loop_words d n ws : forall i,
  Forall token ws -> map word_of (word_loop d n i ws) = ws.
Proof.
  induction ws as [|w ws IH]; intros i H; simpl; [reflexivity|].
  inversion H as [|? ? [_ Hw] Hws]; subst.
  rewrite word_timing_fields, (IH _ Hws). unfold word_of. simpl.
  now rewrite (strip_token _ Hw).
Qed.

Lemma word_loop_complete d n ws : forall i,
  Forall complete (word_loop d n i ws).
Proof.
  induction ws as [|w ws IH]; intros i; simpl; constructor; [|apply IH].
  rewrite word_timing_fields. now eexists _, _, _.
Qed.

(** On a transcript with at least one word and a positive duration the
    function runs its loop over all the words. *)
Lemma get_word_timestamps_loop (a : Audio) (text : string) :
  file_exists a = true -> transcription a = Some text ->
  split text <> [] -> 0 < audio_duration a ->
  get_word_timestamps a =
  word_loop (audio_duration a) (List.length (split text)) 0 (split text).
Proof.
  intros Hf Ht Hw Hd. unfold get_word_timestamps. rewrite Hf, Ht. simpl.
  destruct text as [|c r]; [now contradiction Hw|]. simpl is_empty. cbv iota.
  destruct (Qle_bool (audio_duration a) 0) eqn:E.
  - apply Qle_bool_iff in E. lra.
  - destruct (split (String c r)); [now contradiction Hw | reflexivity].
Qed.

(** Words returned by [split] are all counted as non-empty. *)
Lemma tokens_all_non_empty ws :
  Forall token ws -> filter (fun w => negb (is_empty (strip w))) ws = ws.
Proof.
  induction 1 as [|w ws [Hne Hns] _ IH]; simpl; [reflexivity|].
  rewrite (strip_token _ Hns), IH. destruct w; [contradiction | reflexivity].
Qed.

Section Timing.

Variable d : Q.
Variable n : nat.
Hypothesis long_enough : 1 < d.
Hypothesis several : (2 <= n)%nat.

Lemma total_words_pos : 0 < inject_Z (Z.of_nat n).
Proof. change 0 with (inject_Z 0). rewrite <- Zlt_Qlt. lia. Qed.

Lemma word_duration_pos : 0 < word_duration d n.
Proof.
  unfold word_duration, Qdiv. apply Qmult_lt_0_compat; [lra|].
  apply Qinv_lt_0_compat, total_words_pos.
Qed.

Lemma word_duration_total : inject_Z (Z.of_nat n) * word_duration d n == d - 1.
Proof.
  unfold word_duration. pose proof total_words_pos as P. field. lra.
Qed.

Lemma index_scaled_mono (i j : nat) :
  (i <= j)%nat ->
  inject_Z (Z.of_nat i) * word_duration d n
  <= inject_Z (Z.of_nat j) * word_duration d n.
Proof.
  intros H. apply Qmult_le_compat_r.
  - rewrite <- Zle_Qle. lia.
  - apply Qlt_le_weak, word_duration_pos.
Qed.

Lemma word_times_several i :
  word_times d n i =
  ((if Nat.ltb 0 i
    then 0.5 + inject_Z (Z.of_nat i) * word_duration d n + 0.05
    else 0.5 + inject_Z (Z.of_nat i) * word_duration d n),
   0.5 + inject_Z (Z.of_nat (i + 1)) * word_duration d n).
Proof.
  unfold word_times. destruct (Nat.eqb_spec n 1) as [E|_]; [lia | reflexivity].
Qed.

Lemma start_time_mono i j :
  (i <= j)%nat -> fst (word_times d n i) <= fst (word_times d n j).
Proof.
  intros H. rewrite !word_times_several. simpl.
  pose proof (index_scaled_mono i j H) as M.
  destruct (Nat.ltb_spec 0 i), (Nat.ltb_spec 0 j); try lra; lia.
Qed.

Lemma end_time_bound i :
  (i + 1 <= n)%nat -> snd (word_times d n i) <= d - 0.5.
Proof.
  intros H. rewrite word_times_several. simpl.
  pose proof (index_scaled_mono (i + 1) n H) as M.
  pose proof word_duration_total as T. lra.
Qed.

Lemma word_loop_starts_above ws : forall i j,
  (i <= j)%nat ->
  Forall (fun q => round3 (fst (word_times d n i)) <= q)
         (map start_of (word_loop d n j ws)).
Proof.
  induction ws as [|w ws IH]; intros i j H; simpl; constructor.
  - rewrite word_timing_fields. apply round3_mono. now apply start_time_mono.
  - apply IH. lia.
Qed.

Lemma word_loop_sorted ws : forall i,
  non_decreasing_start (word_loop d n i ws).
Proof.
  unfold non_decreasing_start.
  induction ws as [|w ws IH]; intros i; simpl; constructor.
  - apply IH.
  - rewrite word_timing_fields. apply word_loop_starts_above. lia.
Qed.

Lemma word_loop_ends ws : forall i,
  (i + List.length ws <= n)%nat ->
  Forall (fun u => end_of u <= d) (word_loop d n i ws).
Proof.
  induction ws as [|w ws IH]; intros i H; simpl in *; constructor.
  - rewrite word_timing_fields. unfold end_of. simpl.
    pose proof (round3_near (snd (word_times d n i))) as [N _].
    assert (B : snd (word_times d n i) <= d - 0.5) by (apply end_time_bound; lia).
    lra.
  - apply IH. lia.
Qed.

End Timing.

(** A single word spans the audio between the two silences. *)
Lemma word_loop_single d w :
  word_loop d 1 0 [w] = [timed (strip w) (round3 0.5) (round3 (d - 0.5))].
Proof. reflexivity. Qed.

End AllocateFacts.

(** ** What get_word_timestamps produces *)

Module AllocateSpec.
Import PyNum PyStr Model AudioProcessor MP3Embedder.
Import PyNumFacts PyStrFacts AllocateFacts Scenario.
Local Open Scope string_scope.

(** C4.  For a transcript with at least one word and a duration above
    one second, [get_word_timestamps] returns one unit per non-empty
    word, in the order of the words, with start times that never go down
    and every end time, rounded to milliseconds, at most the duration. *)
Theorem get_word_timestamps_shape (a : Audio) (text : string) :
  file_exists a = true ->
  transcription a = Some text ->
  split text <> [] ->
  1 < audio_duration a ->
  let out := get_word_timestamps a in
  List.length out
    = List.length (filter (fun w => negb (is_empty (strip w))) (split text)) /\
  map word_of out = split text /\
  non_decreasing_start out /\
  Forall (fun u => complete u /\ end_of u <= audio_duration a) out.
Proof.
  intros Hf Ht Hw Hd out. unfold out.
  rewrite (get_word_timestamps_loop a text Hf Ht Hw) by lra.
  rewrite (tokens_all_non_empty _ (split_tokens text)).
  split; [apply word_loop_length|].
  split; [apply word_loop_words, split_tokens|].
  set (d := audio_duration a) in *. set (ws := split text) in *.
  destruct (Nat.eq_dec (List.length ws) 1) as [E|NE].
  - destruct ws as [|w [|w' ws']]; try discriminate. simpl List.length.
    rewrite word_loop_single. split.
    + repeat constructor.
    + constructor; [|constructor]. split; [now eexists _, _, _|].
      unfold end_of. simpl.
      pose proof (round3_near (d - 0.5)) as [N _]. lra.
  - assert (Hn : (2 <= List.length ws)%nat).
    { destruct ws as [|w [|w' ws']]; simpl in *; try lia. now contradiction Hw. }
    split.
    + now apply word_loop_sorted.
    + apply Forall_forall. intros u Hu. split.
      * pose proof (word_loop_complete d (List.length ws) ws 0) as C.
        rewrite Forall_forall in C. now apply C.
      * pose proof (word_loop_ends d (List.length ws) Hd Hn ws 0 (le_n _)) as B.
        rewrite Forall_forall in B. now apply B.
Qed.

Lemma get_word_timestamps_shape_witness :
  file_exists hello_world = true /\
  transcription hello_world = Some "Hello world" /\
  split "Hello world" <> [] /\
  1 < audio_duration hello_world /\
  List.length (get_word_timestamps hello_world) = 2%nat /\
  non_decreasing_start (get_word_timestamps hello_world) /\
  Forall (fun u => complete u /\ end_of u <= 3) (get_word_timestamps hello_world).
Proof.
  assert (Hw : split "Hello world" <> []) by discriminate.
  assert (Hd : 1 < audio_duration hello_world) by reflexivity.
  destruct (get_word_timestamps_shape hello_world "Hello world"
              eq_refl eq_refl Hw Hd) as (Hlen & _ & Hsort & Hend).
  exact (conj eq_refl (conj eq_refl (conj Hw (conj Hd
          (conj Hlen (conj Hsort Hend)))))).
Defined.

(** C3, as amended.  For the transcript ["Hello world"] and a duration
    of three seconds the two units span [0.5, 1.5] and [1.55, 2.5]: each
    word gets half of the two usable seconds.  The synchronized entries
    are [("Hello", 500)] and [("world", 1550)]. *)
Theorem hello_world_timestamps :
  get_word_timestamps hello_world
    = [timed "Hello" (500 # 1000) (1500 # 1000);
       timed "world" (1550 # 1000) (2500 # 1000)] /\
  _create_sylt_data (get_word_timestamps hello_world)
    = [("Hello", 500%Z); ("world", 1550%Z)].
Proof. split; reflexivity. Qed.

(** C3 as stated fails: the first word does not end near 2.0, the second
    neither starts near 2.05 nor ends near 3.0, and its entry is not at
    2050 ms. *)
Lemma hello_world_not_as_stated :
  let out := get_word_timestamps hello_world in
  (forall u1 u2, out = [u1; u2] ->
     ~ (Qabs (end_of u1 - 2.0) <= 0.1) /\
     ~ (Qabs (start_of u2 - 2.05) <= 0.1) /\
     ~ (Qabs (end_of u2 - 3.0) <= 0.1)) /\
  _create_sylt_data out <> [("Hello", 500%Z); ("world", 2050%Z)].
Proof.
  split.
  - intros u1 u2 E.
    assert (T : get_word_timestamps hello_world
                = [timed "Hello" (500 # 1000) (1500 # 1000);
                   timed "world" (1550 # 1000) (2500 # 1000)]) by reflexivity.
    rewrite T in E. inversion E; subst.
    repeat split; intros H; vm_compute in H; apply H; reflexivity.
  - vm_compute. discriminate.
Qed.

End AllocateSpec.

(** ** merge_overlapping_timestamps *)

Module MergeFacts.
Import PyNum PyStr Model Utils PyStrFacts.
Local Open Scope string_scope.

Lemma join_cons sep w w' ws :
  join sep (w :: w' :: ws) = w ++ sep ++ join sep (w' :: ws).
Proof. reflexivity. Qed.

Lemma join_app sep (a b : list string) :
  a <> [] -> b <> [] ->
  join sep (a ++ b)%list = join sep a ++ sep ++ join sep b.
Proof.
  intros Ha Hb. induction a as [|w a IH]; [contradiction|].
  destruct a as [|w' a'].
  - destruct b as [|w' b']; [contradiction | reflexivity].
  - change ((w :: w' :: a') ++ b)%list with (w :: w' :: (a' ++ b)%list).
    rewrite !join_cons.
    change (w' :: (a' ++ b)%list) with ((w' :: a') ++ b)%list.
    rewrite IH by discriminate. now rewrite !append_assoc.
Qed.

Lemma concat_groups_nonempty g gs : word_group g -> List.concat (g :: gs) <> [].
Proof. intros [Hg _]. simpl. destruct g; [contradiction | discriminate]. Qed.

(** Joining the joined groups is joining all their words. *)
Lemma join_groups gs :
  Forall word_group gs -> join " " (map (join " ") gs) = join " " (List.concat gs).
Proof.
  induction 1 as [|g gs Hg Hgs IH]; [reflexivity|].
  destruct gs as [|g' gs'].
  - simpl. now rewrite app_nil_r.
  - change (map (join " ") (g :: g' :: gs'))
      with (join " " g :: join " " g' :: map (join " ") gs').
    rewrite join_cons.
    change (join " " g' :: map (join " ") gs') with (map (join " ") (g' :: gs')).
    rewrite IH. change (List.concat (g :: g' :: gs')) with (g ++ List.concat (g' :: gs'))%list.
    rewrite join_app; [reflexivity | apply Hg |].
    inversion Hgs; subst. now apply concat_groups_nonempty.
Qed.

Lemma concat_groups_tokens gs : Forall word_group gs -> Forall token (List.concat gs).
Proof.
  induction 1 as [|g gs [_ Hg] _ IH]; simpl; [constructor|].
  apply Forall_app. now split.
Qed.

Lemma split_groups gs :
  Forall word_group gs -> flat_map split (map (join " ") gs) = List.concat gs.
Proof.
  induction 1 as [|g gs [_ Hg] _ IH]; simpl; [reflexivity|].
  now rewrite (split_join g Hg), IH.
Qed.

Lemma words_of_group_complete g :
  Forall token_unit g -> words_of_group g = Some (map word_of g).
Proof.
  induction 1 as [|u g (w & s & e & -> & _) _ IH]; simpl; [reflexivity|].
  now rewrite IH.
Qed.

Lemma group_words g : g <> [] -> Forall token_unit g -> word_group (map word_of g).
Proof.
  intros Hne H. split.
  - destruct g; [contradiction | discriminate].
  - induction H as [|u g (w & s & e & -> & Hw) _ IH]; simpl; [constructor|].
    constructor; [exact Hw|]. destruct g; [constructor|]. apply IH. discriminate.
Qed.

Lemma last_item_token_unit g :
  g <> [] -> Forall token_unit g ->
  exists final, last_item g = Some final /\ token_unit final.
Proof.
  intros Hne H. destruct g as [|u g]; [contradiction|].
  simpl. eexists. split; [reflexivity|].
  inversion H as [|? ? Hu Hg]; subst. clear H Hne.
  revert u Hu. induction Hg as [|v g Hv _ IH]; intros u Hu; [exact Hu|].
  simpl. destruct g; [exact Hv|]. now apply IH.
Qed.

(** The unit appended for a group: its word joins the words of the
    group, its start is the start of the first member, its end the end
    of the last. *)
Lemma flush_group_spec g :
  g <> [] -> Forall token_unit g ->
  exists m h final,
    flush_group g = Some m /\ hd_error g = Some h /\ last_item g = Some final /\
    word_of m = join " " (map word_of g) /\
    start m = start h /\ end_ m = end_ final.
Proof.
  intros Hne H.
  destruct (last_item_token_unit g Hne H) as (final & Hl & (wf & sf & ef & -> & _)).
  destruct g as [|u g]; [contradiction|].
  inversion H as [|? ? (w & s & e & -> & _) Hg]; subst.
  destruct g as [|v g'].
  - simpl in Hl. inversion Hl; subst.
    eexists _, _, _. repeat split; reflexivity.
  - unfold flush_group. rewrite (words_of_group_complete _ H), Hl.
    simpl hd_error. cbv iota beta. simpl start. simpl end_. cbv iota.
    eexists _, _, _. repeat split; reflexivity.
Qed.

(** What is already merged only prefixes the result. *)
Lemma merge_loop_acc th rest : forall g merged,
  merge_loop rest g merged th
  = option_map (app merged) (merge_loop rest g [] th).
Proof.
  induction rest as [|w rest IH]; intros g merged; simpl.
  - now destruct (flush_group g).
  - destruct (last_item g) as [final|]; [|reflexivity].
    destruct (end_ final) as [last_end|]; [|reflexivity].
    destruct (start w) as [current_start|]; [|reflexivity].
    destruct (Qle_bool _ _); [apply IH|].
    destruct (flush_group g) as [m|]; [|reflexivity].
    rewrite (IH [w] (merged ++ [m])%list), (IH [w] [m]).
    destruct (merge_loop rest [w] [] th); simpl; [|reflexivity].
    now rewrite <- app_assoc.
Qed.

End MergeFacts.

(** ** The tag container and embed_sylt_lyrics *)

Module EmbedFacts.
Import PyNum PyStr Model Mutagen MP3Embedder PyNumFacts.
Local Open Scope string_scope.

(** *** Frames of one kind *)

Lemma getall_filter key (keep : Frame -> bool) (tags : ID3) :
  getall key (filter keep tags) = filter keep (getall key tags).
Proof.
  unfold getall. induction tags as [|f tags IH]; simpl; [reflexivity|].
  destruct (keep f) eqn:K, (String.eqb (FrameID f) key) eqn:E; simpl;
    rewrite ?K, ?E, IH; reflexivity.
Qed.

Lemma getall_delall key (tags : ID3) : getall key (delall key tags) = [].
Proof.
  unfold getall, delall. induction tags as [|f tags IH]; simpl; [reflexivity|].
  destruct (String.eqb (FrameID f) key) eqn:E; simpl; [exact IH|].
  now rewrite E.
Qed.

Lemma getall_app key (a b : ID3) :
  getall key (a ++ b)%list = (getall key a ++ getall key b)%list.
Proof. apply filter_app. Qed.

Lemma getall_add key (frame : Frame) (tags : ID3) :
  getall key (add frame tags)
  = (filter (fun f => negb (HashKey f =? HashKey frame)) (getall key tags)
     ++ getall key [frame])%list.
Proof. unfold add. now rewrite getall_app, getall_filter. Qed.

Lemma getall_delall_other key kind (tags : ID3) :
  getall key (delall kind tags)
  = filter (fun f => negb (FrameID f =? kind)) (getall key tags).
Proof. unfold delall. apply getall_filter. Qed.

(** After the two replacements the tag holds the new synchronized frame
    as its only [SYLT] frame and the new plain frame as its only [USLT]
    frame, whatever it held before. *)
Lemma embedded_tags_frames loaded sylt_data text :
  getall "SYLT" (embedded_tags loaded sylt_data text) = [sylt_frame sylt_data] /\
  getall "USLT" (embedded_tags loaded sylt_data text) = [uslt_frame text].
Proof.
  unfold embedded_tags.
  generalize (match loaded with Some tags => tags | None => [] end) as tags.
  intros tags. split.
  - rewrite getall_add, getall_delall_other, getall_add, getall_delall.
    reflexivity.
  - rewrite getall_add, getall_delall. reflexivity.
Qed.

(** Reading back a tag that holds one frame of each kind. *)
Lemma verify_embedded path tags s u :
  getall "SYLT" tags = [s] -> getall "USLT" tags = [u] ->
  verify_sylt_embedding path (Some (Mpeg (Some tags)))
  = {| has_sylt := true; has_uslt := true;
       sylt_entries := text_length s; error := None |}.
Proof.
  intros Hs Hu. unfold verify_sylt_embedding. simpl.
  destruct tags as [|f tags]; [discriminate|]. now rewrite Hs, Hu.
Qed.

(** *** Entries of the synchronized frame *)

Lemma create_sylt_data_filter units :
  _create_sylt_data units = map sylt_entry (filter kept units).
Proof.
  induction units as [|u units IH]; simpl; [reflexivity|].
  unfold kept at 1. destruct (is_empty _); simpl; now rewrite IH.
Qed.

(** *** All the ways a call can go *)

Ltac find_case :=
  match goal with
  | |- context [match ?x with _ => _ end] =>
      match x with
      | context [match _ with _ => _ end] => fail 1
      | _ => destruct x eqn:?
      end
  end.

Ltac in_log := simpl; repeat first [left; reflexivity | right].

Ltac not_in_log :=
  unfold success_message, skip_message, embed_failed_message, unexpected_message,
    conversion_failed_message;
  simpl; intros H; repeat (destruct H as [H|H]; [discriminate H|]); exact H.

Ltac ending :=
  first [ apply Embedded; reflexivity | apply Skipped; reflexivity
        | eapply EmbedFailed; reflexivity | eapply Unexpected; reflexivity ].

Ltac untouched :=
  cbn [disk];
  first [ left; congruence | right; left; congruence
        | right; right; eexists; split; [reflexivity | congruence] ].

Ltac embedded_case :=
  left; split; [in_log|]; split; [reflexivity|]; split; [discriminate|];
  split; [first [assumption | reflexivity]|];
  split; [first [assumption | reflexivity]|];
  split; [first [assumption | reflexivity]|];
  cbn [disk];
  first [ exists None;
          split; [first [left; reflexivity | right; reflexivity] | reflexivity]
        | eexists (Some _);
          split; [first [left; reflexivity | right; reflexivity] | reflexivity] ].

Ltac leaf :=
  split; [reflexivity|];
  split; [ending|];
  split; [first [embedded_case | right; split; [not_in_log | untouched]]|];
  intros; first [discriminate | congruence | in_log].

(** Whatever the surroundings do, a call returns the output path and
    its log.  Either the log holds the success line, and then nothing
    failed and the output file carries the tag with both frames replaced;
    or it does not, and then nothing of the tag was written. *)
Lemma embed_outcome env audio_path wts text output_filename before :
  let run := embed_sylt_lyrics env audio_path wts text output_filename before in
  fst run = Ok (path_join temp_dir output_filename, logs_of run) /\
  Ending (logs_of run) /\
  ((In success_message (logs_of run) /\
    last_message (logs_of run) = success_message /\
    _create_sylt_data wts <> [] /\
    frame_fault env "SYLT" = None /\ frame_fault env "USLT" = None /\
    save_fault env = None /\
    exists loaded,
      (Some (Mpeg loaded) = source env \/ ffmpeg env = Ok (Mpeg loaded)) /\
      output_of run
        = Some (Mpeg (Some (embedded_tags loaded (_create_sylt_data wts) text))))
   \/ (~ In success_message (logs_of run) /\
       not_tagged env before (output_of run))) /\
  (endswith (lower audio_path) ".mp3" = false -> ffmpeg_available env = true ->
   forall stderr message, ffmpeg env = Raise (CalledProcessError stderr message) ->
   In conversion_failed_message (logs_of run)).
Proof.
  unfold logs_of, output_of.
  unfold embed_sylt_lyrics, embed_steps, embed_frames, ensure_mp3, replace_frame,
    save, load_output, load, copy2, run_ffmpeg, try_except, bind, ret, raise,
    log_and_print, return_logs, embedded_tags, not_tagged.
  generalize (path_join temp_dir output_filename) as output_path.
  generalize (basename audio_path) as base.
  generalize (endswith (lower audio_path) ".mp3") as is_mp3.
  generalize (_create_sylt_data wts) as sd.
  intros sd is_mp3 base output_path.
  destruct is_mp3;
  cbn [log_messages disk app negb FrameID sylt_frame uslt_frame];
  repeat (cbn [log_messages disk app negb fst snd]; find_case);
  cbn [log_messages disk app negb fst snd];
  leaf.
Qed.

End EmbedFacts.

(** ** What embed_sylt_lyrics and _create_sylt_data guarantee *)

Module EmbedSpec.
Import PyNum PyStr Model Mutagen MP3Embedder Scenario PyNumFacts EmbedFacts.
Local Open Scope string_scope.

Lemma last_message_in logs :
  last_message logs <> EmptyString -> In (last_message logs) logs.
Proof.
  unfold last_message. induction logs as [|a logs IH]; intros H.
  - now contradiction H.
  - destruct logs as [|b logs]; [now left|]. right. apply IH. exact H.
Qed.

(** C10.  A call of [embed_sylt_lyrics] never raises: it returns the
    output path, the same whatever happens, together with its log.  The
    log either holds the success line or ends with the line that tells
    what went wrong: the warning that no entries could be created, the
    error of the embedding, or the unexpected error.  No entries, an
    input that cannot be loaded as audio, a frame that cannot be built or
    a failed save all exclude the success line, and a failed conversion
    is logged as such. *)
Theorem embed_sylt_lyrics_total env audio_path wts text output_filename before :
  let run := embed_sylt_lyrics env audio_path wts text output_filename before in
  fst run = Ok (path_join temp_dir output_filename, logs_of run) /\
  (In success_message (logs_of run) \/
   last_message (logs_of run) = skip_message \/
   (exists e, last_message (logs_of run) = embed_failed_message e) \/
   (exists e, last_message (logs_of run) = unexpected_message e)) /\
  (_create_sylt_data wts = [] \/
   ((forall loaded, source env <> Some (Mpeg loaded)) /\
    (forall loaded, ffmpeg env <> Ok (Mpeg loaded))) \/
   frame_fault env "SYLT" <> None \/ frame_fault env "USLT" <> None \/
   save_fault env <> None ->
   ~ In success_message (logs_of run)) /\
  (endswith (lower audio_path) ".mp3" = false -> ffmpeg_available env = true ->
   forall stderr message, ffmpeg env = Raise (CalledProcessError stderr message) ->
   In conversion_failed_message (logs_of run)).
Proof.
  intros run.
  destruct (embed_outcome env audio_path wts text output_filename before)
    as (Hret & Hend & Hcase & Hconv).
  fold run in Hret, Hend, Hcase, Hconv.
  split; [exact Hret|]. split; [|split; [|exact Hconv]].
  - destruct Hend as [H|H|e H|e H].
    + left. rewrite <- H. apply last_message_in. rewrite H. discriminate.
    + right; left. exact H.
    + right; right; left. now exists e.
    + right; right; right. now exists e.
  - intros Hfault Hin.
    destruct Hcase as [(_ & _ & Hsd & Hs & Hu & Hsave & loaded & Hload & _)|[Hno _]];
      [|now apply Hno].
    destruct Hfault as [F|[[F1 F2]|[F|[F|F]]]]; try contradiction.
    destruct Hload as [L|L]; [now apply (F1 loaded) | now apply (F2 loaded)].
Qed.

Lemma embed_sylt_lyrics_total_witness :
  let run := embed_sylt_lyrics (sylt_fails plain_song) "/in/song.mp3" hello_units
               "Hello world" "synced_song.mp3" None in
  frame_fault (sylt_fails plain_song) "SYLT" <> None /\
  fst run = Ok ("/tmp/audio_sync/synced_song.mp3", logs_of run) /\
  ~ In success_message (logs_of run).
Proof.
  intros run.
  assert (F : frame_fault (sylt_fails plain_song) "SYLT" <> None) by discriminate.
  destruct (embed_sylt_lyrics_total (sylt_fails plain_song) "/in/song.mp3" hello_units
              "Hello world" "synced_song.mp3" None) as (R & _ & N & _).
  exact (conj F (conj R (N (or_intror (or_intror (or_introl F)))))).
Defined.

(** C8.  When a call succeeds, the tag of the output file holds exactly
    one [SYLT] frame, the one just built from the word timestamps, and
    exactly one [USLT] frame, the one just built from the text, whatever
    frames of these kinds the file held before. *)
Theorem successful_embed_one_frame_each env audio_path wts text output_filename before :
  let run := embed_sylt_lyrics env audio_path wts text output_filename before in
  In success_message (logs_of run) ->
  exists tags,
    output_of run = Some (Mpeg (Some tags)) /\
    getall "SYLT" tags = [sylt_frame (_create_sylt_data wts)] /\
    getall "USLT" tags = [uslt_frame text] /\
    List.length (getall "SYLT" tags) = 1%nat /\
    List.length (getall "USLT" tags) = 1%nat.
Proof.
  intros run Hin.
  destruct (embed_outcome env audio_path wts text output_filename before)
    as (_ & _ & Hcase & _).
  fold run in Hcase.
  destruct Hcase as [(_ & _ & _ & _ & _ & _ & loaded & _ & Hout)|[Hno _]];
    [|contradiction].
  destruct (embedded_tags_frames loaded (_create_sylt_data wts) text) as [Hs Hu].
  eexists. split; [exact Hout|]. rewrite Hs, Hu. repeat split.
Qed.

Lemma successful_embed_one_frame_each_witness :
  let run := embed_sylt_lyrics (calm tagged_song) "/in/song.mp3" hello_units
               "Hello world" "synced_song.mp3" (Some tagged_song) in
  In success_message (logs_of run) /\
  exists tags,
    output_of run = Some (Mpeg (Some tags)) /\
    getall "SYLT" tags = [sylt_frame [("Hello", 500%Z); ("world", 1550%Z)]] /\
    getall "USLT" tags = [uslt_frame "Hello world"] /\
    List.length (getall "SYLT" tags) = 1%nat /\
    List.length (getall "USLT" tags) = 1%nat.
Proof.
  intros run.
  assert (H : In success_message (logs_of run)).
  { simpl. repeat first [left; reflexivity | right]. }
  exact (conj H (successful_embed_one_frame_each (calm tagged_song) "/in/song.mp3"
                   hello_units "Hello world" "synced_song.mp3" (Some tagged_song) H)).
Defined.

(** C1, as amended.  The plain lyrics are written together with the
    synchronized ones or not at all.  When a call succeeds the output
    holds the [USLT] frame with the given text and reading back reports
    both [has_uslt] and [has_sylt].  When no synchronized entries can be
    created, or a frame cannot be built, or the save fails, the success
    line is absent and nothing of the tag is written: the output file is
    what the copy or the conversion left, or what was there before. *)
Theorem uslt_embedded_with_sylt_only env audio_path wts text output_filename before :
  let run := embed_sylt_lyrics env audio_path wts text output_filename before in
  let output_path := path_join temp_dir output_filename in
  (In success_message (logs_of run) ->
   (exists tags,
      output_of run = Some (Mpeg (Some tags)) /\
      getall "USLT" tags = [uslt_frame text]) /\
   has_uslt (verify_sylt_embedding output_path (output_of run)) = true /\
   has_sylt (verify_sylt_embedding output_path (output_of run)) = true) /\
  (_create_sylt_data wts = [] \/ frame_fault env "SYLT" <> None \/
   frame_fault env "USLT" <> None \/ save_fault env <> None ->
   ~ In success_message (logs_of run) /\
   not_tagged env before (output_of run)).
Proof.
  intros run output_path.
  destruct (embed_outcome env audio_path wts text output_filename before)
    as (_ & _ & Hcase & _).
  fold run in Hcase. split.
  - intros Hin.
    destruct Hcase as [(_ & _ & _ & _ & _ & _ & loaded & _ & Hout)|[Hno _]];
      [|contradiction].
    destruct (embedded_tags_frames loaded (_create_sylt_data wts) text) as [Hs Hu].
    split; [eexists; split; [exact Hout | exact Hu]|].
    rewrite Hout, (verify_embedded _ _ _ _ Hs Hu). split; reflexivity.
  - intros Hfault.
    destruct Hcase as [(_ & _ & Hsd & Hs & Hu & Hsave & _)|Hno]; [|exact Hno].
    destruct Hfault as [F|[F|[F|F]]]; contradiction.
Qed.

Lemma uslt_embedded_with_sylt_only_witness :
  let run := embed_sylt_lyrics (calm plain_song) "/in/song.mp3" hello_units
               "Hello world" "synced_song.mp3" None in
  In success_message (logs_of run) /\
  has_uslt (verify_sylt_embedding "/tmp/audio_sync/synced_song.mp3" (output_of run)) = true /\
  has_sylt (verify_sylt_embedding "/tmp/audio_sync/synced_song.mp3" (output_of run)) = true.
Proof.
  intros run.
  assert (H : In success_message (logs_of run)).
  { simpl. repeat first [left; reflexivity | right]. }
  destruct (uslt_embedded_with_sylt_only (calm plain_song) "/in/song.mp3" hello_units
              "Hello world" "synced_song.mp3" None) as (S & _).
  exact (conj H (proj2 (S H))).
Defined.

(** C1 as stated fails.  With an empty list of word timestamps and a
    text that is not empty, the call returns before any frame is written:
    reading the output back reports no [USLT] frame.  The same holds when
    the synchronized frame cannot be built. *)
Lemma uslt_not_embedded_without_sylt :
  let text := "Hello world" in
  let path := "/tmp/audio_sync/synced_song.mp3" in
  let skipped := embed_sylt_lyrics (calm plain_song) "/in/song.mp3" []
                   text "synced_song.mp3" None in
  let failed := embed_sylt_lyrics (sylt_fails plain_song) "/in/song.mp3" hello_units
                  text "synced_song.mp3" None in
  text <> EmptyString /\
  fst skipped = Ok (path, logs_of skipped) /\
  last_message (logs_of skipped) = skip_message /\
  output_of skipped = Some plain_song /\
  has_uslt (verify_sylt_embedding path (output_of skipped)) = false /\
  fst failed = Ok (path, logs_of failed) /\
  last_message (logs_of failed) = embed_failed_message (Exception "bad frame") /\
  has_uslt (verify_sylt_embedding path (output_of failed)) = false.
Proof.
  repeat split; try reflexivity. discriminate.
Qed.

End EmbedSpec.

(** ** create_sentence_timestamps *)

Module SentenceFacts.
Import PyNum PyStr Model Utils Sentences.
Local Open Scope string_scope.

Lemma sentence_loop_acc m rest : forall cur acc,
  sentence_loop m rest cur acc = (acc ++ sentence_loop m rest cur [])%list.
Proof.
  induction rest as [|w rest IH]; intros cur acc; simpl.
  - destruct (sentence_data cur); simpl; [reflexivity | now rewrite app_nil_r].
  - destruct (_ || _).
    + destruct (sentence_data (cur ++ [w])%list) as [s|]; [|apply IH].
      rewrite (IH [] (acc ++ [s])%list), (IH [] [s]).
      now rewrite <- app_assoc.
    + apply IH.
Qed.

Lemma sentence_data_some cur w :
  exists s, sentence_data (cur ++ [w])%list = Some s /\
            sentence_words s = (cur ++ [w])%list.
Proof.
  destruct cur as [|c cur]; simpl; eexists; split; reflexivity.
Qed.

Lemma sentence_data_words cur s :
  sentence_data cur = Some s -> sentence_words s = cur /\ cur <> [].
Proof.
  destruct cur as [|c cur]; simpl; [discriminate|].
  intros H. inversion H; subst. simpl. split; [reflexivity | discriminate].
Qed.

Lemma Forall_removelast {A : Type} (P : A -> Prop) (l : list A) :
  Forall P l -> Forall P (removelast l).
Proof.
  induction 1 as [|x l Hx Hl IH]; simpl; [constructor|].
  destruct l; [constructor | now constructor].
Qed.

Lemma Forall_removelast_cons {A : Type} (P : A -> Prop) (x : A) (l : list A) :
  P x -> Forall P (removelast l) -> Forall P (removelast (x :: l)).
Proof.
  intros Hx Hl. simpl. destruct l; [constructor | now constructor].
Qed.

Lemma last_item_app {A : Type} (l : list A) (x : A) :
  last_item (l ++ [x])%list = Some x.
Proof.
  destruct l as [|y l]; [reflexivity|]. simpl last_item. f_equal.
  destruct l as [|z l]; [reflexivity|].
  change (last ((z :: l) ++ [x])%list y = x). apply last_last.
Qed.

(** What the loop returns from a current sentence that is still open
    and below the limit. *)
Lemma sentence_loop_spec m rest : forall cur,
  open_words cur -> (Z.of_nat (List.length cur) < line_limit m)%Z ->
  let out := sentence_loop m rest cur [] in
  flat_map sentence_words out = (cur ++ rest)%list /\
  Forall (fun s => well_formed s /\ sentence_words s <> [] /\
                   (Z.of_nat (List.length (sentence_words s)) <= line_limit m)%Z /\
                   open_words (removelast (sentence_words s))) out /\
  Forall (closed m) (removelast out).
Proof.
  unfold line_limit.
  induction rest as [|w rest IH]; intros cur Hopen Hlen; simpl.
  - destruct (sentence_data cur) as [s|] eqn:E.
    + destruct (sentence_data_words _ _ E) as [Ew Hne]. simpl.
      rewrite Ew, !app_nil_r. split; [reflexivity|]. split; [|constructor].
      constructor; [|constructor]. unfold well_formed. rewrite Ew.
      repeat split; try assumption; try lia. now apply Forall_removelast.
    + destruct cur; [|discriminate]. simpl. repeat split; constructor.
  - destruct (sentence_data_some cur w) as (s & Es & Ew). rewrite Es.
    assert (Hlen' : List.length (cur ++ [w])%list = S (List.length cur)).
    { rewrite length_app. simpl. lia. }
    destruct (_ || _) eqn:C.
    + rewrite sentence_loop_acc.
      destruct (IH []) as (Hf & Hs & Hc); [constructor | simpl; lia |].
      simpl in Hf. simpl. rewrite Hf, Ew, <- app_assoc.
      split; [reflexivity|]. split.
      * constructor; [|exact Hs]. unfold well_formed. rewrite Ew.
        repeat split; try assumption.
        -- now destruct cur.
        -- rewrite Hlen'. lia.
        -- now rewrite removelast_last.
      * apply Forall_removelast_cons; [|exact Hc].
        unfold closed. rewrite Ew. apply orb_prop in C as [C|C].
        -- left. apply Z.geb_le in C. lia.
        -- right. exists w. split; [apply last_item_app | exact C].
    + apply orb_false_elim in C as [C1 C2].
      destruct (IH (cur ++ [w])%list) as (Hf & Hs & Hc).
      * apply Forall_app. split; [exact Hopen | now constructor].
      * rewrite Z.geb_leb in C1. apply Z.leb_gt in C1. lia.
      * rewrite <- app_assoc in Hf. now repeat split.
Qed.

End SentenceFacts.

(** ** What create_sentence_timestamps keeps *)

Module SentenceSpec.
Import PyNum PyStr Model Utils Sentences SentenceFacts.
Local Open Scope string_scope.

Lemma create_sentence_timestamps_loop wts m :
  create_sentence_timestamps wts m = sentence_loop m wts [] [].
Proof. now destruct wts. Qed.

(** X1.  The sentences of [create_sentence_timestamps] hold the input
    words, each once and in the input order: putting the ['words'] of
    all sentences one after the other gives the input list back. *)
Theorem sentences_keep_all_words (wts : list WordData) (m : Z) :
  flat_map sentence_words (create_sentence_timestamps wts m) = wts.
Proof.
  rewrite create_sentence_timestamps_loop.
  destruct (sentence_loop_spec m wts []) as (H & _).
  - constructor.
  - unfold line_limit. simpl. lia.
  - exact H.
Qed.

(** X2.  Every sentence holds at least one word and at most
    [max_words_per_line] words (one word when that maximum is below
    one); its text is the trimmed blank-joined words, its start the
    start of its first word and its end the end of its last word. *)
Theorem sentences_are_bounded_lines (wts : list WordData) (m : Z) :
  Forall (fun s =>
            sentence_words s <> [] /\
            (Z.of_nat (List.length (sentence_words s)) <= line_limit m)%Z /\
            sentence_text s
              = strip (join " " (map (fun w => get (word w) EmptyString)
                                     (sentence_words s))) /\
            (exists first final,
               hd_error (sentence_words s) = Some first /\
               last_item (sentence_words s) = Some final /\
               sentence_start s = get (start first) 0 /\
               sentence_end s = get (end_ final) 0))
         (create_sentence_timestamps wts m).
Proof.
  rewrite create_sentence_timestamps_loop.
  destruct (sentence_loop_spec m wts []) as (_ & H & _).
  - constructor.
  - unfold line_limit. simpl. lia.
  - eapply Forall_impl; [|exact H]. intros s (Hw & Hne & Hlen & _).
    split; [exact Hne|]. split; [exact Hlen|].
    unfold well_formed in Hw. remember (sentence_words s) as ws eqn:E.
    destruct ws as [|f r]; [discriminate|].
    simpl in Hw. inversion Hw as [Hs]. simpl.
    split; [reflexivity|]. exists f, (last r f). repeat split.
    now destruct r.
Qed.

(** X3.  A word that ends in [.], [!] or [?] is always the last word of
    its sentence, and every sentence but the last one was closed: it is
    full or its last word ends in one of these marks. *)
Theorem sentences_break_at_marks (wts : list WordData) (m : Z) :
  Forall (fun s => open_words (removelast (sentence_words s)))
         (create_sentence_timestamps wts m) /\
  Forall (closed m) (removelast (create_sentence_timestamps wts m)).
Proof.
  rewrite create_sentence_timestamps_loop.
  destruct (sentence_loop_spec m wts []) as (_ & H & Hc).
  - constructor.
  - unfold line_limit. simpl. lia.
  - split; [|exact Hc]. eapply Forall_impl; [|exact H]. now intros s (_ & _ & _ & Ho).
Qed.

End SentenceSpec.

(** ** Lines of a fixed number of words *)

Module RunFacts.
Import PyNum PyStr Model Utils Mutagen MP3Embedder Exports PyStrFacts MergeFacts.
Local Open Scope string_scope.

Lemma div_one_run (k size : nat) :
  (1 <= k <= size)%nat -> ((k + size - 1) / size = 1)%nat.
Proof.
  intros H. symmetry. apply (Nat.div_unique _ _ 1 (k - 1))%nat; lia.
Qed.

Lemma div_next_run (k size : nat) :
  (1 <= size)%nat -> ((size + k + size - 1) / size = S ((k + size - 1) / size))%nat.
Proof.
  intros H. replace (size + k + size - 1)%nat with (1 * size + (k + size - 1))%nat by lia.
  rewrite Nat.div_add_l by lia. lia.
Qed.

(** The runs hold the elements in order, are full but for the last, and
    their number is the number of elements over the size, rounded up. *)
Lemma chunk_from_spec {A : Type} (size : nat) (l : list A) : forall current,
  (1 <= size)%nat -> (List.length current < size)%nat ->
  List.concat (chunk_from size current l) = (current ++ l)%list /\
  full_runs size (chunk_from size current l) /\
  List.length (chunk_from size current l)
    = ((List.length current + List.length l + size - 1) / size)%nat.
Proof.
  unfold full_runs.
  induction l as [|x l IH]; intros current Hs Hc; cbn [chunk_from].
  - destruct current as [|c current].
    + cbn [List.concat app removelast]. repeat split; try constructor.
      symmetry. apply Nat.div_small. simpl. lia.
    + cbn [List.concat removelast]. rewrite !app_nil_r.
      split; [reflexivity|]. split.
      * split; [|constructor]. constructor; [|constructor].
        cbn [List.length] in *. lia.
      * cbn [List.length] in *.
        apply (Nat.div_unique _ _ 1 (List.length current)); lia.
  - assert (Hlen : List.length (current ++ [x])%list = S (List.length current)).
    { rewrite length_app. simpl. lia. }
    destruct (Nat.leb_spec size (List.length (current ++ [x])%list)) as [Hfull|Hopen].
    + destruct (IH [] Hs) as (Hcat & [Hall Hinit] & Hnum); [simpl; lia|].
      cbn [List.concat]. rewrite Hcat, <- app_assoc. split; [reflexivity|]. split.
      * split.
        -- constructor; [lia | exact Hall].
        -- cbn [removelast]. destruct (chunk_from size [] l); [constructor|].
           constructor; [lia | exact Hinit].
      * cbn [List.length]. rewrite Hnum. cbn [List.length].
        rewrite <- div_next_run by exact Hs. f_equal. lia.
    + destruct (IH (current ++ [x])%list Hs Hopen) as (Hcat & Hruns & Hnum).
      rewrite <- app_assoc in Hcat.
      split; [exact Hcat|]. split; [exact Hruns|].
      rewrite Hnum, Hlen. cbn [List.length]. f_equal. lia.
Qed.

Lemma lrc_loop_chunks rest : forall current lines,
  lrc_loop rest current lines
  = (lines ++ flat_map lrc_line (chunk_from 8 current rest))%list.
Proof.
  induction rest as [|w rest IH]; intros current lines;
    cbn [lrc_loop chunk_from].
  - destruct current; cbn [flat_map]; [reflexivity | now rewrite app_nil_r].
  - destruct (8 <=? List.length (current ++ [w])%list)%nat; [|apply IH].
    destruct (current ++ [w])%list as [|c r] eqn:E; [now destruct current|].
    rewrite IH. cbn [flat_map]. now rewrite <- app_assoc.
Qed.

Lemma line_loop_chunks m rest : forall current entries,
  line_loop m rest current entries
  = (entries ++ flat_map line_entry
                  (chunk_from (Z.to_nat (Z.max 1 m)) current rest))%list.
Proof.
  induction rest as [|w rest IH]; intros current entries;
    cbn [line_loop chunk_from].
  - destruct current; cbn [flat_map]; [reflexivity | now rewrite app_nil_r].
  - assert (T : (Z.of_nat (List.length (current ++ [w])%list) >=? m)%Z
                = (Z.to_nat (Z.max 1 m) <=? List.length (current ++ [w])%list)%nat).
    { assert (1 <= List.length (current ++ [w])%list)%nat
        by (rewrite length_app; simpl; lia).
      rewrite Z.geb_leb.
      destruct (Z.leb_spec m (Z.of_nat (List.length (current ++ [w])%list)));
      destruct (Nat.leb_spec (Z.to_nat (Z.max 1 m))
                             (List.length (current ++ [w])%list)); lia. }
    rewrite T. destruct (_ <=? _)%nat; [|apply IH].
    destruct (current ++ [w])%list as [|c r] eqn:E; [now destruct current|].
    rewrite IH. cbn [flat_map]. now rewrite <- app_assoc.
Qed.

Lemma flat_map_lrc_line_length runs :
  Forall (fun g : list WordData => (1 <= List.length g <= 8)%nat) runs ->
  List.length (flat_map lrc_line runs) = List.length runs.
Proof.
  induction 1 as [|g runs Hg _ IH]; simpl; [reflexivity|].
  rewrite length_app, IH. destruct g; simpl in *; [lia | reflexivity].
Qed.

(** *** Lines of tokens *)

Lemma rstrip_append a b :
  rstrip b = b -> b <> EmptyString -> rstrip (a ++ b) = a ++ b.
Proof.
  intros Hb Hne. induction a as [|c a IH]; simpl; [exact Hb|].
  rewrite IH. destruct (a ++ b) eqn:E; [|reflexivity].
  destruct a; simpl in E; [contradiction | discriminate].
Qed.

Lemma join_tokens_nonempty ws :
  ws <> [] -> Forall token ws -> join " " ws <> EmptyString.
Proof.
  intros Hne H. destruct ws as [|w ws]; [contradiction|].
  inversion H as [|? ? [Hw _] _]; subst.
  destruct ws; simpl; [exact Hw|]. destruct w; [contradiction | discriminate].
Qed.

Lemma rstrip_join_tokens ws : Forall token ws -> rstrip (join " " ws) = join " " ws.
Proof.
  induction 1 as [|w ws [Hne Hns] Hws IH]; [reflexivity|].
  destruct ws as [|w' ws'].
  - simpl. now apply rstrip_no_space.
  - rewrite join_cons. apply rstrip_append.
    + apply (rstrip_append " "); [exact IH|].
      apply join_tokens_nonempty; [discriminate | exact Hws].
    + discriminate.
Qed.

(** Blank-joined tokens have nothing to trim. *)
Lemma strip_join_tokens ws : Forall token ws -> strip (join " " ws) = join " " ws.
Proof.
  intros H. unfold strip. rewrite lstrip_of_clean; [now apply rstrip_join_tokens|].
  destruct ws as [|w ws]; [exact I|].
  inversion H as [|? ? [Hne Hns] _]; subst.
  assert (Hw : starts_clean w).
  { destruct w as [|c r]; [exact I|]. simpl in *.
    apply andb_prop in Hns as [Hc _]. now apply negb_true_iff in Hc. }
  destruct ws; simpl; [exact Hw|]. destruct w; [contradiction | exact Hw].
Qed.

Lemma line_words_tokens g :
  Forall token_unit g -> line_words g = map word_of g /\ Forall token (map word_of g).
Proof.
  induction 1 as [|u g (w & s & e & -> & Hw) _ [IH1 IH2]]; simpl; [now split|].
  rewrite IH1. split; [reflexivity | now constructor].
Qed.

Lemma concat_Forall {A : Type} (P : A -> Prop) (runs : list (list A)) :
  Forall P (List.concat runs) -> Forall (Forall P) runs.
Proof.
  induction runs as [|g runs IH]; simpl; intros H; [constructor|].
  apply Forall_app in H as [Hg Hr]. constructor; [exact Hg | now apply IH].
Qed.

(** On runs of token units every run gives its entry, and the entries
    split back into the words. *)
Lemma line_entries_of_tokens runs :
  Forall (fun g : list WordData => g <> []) runs ->
  Forall (Forall token_unit) runs ->
  List.length (flat_map line_entry runs) = List.length runs /\
  flat_map (fun entry => split (fst entry)) (flat_map line_entry runs)
  = map word_of (List.concat runs).
Proof.
  induction 1 as [|g runs Hg _ IH]; intros Ht; [now split|].
  inversion Ht as [|? ? Hgt Hrt]; subst.
  destruct (IH Hrt) as [IHl IHw].
  destruct (line_words_tokens g Hgt) as [Ew Tw].
  assert (E : line_entry g
              = [(join " " (map word_of g),
                  py_int (get (start (hd (timed EmptyString 0 0) g)) 0%Q * 1000))]).
  { destruct g as [|f r]; [contradiction|]. unfold line_entry.
    rewrite Ew, (strip_join_tokens _ Tw).
    destruct (join " " (map word_of (f :: r))) eqn:J; [|reflexivity].
    exfalso. revert J. apply join_tokens_nonempty; [discriminate | exact Tw]. }
  simpl flat_map. rewrite E. simpl. rewrite IHl, IHw, map_app.
  split; [reflexivity|]. now rewrite (split_join _ Tw).
Qed.

End RunFacts.

(** ** What the line-based exports keep *)

Module ExportSpec.
Import PyNum PyStr Model Utils Mutagen MP3Embedder Exports Scenario.
Import PyNumFacts PyStrFacts MergeFacts EmbedFacts RunFacts.
Local Open Scope string_scope.

(** X4.  [create_lrc_file] puts the words on lines of eight: the input
    is cut, in order and without loss, into runs of exactly eight words
    followed by one shorter run when words are left over, every run
    gives one line (the time stamp of the first word of the run followed
    by its blank-joined words), and the number of lines is the number of
    words divided by eight, rounded up. *)
Theorem lrc_lines_of_eight_words (wts : list WordData) :
  exists runs,
    List.concat runs = wts /\ full_runs 8 runs /\
    lrc_lines_of wts = flat_map lrc_line runs /\
    List.length (lrc_lines_of wts) = ((List.length wts + 7) / 8)%nat.
Proof.
  exists (chunk_from 8 [] wts).
  destruct (chunk_from_spec 8 wts []) as (Hcat & Hruns & Hnum); [lia | simpl; lia |].
  unfold lrc_lines_of. rewrite lrc_loop_chunks. simpl app.
  split; [exact Hcat|]. split; [exact Hruns|]. split; [reflexivity|].
  rewrite flat_map_lrc_line_length by apply Hruns.
  rewrite Hnum. cbn [List.length]. f_equal. lia.
Qed.

(** X5.  [_create_line_based_sylt_data] cuts the input, in order and
    without loss, into runs of [max_words_per_line] words (one word when
    that maximum is below one), the last run being what is left, and
    emits for each run the entry of that run; a run whose joined text
    trims to nothing gives no entry. *)
Theorem line_based_sylt_runs (wts : list WordData) (m : Z) :
  exists runs,
    List.concat runs = wts /\ full_runs (Z.to_nat (Z.max 1 m)) runs /\
    _create_line_based_sylt_data wts m = flat_map line_entry runs.
Proof.
  exists (chunk_from (Z.to_nat (Z.max 1 m)) [] wts).
  destruct (chunk_from_spec (Z.to_nat (Z.max 1 m)) wts [])
    as (Hcat & Hruns & _); [lia | simpl; lia |].
  unfold _create_line_based_sylt_data. rewrite line_loop_chunks.
  split; [exact Hcat|]. split; [exact Hruns | reflexivity].
Qed.

(** X6.  On units whose words are single tokens no line is lost: the
    number of entries of [_create_line_based_sylt_data] is the number of
    words divided by the line size, rounded up, and splitting the texts
    of the entries on whitespace gives back the input words in order. *)
Theorem line_based_sylt_keeps_tokens (wts : list WordData) (m : Z) :
  Forall token_unit wts ->
  let size := Z.to_nat (Z.max 1 m) in
  let out := _create_line_based_sylt_data wts m in
  List.length out = ((List.length wts + size - 1) / size)%nat /\
  flat_map (fun entry => split (fst entry)) out = map word_of wts.
Proof.
  intros Ht size out. unfold out, _create_line_based_sylt_data.
  rewrite line_loop_chunks. simpl app.
  destruct (chunk_from_spec size wts []) as (Hcat & [Hall _] & Hnum);
    [unfold size; lia | simpl; unfold size; lia |].
  fold size.
  destruct (line_entries_of_tokens (chunk_from size [] wts)) as [Hl Hw].
  - eapply Forall_impl; [|exact Hall]. intros g Hg. destruct g; simpl in *; [lia | discriminate].
  - apply concat_Forall. now rewrite Hcat.
  - rewrite Hl, Hw, Hcat, Hnum. split; [|reflexivity]. cbn [List.length]. f_equal.
Qed.

Lemma line_based_sylt_keeps_tokens_witness :
  let wts := [timed "a" 0 1; timed "b" 1 2; timed "c" 2 3] in
  Forall token_unit wts /\
  List.length (_create_line_based_sylt_data wts 2) = 2%nat /\
  flat_map (fun entry => split (fst entry)) (_create_line_based_sylt_data wts 2)
  = ["a"; "b"; "c"].
Proof.
  intros wts.
  assert (H : Forall token_unit wts).
  { apply Forall_cons; [eexists _, _, _; split; [reflexivity | split; [discriminate | reflexivity]]|].
    apply Forall_cons; [eexists _, _, _; split; [reflexivity | split; [discriminate | reflexivity]]|].
    apply Forall_cons; [eexists _, _, _; split; [reflexivity | split; [discriminate | reflexivity]]|].
    apply Forall_nil. }
  exact (conj H (line_based_sylt_keeps_tokens wts 2 H)).
Defined.

End ExportSpec.

(** ** Reading the embedded lyrics back *)

Module ReadBackFacts.
Import PyNum PyStr Model Mutagen MP3Embedder Exports Scenario Shapes.
Import PyNumFacts EmbedFacts.
Local Open Scope string_scope.

Lemma extract_embedded path tags entries :
  getall "SYLT" tags = [sylt_frame entries] ->
  extract_sylt_lyrics path (Some (Mpeg (Some tags))) = map lyric_of entries.
Proof.
  intros H. unfold extract_sylt_lyrics. simpl.
  destruct tags as [|f tags]; [discriminate|].
  rewrite H. simpl. apply app_nil_r.
Qed.

End ReadBackFacts.

(** ** Reading the frames back *)

Module ReadBackSpec.
Import PyNum PyStr Model Mutagen MP3Embedder Exports Scenario Shapes.
Import PyNumFacts EmbedFacts ReadBackFacts.
Local Open Scope string_scope.

(** X7.  After a successful call of [embed_sylt_lyrics] the output file
    reads back as written: [extract_sylt_lyrics] returns one entry per
    entry of [_create_sylt_data], with the same text and the offset
    turned into seconds, and [verify_sylt_embedding] reports both frames,
    the number of these entries and no error. *)
Theorem read_back_after_embed env audio_path wts text output_filename before :
  let run := embed_sylt_lyrics env audio_path wts text output_filename before in
  let path := path_join temp_dir output_filename in
  In success_message (logs_of run) ->
  extract_sylt_lyrics path (output_of run)
    = map lyric_of (_create_sylt_data wts) /\
  verify_sylt_embedding path (output_of run)
    = {| has_sylt := true; has_uslt := true;
         sylt_entries := List.length (_create_sylt_data wts); error := None |}.
Proof.
  intros run path Hin.
  destruct (embed_outcome env audio_path wts text output_filename before)
    as (_ & _ & Hcase & _).
  fold run in Hcase.
  destruct Hcase as [(_ & _ & _ & _ & _ & _ & loaded & _ & Hout)|[Hno _]];
    [|contradiction].
  destruct (embedded_tags_frames loaded (_create_sylt_data wts) text) as [Hs Hu].
  rewrite Hout. split.
  - now apply extract_embedded.
  - now rewrite (verify_embedded _ _ _ _ Hs Hu).
Qed.

Lemma read_back_after_embed_witness :
  let run := embed_sylt_lyrics (calm tagged_song) "/in/song.mp3" hello_units
               "Hello world" "synced_song.mp3" None in
  In success_message (logs_of run) /\
  extract_sylt_lyrics "/tmp/audio_sync/synced_song.mp3" (output_of run)
    = [mkLyric "Hello" (inject_Z 500 / 1000); mkLyric "world" (inject_Z 1550 / 1000)] /\
  sylt_entries (verify_sylt_embedding "/tmp/audio_sync/synced_song.mp3" (output_of run))
    = 2%nat.
Proof.
  intros run.
  assert (H : In success_message (logs_of run)).
  { simpl. repeat first [left; reflexivity | right]. }
  destruct (read_back_after_embed (calm tagged_song) "/in/song.mp3" hello_units
              "Hello world" "synced_song.mp3" None H) as [E V].
  refine (conj H (conj E _)). fold run in V.
  change (path_join temp_dir "synced_song.mp3")
    with "/tmp/audio_sync/synced_song.mp3" in V.
  rewrite V. reflexivity.
Defined.

End ReadBackSpec.

(** ** The validator of utils.py *)

Module UtilsValidateSpec.
Import PyNum PyStr Model AudioProcessor UtilsValidate Shapes.
Import PyNumFacts PyStrFacts ValidateFacts.
Local Open Scope string_scope.

Lemma validated_entry_agrees d u :
  complete u -> end_of u <= d ->
  validated_entry u
  = if is_empty (word_of (validate_word d u)) then None
    else Some (validate_word d u).
Proof.
  intros (w & s & e & ->) He. unfold end_of in He. simpl in He.
  rewrite validate_word_fields. unfold validated_entry, word_of. simpl.
  destruct (is_empty (strip w)); [reflexivity|].
  set (s' := if Qlt_le_dec s 0 then 0 else s).
  assert (Es : s' == clamped_start (timed w s e)).
  { unfold s', clamped_start, py_max. simpl.
    destruct (Qlt_le_dec s 0), (Qlt_le_dec 0 s); lra. }
  assert (Ee : e == clamped_end d (timed w s e)).
  { unfold clamped_end, py_min. simpl. destruct (Qlt_le_dec e d); lra. }
  assert (Er : (if Qle_bool e s' then s' + 0.1 else e) == repaired_end d (timed w s e)).
  { unfold repaired_end.
    destruct (Qle_bool e s') eqn:B1,
             (Qle_bool (clamped_end d (timed w s e)) (clamped_start (timed w s e))) eqn:B2.
    - now rewrite Es.
    - apply Qle_bool_iff in B1.
      assert (B : clamped_end d (timed w s e) <= clamped_start (timed w s e)) by lra.
      apply Qle_bool_iff in B. congruence.
    - apply Qle_bool_iff in B2.
      assert (B : e <= s') by lra. apply Qle_bool_iff in B. congruence.
    - exact Ee. }
  assert (R1 : round3 s' = round3 (clamped_start (timed w s e))) by now rewrite Es.
  assert (R2 : round3 (if Qle_bool e s' then s' + 0.1 else e)
               = round3 (repaired_end d (timed w s e))) by now rewrite Er.
  now rewrite R1, R2.
Qed.

(** X9.  The two validators agree where the duration does not matter:
    on units that carry all three keys and end within the duration,
    [validate_word_timestamps] of [utils.py] returns exactly what
    [validate_timestamps] of the audio processor returns. *)
Theorem validators_agree (x : list WordData) (d : Q) :
  Forall (fun u => complete u /\ end_of u <= d) x ->
  validate_word_timestamps x = validate_timestamps x d.
Proof.
  induction 1 as [|u x [Hc He] _ IH]; simpl; [reflexivity|].
  rewrite (validated_entry_agrees d u Hc He), IH.
  now destruct (is_empty _).
Qed.

Lemma validators_agree_witness :
  let x := [timed " a " (-1) 2; timed "b" 2 1; timed "  " 0 1] in
  Forall (fun u => complete u /\ end_of u <= 3) x /\
  validate_word_timestamps x = validate_timestamps x 3.
Proof.
  intros x.
  assert (H : Forall (fun u => complete u /\ end_of u <= 3) x).
  { apply Forall_cons; [split; [now eexists _, _, _ | vm_compute; discriminate]|].
    apply Forall_cons; [split; [now eexists _, _, _ | vm_compute; discriminate]|].
    apply Forall_cons; [split; [now eexists _, _, _ | vm_compute; discriminate]|].
    apply Forall_nil. }
  exact (conj H (validators_agree x 3 H)).
Defined.

Lemma validated_entry_tidy u v : validated_entry u = Some v -> tidy v.
Proof.
  unfold validated_entry.
  destruct (is_empty (strip (get (word u) EmptyString))) eqn:W; [discriminate|].
  intros H. inversion H; subst. clear H.
  set (s := if Qlt_le_dec (get (start u) 0) 0 then 0 else get (start u) 0).
  assert (Hs : 0 <= s) by (unfold s; destruct (Qlt_le_dec _ 0); lra).
  eexists _, _, _. split; [reflexivity|]. split; [apply strip_idem|].
  split; [exact W|]. split; [now apply round3_nonneg|].
  apply round3_mono. destruct (Qle_bool _ s) eqn:B; [lra|].
  destruct (Qlt_le_dec s (get (end_ u) 0)) as [L|L]; [lra|].
  apply Qle_bool_iff in L. congruence.
Qed.

(** X10.  Every unit that [validate_word_timestamps] returns carries all
    three keys, a trimmed word that is not empty, a start that is not
    negative and an end that is not before the start; units without a
    word are dropped and the others keep their order, so the trimmed
    words of the output are the non-empty trimmed words of the input. *)
Theorem validate_word_timestamps_tidy (x : list WordData) :
  Forall tidy (validate_word_timestamps x) /\
  map word_of (validate_word_timestamps x)
  = filter (fun w => negb (is_empty w))
           (map (fun u => strip (get (word u) EmptyString)) x).
Proof.
  induction x as [|u x [IH1 IH2]]; simpl; [split; [constructor | reflexivity]|].
  destruct (validated_entry u) as [v|] eqn:E.
  - split; [constructor; [now apply (validated_entry_tidy u) | exact IH1]|].
    unfold validated_entry in E.
    destruct (is_empty (strip (get (word u) EmptyString))) eqn:W; [discriminate|].
    inversion E; subst. simpl. now rewrite IH2.
  - split; [exact IH1|]. unfold validated_entry in E.
    destruct (is_empty (strip (get (word u) EmptyString))) eqn:W; [|discriminate].
    exact IH2.
Qed.

End UtilsValidateSpec.

(** ** merge_overlapping_timestamps: runs and errors *)

Module MergeRunFacts.
Import PyNum PyStr Model Utils Runs MergeFacts SentenceFacts.
Local Open Scope string_scope.

Lemma words_of_group_all g :
  Forall complete g -> words_of_group g = Some (map word_of g).
Proof.
  induction 1 as [|u g (w & s & e & ->) _ IH]; simpl; [reflexivity|].
  now rewrite IH.
Qed.

Lemma last_item_complete g :
  g <> [] -> Forall complete g ->
  exists final, last_item g = Some final /\ complete final.
Proof.
  intros Hne H. destruct g as [|u g]; [contradiction|].
  simpl. eexists. split; [reflexivity|].
  inversion H as [|? ? Hu Hg]; subst. clear H Hne.
  revert u Hu. induction Hg as [|v g Hv _ IH]; intros u Hu; [exact Hu|].
  simpl. destruct g; [exact Hv|]. now apply IH.
Qed.

Lemma flush_group_complete g :
  g <> [] -> Forall complete g -> exists m, spans g m /\ complete m.
Proof.
  intros Hne H.
  destruct (last_item_complete g Hne H) as (final & Hl & Hfc).
  destruct g as [|u g]; [contradiction|].
  assert (Hu : complete u) by now inversion H.
  destruct g as [|v g'].
  - exists u. split; [|exact Hu]. split; [reflexivity|].
    exists u, u. repeat split.
  - destruct Hu as (w & s & e & Eu). destruct Hfc as (wf & sf & ef & Ef).
    exists (timed (join " " (map word_of (u :: v :: g'))) s ef).
    split; [|now eexists _, _, _]. split.
    + unfold flush_group. rewrite (words_of_group_all _ H), Hl.
      cbn [hd_error]. now rewrite Eu, Ef.
    + exists u, final. rewrite Eu, Ef. repeat split.
      now rewrite <- Eu, <- Ef.
Qed.

Lemma last_item_tail {A : Type} (a b : A) (l : list A) :
  last_item (a :: b :: l) = last_item (b :: l).
Proof.
  cbn [last_item]. f_equal. revert a b.
  induction l as [|c l IH]; intros a b; [reflexivity|].
  change (last (b :: c :: l) a) with (last (c :: l) a).
  now rewrite (IH a c), (IH b c).
Qed.

Lemma merge_loop_apart th rest : forall u,
  Forall complete (u :: rest) -> gaps_exceed th (u :: rest) ->
  merge_loop rest [u] [] th = Some (u :: rest).
Proof.
  induction rest as [|w rest IH]; intros u Hc Hg; [reflexivity|].
  inversion Hc as [|? ? (wu & su & eu & Eu) Hc']; subst.
  pose proof Hc' as Hc''. inversion Hc'' as [|? ? (ww & sw & ew & Ew) _]; subst.
  destruct Hg as [Hgap Hg]. unfold gap_exceeds in Hgap. simpl in Hgap.
  simpl. destruct (Qle_bool (sw - eu) th) eqn:Q.
  - apply Qle_bool_iff in Q. contradiction.
  - rewrite merge_loop_acc, (IH _ Hc' Hg). reflexivity.
Qed.

Lemma merge_loop_no_start th rest : forall g acc,
  (exists u, In u rest /\ start u = None) -> merge_loop rest g acc th = None.
Proof.
  induction rest as [|w rest IH]; intros g acc (u & Hin & Hu); [contradiction|].
  simpl. destruct (last_item g) as [final|]; [|reflexivity].
  destruct (end_ final) as [last_end|]; [|reflexivity].
  destruct Hin as [->|Hin].
  - now rewrite Hu.
  - destruct (start w) as [current_start|]; [|reflexivity].
    destruct (Qle_bool _ _); [apply IH; now exists u|].
    destruct (flush_group g); [apply IH; now exists u | reflexivity].
Qed.

Lemma merge_loop_no_end_now th rest g acc final :
  rest <> [] -> last_item g = Some final -> end_ final = None ->
  merge_loop rest g acc th = None.
Proof.
  intros Hne Hl He. destruct rest as [|w rest]; [contradiction|].
  simpl. now rewrite Hl, He.
Qed.

Lemma merge_loop_no_end th rest : forall g acc,
  (exists u, In u (removelast rest) /\ end_ u = None) ->
  merge_loop rest g acc th = None.
Proof.
  induction rest as [|w rest IH]; intros g acc (u & Hin & Hu); [contradiction|].
  destruct rest as [|w' rest']; [contradiction|].
  assert (Hnext : forall g' acc',
            last_item g' = Some w ->
            merge_loop (w' :: rest') g' acc' th = None \/ u <> w).
  { intros g' acc' Hl. destruct (end_ w) eqn:Ew.
    - right. intros ->. congruence.
    - left. apply (merge_loop_no_end_now th _ g' acc' w); [discriminate | exact Hl | exact Ew]. }
  cbn [merge_loop]. destruct (last_item g) as [final|]; [|reflexivity].
  destruct (end_ final) as [last_end|]; [|reflexivity].
  destruct (start w) as [current_start|]; [|reflexivity].
  change (removelast (w :: w' :: rest')) with (w :: removelast (w' :: rest')) in Hin.
  destruct (Qle_bool _ _).
  - destruct (Hnext (g ++ [w])%list acc (last_item_app g w)) as [H|Hne]; [exact H|].
    destruct Hin as [E|Hin]; [now contradiction Hne|]. apply IH. now exists u.
  - destruct (flush_group g) as [m|]; [|reflexivity].
    destruct (Hnext [w] (acc ++ [m])%list eq_refl) as [H|Hne]; [exact H|].
    destruct Hin as [E|Hin]; [now contradiction Hne|]. apply IH. now exists u.
Qed.

End MergeRunFacts.

(** ** What merge_overlapping_timestamps does with runs and gaps *)

Module MergeRunSpec.
Import PyNum PyStr Model Utils Runs MergeFacts MergeRunFacts.
Local Open Scope string_scope.



(** X14.  The keys that the loop reads with an index are needed: when a
    unit other than the first has no ['start'], or a unit other than the
    last has no ['end'], [merge_overlapping_timestamps] raises a
    [KeyError] instead of returning a list. *)
Theorem merge_needs_start_and_end (x : list WordData) (th : Q) :
  (exists u, In u (tl x) /\ start u = None) \/
  (exists u, In u (removelast x) /\ end_ u = None) ->
  merge_overlapping_timestamps x th = None.
Proof.
  intros [Hs|(u & Hin & Hu)].
  - destruct x as [|f rest]; [now destruct Hs as (u & [] & _)|].
    now apply merge_loop_no_start.
  - destruct x as [|f rest]; [contradiction|].
    destruct rest as [|w rest']; [contradiction|].
    change (removelast (f :: w :: rest')) with (f :: removelast (w :: rest')) in Hin.
    unfold merge_overlapping_timestamps.
    destruct Hin as [->|Hin].
    + apply (merge_loop_no_end_now th _ [u] [] u); [discriminate | reflexivity | exact Hu].
    + apply merge_loop_no_end. now exists u.
Qed.

Lemma merge_needs_start_and_end_witness :
  let x := [timed "a" 0 1; mkWordData (Some "b") None (Some 2)] in
  (exists u, In u (tl x) /\ start u = None) /\
  merge_overlapping_timestamps x default_overlap_threshold = None.
Proof.
  intros x.
  assert (H : exists u, In u (tl x) /\ start u = None).
  { exists (mkWordData (Some "b") None (Some 2)). split; [left; reflexivity | reflexivity]. }
  exact (conj H (merge_needs_start_and_end x default_overlap_threshold (or_introl H))).
Defined.

End MergeRunSpec.

(** ** get_word_timestamps at its bounds, and what follows it *)

Module PipelineFacts.
Import PyNum PyStr Model AudioProcessor MP3Embedder.
Import PyNumFacts PyStrFacts ValidateFacts AllocateFacts EmbedFacts.
Local Open Scope string_scope.

Lemma word_loop_nonempty d n i w ws : word_loop d n i (w :: ws) <> [].
Proof. discriminate. Qed.

Lemma word_times_short d n i :
  d <= 1 -> snd (word_times d n i) <= fst (word_times d n i).
Proof.
  intros Hd. unfold word_times. destruct (Nat.eqb n 1).
  - simpl. destruct (Nat.ltb 0 i); simpl; lra.
  - set (wd := (d - 0.5 - 0.5) / inject_Z (Z.of_nat n)).
    assert (Hwd : wd <= 0).
    { unfold wd, Qdiv.
      assert (Hinv : 0 <= / inject_Z (Z.of_nat n)).
      { apply Qinv_le_0_compat. change 0 with (inject_Z 0). rewrite <- Zle_Qle. lia. }
      nra. }
    assert (E : inject_Z (Z.of_nat (i + 1)) == inject_Z (Z.of_nat i) + 1).
    { rewrite Nat2Z.inj_add, inject_Z_plus. reflexivity. }
    simpl. rewrite E. destruct (Nat.ltb 0 i); simpl; nra.
Qed.

Lemma word_loop_short d n ws : forall i,
  d <= 1 ->
  Forall (fun u => complete u /\ end_of u <= start_of u) (word_loop d n i ws).
Proof.
  induction ws as [|w ws IH]; intros i Hd; simpl; constructor; [|now apply IH].
  rewrite word_timing_fields. split; [now eexists _, _, _|].
  unfold end_of, start_of. simpl. apply round3_mono. now apply word_times_short.
Qed.

Lemma round3_add_two_ms x : round3 (x + (2 # 1000)) == round3 x + (2 # 1000).
Proof.
  unfold round3.
  assert (E : (x + (2 # 1000)) * 1000 == x * 1000 + inject_Z 2).
  { change (inject_Z 2) with 2. field. }
  rewrite E, round_half_even_add_even by reflexivity.
  rewrite !Qmake_1000, inject_Z_plus. change (inject_Z 2) with 2. field.
Qed.

Lemma round3_strict x y : x + (2 # 1000) <= y -> round3 x < round3 y.
Proof.
  intros H. pose proof (round3_mono _ _ H) as M.
  rewrite round3_add_two_ms in M. lra.
Qed.

Lemma py_int_mono x y : x <= y -> (py_int x <= py_int y)%Z.
Proof.
  intros H. unfold py_int.
  destruct (Qlt_le_dec x 0) as [Hx|Hx], (Qlt_le_dec y 0) as [Hy|Hy].
  - now apply Qceiling_resp_le.
  - apply Z.le_trans with 0%Z.
    + rewrite Zle_Qle. apply Qle_trans with (inject_Z (Qceiling x)); [apply Qle_refl|].
      destruct (Z_le_gt_dec (Qceiling x) 0) as [L|G]; [now rewrite <- Zle_Qle|].
      exfalso. pose proof (Qceiling_lt x) as C.
      assert (0 <= inject_Z (Qceiling x - 1)).
      { change 0 with (inject_Z 0). rewrite <- Zle_Qle. lia. }
      lra.
    + change 0%Z with (Qfloor 0). now apply Qfloor_resp_le.
  - lra.
  - now apply Qfloor_resp_le.
Qed.

(** A list that is already clean and in bounds passes the validator
    unchanged. *)
Lemma validate_timestamps_fixed l d :
  Forall (fun u => cleaned u /\ start_of u < end_of u /\ end_of u <= d) l ->
  validate_timestamps l d = l.
Proof.
  induction 1 as [|u l (Cu & Bs & Be) _ IH]; simpl; [reflexivity|].
  rewrite (validate_word_fixed d u Cu Bs Be), IH.
  destruct Cu as (w & zs & ze & -> & _ & Hw & _).
  unfold word_of. simpl. now rewrite Hw.
Qed.

Lemma word_times_start_low d n i :
  1 < d -> (1 <= n)%nat -> 5 # 10 <= fst (word_times d n i).
Proof.
  intros Hd Hn. unfold word_times. destruct (Nat.eqb n 1).
  - simpl. destruct (Nat.ltb 0 i); simpl; lra.
  - set (wd := (d - 0.5 - 0.5) / inject_Z (Z.of_nat n)).
    assert (Hwd : 0 <= wd).
    { unfold wd, Qdiv.
      assert (Hinv : 0 <= / inject_Z (Z.of_nat n)).
      { apply Qinv_le_0_compat. change 0 with (inject_Z 0). rewrite <- Zle_Qle. lia. }
      nra. }
    assert (Hi : 0 <= inject_Z (Z.of_nat i)).
    { change 0 with (inject_Z 0). rewrite <- Zle_Qle. lia. }
    simpl. destruct (Nat.ltb 0 i); simpl; nra.
Qed.

Lemma word_times_room d n i :
  (i = 0%nat \/ n <> 1%nat) ->
  (52 # 1000) <= word_duration d n ->
  fst (word_times d n i) + (2 # 1000) <= snd (word_times d n i).
Proof.
  intros Hi Hwd. unfold word_duration in Hwd. unfold word_times.
  destruct (Nat.eqb_spec n 1) as [E|NE].
  - destruct Hi as [->|Hi]; [|contradiction]. subst n. simpl.
    assert (Q : (d - 0.5 - 0.5) / inject_Z (Z.of_nat 1) == d - 1).
    { change (inject_Z (Z.of_nat 1)) with 1. field. }
    rewrite Q in Hwd. lra.
  - set (wd := (d - 0.5 - 0.5) / inject_Z (Z.of_nat n)) in *.
    assert (E : inject_Z (Z.of_nat (i + 1)) == inject_Z (Z.of_nat i) + 1).
    { rewrite Nat2Z.inj_add, inject_Z_plus. reflexivity. }
    simpl. rewrite E. destruct (Nat.ltb 0 i); simpl; nra.
Qed.

(** One unit of the allocator, when there is room for it: clean, and
    ending after it starts. *)
Lemma word_timing_clean d n i w :
  token w -> 1 < d -> (1 <= n)%nat -> (i = 0%nat \/ n <> 1%nat) ->
  (52 # 1000) <= word_duration d n ->
  cleaned (word_timing d n i w) /\
  start_of (word_timing d n i w) < end_of (word_timing d n i w).
Proof.
  intros [Hne Hns] Hd Hn Hi Hroom. rewrite word_timing_fields. split.
  - unfold round3. eexists _, _, _. split; [reflexivity|].
    split; [apply strip_idem|]. split.
    + rewrite (strip_token _ Hns). now destruct w.
    + pose proof (word_times_start_low d n i Hd Hn) as L.
      assert (P : 0 <= fst (word_times d n i)) by lra.
      pose proof (round3_nonneg _ P) as N.
      unfold round3, Qle in N. simpl in N. lia.
  - unfold start_of, end_of. simpl. apply round3_strict.
    now apply word_times_room.
Qed.

Lemma word_loop_clean d n ws : forall i,
  Forall token ws -> 1 < d -> (2 <= n)%nat ->
  (52 # 1000) <= word_duration d n ->
  Forall (fun u => cleaned u /\ start_of u < end_of u) (word_loop d n i ws).
Proof.
  induction ws as [|w ws IH]; intros i Ht Hd Hn Hroom; simpl; constructor.
  - inversion Ht; subst. apply word_timing_clean; try assumption; lia.
  - inversion Ht; subst. now apply IH.
Qed.

Lemma Forall_both {A : Type} (P Q : A -> Prop) (l : list A) :
  Forall P l -> Forall Q l -> Forall (fun x => P x /\ Q x) l.
Proof.
  induction 1 as [|x l Hx _ IH]; intros HQ; [constructor|].
  inversion HQ; subst. constructor; [now split | now apply IH].
Qed.

End PipelineFacts.

(** ** What the allocator does at its bounds and hands on *)

Module PipelineSpec.
Import PyNum PyStr Model AudioProcessor MP3Embedder Scenario.
Import PyNumFacts PyStrFacts ValidateFacts AllocateFacts EmbedFacts PipelineFacts.
Local Open Scope string_scope.

(** X15.  [get_word_timestamps] returns the empty list exactly when the
    file is missing, the duration is not positive, or the transcription
    is absent or holds no word. *)
Theorem get_word_timestamps_empty_iff (a : Audio) :
  get_word_timestamps a = [] <->
  file_exists a = false \/ audio_duration a <= 0 \/
  match transcription a with
  | None => True
  | Some text => split text = []
  end.
Proof.
  unfold get_word_timestamps.
  destruct (file_exists a); simpl; [|tauto].
  destruct (transcription a) as [text|]; [|tauto].
  destruct (Qle_bool (audio_duration a) 0) eqn:Q.
  - apply Qle_bool_iff in Q. destruct (is_empty text); tauto.
  - assert (N : ~ audio_duration a <= 0).
    { intros L. apply Qle_bool_iff in L. congruence. }
    destruct text as [|c r]; [simpl; tauto|]. simpl is_empty. cbv iota.
    destruct (split (String c r)) as [|w ws]; [tauto|].
    split; [discriminate|]. intros [F|[L|E]]; [discriminate | contradiction | discriminate].
Qed.

(** X16.  For audio of one second or less the allocator gives no word
    any room: with a positive duration of at most one second every unit
    it returns ends at or before its own start. *)
Theorem get_word_timestamps_short_audio (a : Audio) :
  audio_duration a <= 1 ->
  Forall (fun u => complete u /\ end_of u <= start_of u) (get_word_timestamps a).
Proof.
  intros Hd. unfold get_word_timestamps.
  destruct (negb (file_exists a)); [constructor|].
  destruct (transcription a) as [text|]; [|constructor].
  destruct (is_empty text); [constructor|].
  destruct (Qle_bool (audio_duration a) 0); [constructor|].
  destruct (split text) as [|w ws] eqn:E; [constructor|].
  now apply word_loop_short.
Qed.

Lemma get_word_timestamps_short_audio_witness :
  let a := {| file_exists := true; transcription := Some "a b c";
              audio_duration := 0.2 |} in
  audio_duration a <= 1 /\
  get_word_timestamps a
    = [timed "a" (500 # 1000) (233 # 1000); timed "b" (283 # 1000) (-33 # 1000);
       timed "c" (17 # 1000) (-300 # 1000)] /\
  Forall (fun u => complete u /\ end_of u <= start_of u) (get_word_timestamps a).
Proof.
  intros a.
  assert (H : audio_duration a <= 1) by (vm_compute; discriminate).
  exact (conj H (conj eq_refl (get_word_timestamps_short_audio a H))).
Defined.

(** X17.  The validator has nothing to repair in what the allocator
    returns, once every word gets at least 52 ms: for a duration above
    one second and a share of at least 0.052 s per word,
    [validate_timestamps] applied to the result of [get_word_timestamps]
    with the same duration returns it unchanged. *)
Theorem validate_keeps_allocation (a : Audio) (text : string) :
  file_exists a = true ->
  transcription a = Some text ->
  split text <> [] ->
  1 < audio_duration a ->
  (52 # 1000) <= word_duration (audio_duration a) (List.length (split text)) ->
  validate_timestamps (get_word_timestamps a) (audio_duration a)
  = get_word_timestamps a.
Proof.
  intros Hf Ht Hw Hd Hroom.
  rewrite (get_word_timestamps_loop a text Hf Ht Hw) by lra.
  pose proof (split_tokens text) as Htok.
  set (d := audio_duration a) in *. set (ws := split text) in *.
  apply validate_timestamps_fixed.
  destruct (Nat.eq_dec (List.length ws) 1) as [E|NE].
  - destruct ws as [|w [|w' ws']]; try discriminate. simpl List.length in *.
    inversion Htok as [|? ? Hwt _]; subst.
    destruct (word_timing_clean d 1 0 w Hwt Hd (le_n 1) (or_introl eq_refl) Hroom)
      as [Hc Hs].
    simpl word_loop. constructor; [|constructor].
    split; [exact Hc|]. split; [exact Hs|].
    rewrite word_timing_fields. unfold end_of. simpl.
    pose proof (round3_near (d - 0.5)) as [N _]. lra.
  - assert (Hn : (2 <= List.length ws)%nat).
    { destruct ws as [|w [|w' ws']]; simpl in *; try lia. now contradiction Hw. }
    pose proof (word_loop_clean d (List.length ws) ws 0 Htok Hd Hn Hroom) as Hclean.
    pose proof (word_loop_ends d (List.length ws) Hd Hn ws 0 (le_n _)) as Hends.
    pose proof (Forall_both _ _ _ Hclean Hends) as Hall.
    eapply Forall_impl; [|exact Hall]. now intros u [[Hc Hs] He].
Qed.

Lemma validate_keeps_allocation_witness :
  file_exists hello_world = true /\
  transcription hello_world = Some "Hello world" /\
  split "Hello world" <> [] /\
  1 < audio_duration hello_world /\
  (52 # 1000) <= word_duration (audio_duration hello_world)
                               (List.length (split "Hello world")) /\
  validate_timestamps (get_word_timestamps hello_world) 3
  = get_word_timestamps hello_world.
Proof.
  assert (Hw : split "Hello world" <> []) by discriminate.
  assert (Hd : 1 < audio_duration hello_world) by reflexivity.
  assert (Hr : (52 # 1000) <= word_duration (audio_duration hello_world)
                                           (List.length (split "Hello world")))
    by (vm_compute; discriminate).
  exact (conj eq_refl (conj eq_refl (conj Hw (conj Hd (conj Hr
          (validate_keeps_allocation hello_world "Hello world"
             eq_refl eq_refl Hw Hd Hr)))))).
Defined.

(** X18.  The synchronized entries come out in ascending order of
    offset whenever the units come in non-decreasing order of start:
    truncating to milliseconds and dropping units without a word keep
    the order. *)
Theorem sylt_offsets_ascend (wts : list WordData) :
  non_decreasing_start wts ->
  StronglySorted Z.le (map snd (_create_sylt_data wts)).
Proof.
  unfold non_decreasing_start. rewrite create_sylt_data_filter.
  induction wts as [|u wts IH]; simpl; intros S; [constructor|].
  inversion S as [|? ? Sx Hu]; subst.
  destruct (kept u); [|now apply IH].
  simpl. constructor; [now apply IH|].
  apply Forall_forall. intros z Hz.
  apply in_map_iff in Hz as (e & <- & He).
  apply in_map_iff in He as (v & <- & Hv).
  apply filter_In in Hv as [Hv _].
  unfold sylt_entry. simpl. apply py_int_mono.
  rewrite Forall_forall in Hu.
  assert (L : start_of u <= start_of v) by (apply Hu; now apply in_map).
  unfold start_of in L. lra.
Qed.

Lemma sylt_offsets_ascend_witness :
  non_decreasing_start hello_units /\
  StronglySorted Z.le (map snd (_create_sylt_data hello_units)).
Proof.
  assert (H : non_decreasing_start hello_units).
  { apply SSorted_cons; [|apply Forall_cons; [vm_compute; discriminate | apply Forall_nil]].
    apply SSorted_cons; [apply SSorted_nil | apply Forall_nil]. }
  exact (conj H (sylt_offsets_ascend hello_units H)).
Defined.

End PipelineSpec.

(** ** Facts on the text helpers of utils.py *)

Module TextFacts.
Import PyNum PyStr Model Utils PyStrFacts MergeFacts RunFacts UtilsText.
Local Open Scope string_scope.

Lemma length_append a b :
  String.length (a ++ b) = (String.length a + String.length b)%nat.
Proof. induction a as [|c a IH]; simpl; [reflexivity | now rewrite IH]. Qed.

Lemma join_snoc_length cur w :
  cur <> [] ->
  String.length (join " " (cur ++ [w])%list)
  = (String.length (join " " cur) + 1 + String.length w)%nat.
Proof.
  intros Hne. rewrite join_app by (exact Hne || discriminate).
  rewrite !length_append. simpl. lia.
Qed.

(** The loop cuts the words it is given, after those it holds, into
    groups that respect the limit; [current_length] is never below the
    length of the joined words held. *)
Lemma chunk_loop_spec m words : forall cur cl chunks,
  Forall token words -> Forall token cur ->
  (0 <= cl)%Z ->
  (cur <> [] -> (Z.of_nat (String.length (join " " cur)) <= cl)%Z) ->
  ((2 <= List.length cur)%nat -> (cl <= m)%Z) ->
  exists groups,
    chunk_loop m words cur cl chunks = (chunks ++ map (join " ") groups)%list /\
    List.concat groups = (cur ++ words)%list /\
    Forall (chunk_group m) groups.
Proof.
  induction words as [|word rest IH]; intros cur cl chunks Hws Hcur Hcl Hlen Hm.
  - destruct cur as [|c cur'].
    + exists []. simpl. now rewrite app_nil_r.
    + exists [c :: cur']. cbn [chunk_loop is_nil map List.concat].
      rewrite !app_nil_r. repeat split; try discriminate; try assumption.
      constructor; [|constructor]. split; [split; [discriminate | exact Hcur]|].
      intros H2. specialize (Hlen ltac:(discriminate)). specialize (Hm H2). lia.
  - inversion Hws as [|? ? Hw Hrest]; subst.
    cbn [chunk_loop].
    destruct ((cl + (Z.of_nat (String.length word) + 1) >? m)%Z && negb (is_nil cur)) eqn:C.
    + apply andb_true_iff in C as [_ Cn].
      destruct cur as [|c cur']; [discriminate|].
      destruct (IH [word] (Z.of_nat (String.length word)) (chunks ++ [join " " (c :: cur')])%list)
        as (groups & E & Ec & Hg); try assumption.
      * now constructor.
      * lia.
      * intros _. simpl. lia.
      * cbn [List.length]. lia.
      * exists ((c :: cur') :: groups). rewrite E. repeat split.
        -- cbn [map]. now rewrite <- app_assoc.
        -- cbn [List.concat]. rewrite Ec. reflexivity.
        -- constructor; [|exact Hg]. split; [split; [discriminate | exact Hcur]|].
           intros H2. specialize (Hlen ltac:(discriminate)). specialize (Hm H2). lia.
    + destruct (IH (cur ++ [word])%list (cl + (Z.of_nat (String.length word) + 1))%Z chunks)
        as (groups & E & Ec & Hg); try assumption.
      * apply Forall_app. split; [exact Hcur | now constructor].
      * lia.
      * intros _. destruct cur as [|c cur'].
        -- simpl. lia.
        -- rewrite join_snoc_length by discriminate.
           specialize (Hlen ltac:(discriminate)). lia.
      * intros H2. destruct cur as [|c cur'].
        -- cbn [List.length app] in H2. lia.
        -- rewrite andb_true_r in C. rewrite Z.gtb_ltb, Z.ltb_ge in C. exact C.
      * exists groups. rewrite E. repeat split; [|exact Hg].
        rewrite Ec, <- app_assoc. reflexivity.
Qed.

Lemma chunk_group_well_cut m g : chunk_group m g -> well_cut m (join " " g).
Proof.
  intros [[Hne Hg] Hm]. unfold well_cut, fits.
  rewrite (split_join g Hg). repeat split.
  - now apply join_tokens_nonempty.
  - destruct g as [|w [|w' g']]; [contradiction | now right | left].
    apply Hm. cbn [List.length]. lia.
Qed.

Lemma split_text_into_chunks_groups text m :
  exists groups,
    split_text_into_chunks text m = map (join " ") groups /\
    List.concat groups = split text /\ Forall (chunk_group m) groups.
Proof.
  unfold split_text_into_chunks. destruct text as [|c text']; [now exists []|].
  cbn [is_empty].
  destruct (chunk_loop_spec m (split (String c text')) [] 0%Z [])
    as (groups & E & Ec & Hg); try (constructor || lia || apply split_tokens).
  - intros H. now contradiction H.
  - cbn [List.length]. lia.
  - exists groups. now rewrite E.
Qed.

End TextFacts.

(** ** split_text_into_chunks *)

Module ChunkSpec.
Import PyNum PyStr Model Utils PyStrFacts MergeFacts RunFacts UtilsText TextFacts.
Local Open Scope string_scope.

(** X19.  Cutting a text into chunks neither loses, cuts nor reorders a
    word: the words of the chunks, read in order, are the words of the
    text, for every limit (zero and negative ones included). *)
Theorem chunks_keep_the_words (text : string) (max_chars_per_chunk : Z) :
  flat_map split (split_text_into_chunks text max_chars_per_chunk) = split text.
Proof.
  destruct (split_text_into_chunks_groups text max_chars_per_chunk)
    as (groups & -> & <- & Hg).
  apply split_groups. eapply Forall_impl; [|exact Hg]. now intros g [H _].
Qed.

(** X20.  Every chunk is non-empty, has its words separated by single
    blanks, and is at most [max_chars_per_chunk] characters long unless
    it consists of one word, which is never cut. *)
Theorem chunks_respect_the_limit (text : string) (max_chars_per_chunk : Z) :
  Forall (well_cut max_chars_per_chunk)
         (split_text_into_chunks text max_chars_per_chunk).
Proof.
  destruct (split_text_into_chunks_groups text max_chars_per_chunk)
    as (groups & -> & _ & Hg).
  apply Forall_map. eapply Forall_impl; [|exact Hg].
  intros g. apply chunk_group_well_cut.
Qed.

End ChunkSpec.

(** ** Facts on the colour conversions *)

Module ColourFacts.
Import PyNum PyStr Model UtilsText.
Local Open Scope string_scope.

Lemma channels_round_trip :
  forallb (fun n => channel_round_trip (Z.of_nat n)) (seq 0 256) = true.
Proof. vm_compute. reflexivity. Qed.

Lemma format_02x_channel z :
  channel z ->
  exists c1 c2,
    format_02x z = String c1 (String c2 EmptyString) /\
    Ascii.eqb c1 "#" = false /\ lower_hex c1 = true /\ lower_hex c2 = true /\
    int16 (String c1 (String c2 EmptyString)) = Some z.
Proof.
  intros [Hl Hu].
  pose proof (proj1 (forallb_forall _ _) channels_round_trip (Z.to_nat z)) as H.
  assert (Hin : In (Z.to_nat z) (seq 0 256)) by (apply in_seq; lia).
  specialize (H Hin). cbv beta in H. rewrite Z2Nat.id in H by exact Hl.
  unfold channel_round_trip in H.
  destruct (format_02x z) as [|c1 [|c2 [|? ?]]]; try discriminate.
  exists c1, c2.
  destruct (int16 (String c1 (String c2 EmptyString))) as [v|]; 
    [|now rewrite andb_false_r in H].
  apply andb_true_iff in H as [H Hv]. apply andb_true_iff in H as [H H2].
  apply andb_true_iff in H as [H0 H1]. apply Z.eqb_eq in Hv. subst v.
  apply negb_true_iff in H0. now repeat split.
Qed.

Lemma all_digits_round_trip :
  forallb (fun c1 => forallb (digits_round_trip c1) hex_digit_chars)
          hex_digit_chars = true.
Proof. vm_compute. reflexivity. Qed.

Lemma lower_hex_listed c : lower_hex c = true -> In c hex_digit_chars.
Proof.
  intros H. apply filter_In. split; [|exact H].
  apply in_map_iff. exists (nat_of_ascii c). split; [apply ascii_nat_embedding|].
  apply in_seq. pose proof (nat_ascii_bounded c). lia.
Qed.

Lemma int16_two_digits c1 c2 :
  lower_hex c1 = true -> lower_hex c2 = true ->
  exists v, int16 (String c1 (String c2 EmptyString)) = Some v /\
            channel v /\ format_02x v = String c1 (String c2 EmptyString).
Proof.
  intros H1 H2.
  pose proof (proj1 (forallb_forall _ _) all_digits_round_trip c1
                    (lower_hex_listed c1 H1)) as H.
  pose proof (proj1 (forallb_forall _ _) H c2 (lower_hex_listed c2 H2)) as H'.
  unfold digits_round_trip in H'.
  destruct (int16 (String c1 (String c2 EmptyString))) as [v|]; [|discriminate].
  apply andb_true_iff in H' as [Hb He]. apply andb_true_iff in Hb as [Hl Hu].
  exists v. repeat split; try lia. now apply String.eqb_eq.
Qed.

Lemma lower_hex_not_hash c : lower_hex c = true -> Ascii.eqb c "#" = false.
Proof.
  intros H. destruct (Ascii.eqb c "#") eqn:E; [|reflexivity].
  apply Ascii.eqb_eq in E. subst c. discriminate.
Qed.

Lemma all_pairs_in_range :
  forallb (fun c1 => forallb (in_range c1) all_chars) all_chars = true.
Proof. vm_compute. reflexivity. Qed.

Lemma char_listed c : In c all_chars.
Proof.
  apply in_map_iff. exists (nat_of_ascii c). split; [apply ascii_nat_embedding|].
  apply in_seq. pose proof (nat_ascii_bounded c). lia.
Qed.

Lemma int16_two_chars_range c1 c2 v :
  int16 (String c1 (String c2 EmptyString)) = Some v -> (-15 <= v <= 255)%Z.
Proof.
  intros E.
  pose proof (proj1 (forallb_forall _ _) all_pairs_in_range c1 (char_listed c1)) as H.
  pose proof (proj1 (forallb_forall _ _) H c2 (char_listed c2)) as H'.
  unfold in_range in H'. rewrite E in H'.
  apply andb_true_iff in H' as [Hl Hu]. lia.
Qed.

End ColourFacts.

(** ** convert_rgb_to_hex and convert_color_hex_to_rgb *)

Module ColourSpec.
Import PyNum PyStr Model UtilsText ColourFacts.
Local Open Scope string_scope.

(** X21.  Writing a colour and reading it back gives the colour: for
    channels from 0 to 255, [convert_color_hex_to_rgb] undoes
    [convert_rgb_to_hex]. *)
Theorem rgb_to_hex_round_trip (r g b : Z) :
  channel r -> channel g -> channel b ->
  convert_color_hex_to_rgb (convert_rgb_to_hex r g b) = (r, g, b).
Proof.
  intros Hr Hg Hb.
  destruct (format_02x_channel r Hr) as (r1 & r2 & Er & Nr & _ & _ & Ir).
  destruct (format_02x_channel g Hg) as (g1 & g2 & Eg & _ & _ & _ & Ig).
  destruct (format_02x_channel b Hb) as (b1 & b2 & Eb & _ & _ & _ & Ib).
  unfold convert_rgb_to_hex, convert_color_hex_to_rgb. rewrite Er, Eg, Eb.
  cbn [append lstrip_char]. change (Ascii.eqb "#" "#") with true. cbn iota.
  rewrite Nr. cbn [String.length Nat.eqb negb substring].
  now rewrite Ir, Ig, Ib.
Qed.

Lemma rgb_to_hex_round_trip_witness :
  (channel 255 /\ channel 128 /\ channel 0) /\
  convert_color_hex_to_rgb (convert_rgb_to_hex 255 128 0) = (255, 128, 0)%Z.
Proof.
  assert (Hr : channel 255) by (unfold channel; lia).
  assert (Hg : channel 128) by (unfold channel; lia).
  assert (Hb : channel 0) by (unfold channel; lia).
  exact (conj (conj Hr (conj Hg Hb)) (rgb_to_hex_round_trip 255 128 0 Hr Hg Hb)).
Defined.

(** X22.  Reading a colour written as six lower-case hexadecimal
    digits, with or without the leading hash sign, and writing it again
    gives the hash sign and the same six digits; the three channels read
    lie between 0 and 255. *)
Theorem hex_to_rgb_round_trip (digits : string) :
  colour_digits digits ->
  convert_color_hex_to_rgb ("#" ++ digits) = convert_color_hex_to_rgb digits /\
  let '(r, g, b) := convert_color_hex_to_rgb digits in
  channel r /\ channel g /\ channel b /\
  convert_rgb_to_hex r g b = "#" ++ digits.
Proof.
  intros [Hlen Hd].
  destruct digits as [|c1 [|c2 [|c3 [|c4 [|c5 [|c6 [|? ?]]]]]]]; try discriminate.
  cbn [free_of] in Hd.
  repeat (apply andb_true_iff in Hd as [?H Hd]).
  repeat match goal with H : negb (negb _) = true |- _ =>
    rewrite negb_involutive in H end.
  destruct (int16_two_digits c1 c2) as (r & Ir & Hr & Fr); try assumption.
  destruct (int16_two_digits c3 c4) as (g & Ig & Hg & Fg); try assumption.
  destruct (int16_two_digits c5 c6) as (b & Ib & Hb & Fb); try assumption.
  assert (N1 : Ascii.eqb c1 "#" = false) by now apply lower_hex_not_hash.
  assert (E : convert_color_hex_to_rgb
                (String c1 (String c2 (String c3 (String c4 (String c5 (String c6 EmptyString))))))
              = (r, g, b)).
  { unfold convert_color_hex_to_rgb. cbn [lstrip_char]. rewrite N1.
    cbn [String.length Nat.eqb negb substring]. now rewrite Ir, Ig, Ib. }
  split.
  - unfold convert_color_hex_to_rgb at 1. cbn [append lstrip_char].
    change (Ascii.eqb "#" "#") with true. cbn iota.
    rewrite N1. cbn [String.length Nat.eqb negb substring]. now rewrite Ir, Ig, Ib, E.
  - rewrite E. repeat split; try apply Hr; try apply Hg; try apply Hb.
    unfold convert_rgb_to_hex. now rewrite Fr, Fg, Fb.
Qed.

Lemma hex_to_rgb_round_trip_witness :
  colour_digits "ff8000" /\
  (convert_color_hex_to_rgb ("#" ++ "ff8000") = convert_color_hex_to_rgb "ff8000" /\
   let '(r, g, b) := convert_color_hex_to_rgb "ff8000" in
   channel r /\ channel g /\ channel b /\
   convert_rgb_to_hex r g b = "#" ++ "ff8000").
Proof.
  assert (H : colour_digits "ff8000") by (split; reflexivity).
  exact (conj H (hex_to_rgb_round_trip "ff8000" H)).
Defined.

(** X23.  Whatever string is given, [convert_color_hex_to_rgb] returns
    three whole numbers from -15 to 255: never more than 255, but a
    sign is accepted by [int(_, 16)], so a channel can be negative.
    Both bounds are reached. *)
Theorem hex_to_rgb_range :
  (forall hex_color : string,
     let '(r, g, b) := convert_color_hex_to_rgb hex_color in
     (-15 <= r <= 255)%Z /\ (-15 <= g <= 255)%Z /\ (-15 <= b <= 255)%Z) /\
  convert_color_hex_to_rgb "#-f-f-f" = (-15, -15, -15)%Z /\
  convert_color_hex_to_rgb "#ffffff" = (255, 255, 255)%Z.
Proof.
  split; [|split; reflexivity]. intros hex_color.
  unfold convert_color_hex_to_rgb.
  destruct (lstrip_char "#" hex_color) as [|c1 [|c2 [|c3 [|c4 [|c5 [|c6 [|? ?]]]]]]];
    cbn [String.length Nat.eqb negb white]; try (repeat split; lia).
  cbn [substring].
  destruct (int16 (String c1 (String c2 EmptyString))) as [r|] eqn:Er;
    [|unfold white; repeat split; lia].
  destruct (int16 (String c3 (String c4 EmptyString))) as [g|] eqn:Eg;
    [|unfold white; repeat split; lia].
  destruct (int16 (String c5 (String c6 EmptyString))) as [b|] eqn:Eb;
    [|unfold white; repeat split; lia].
  pose proof (int16_two_chars_range _ _ _ Er).
  pose proof (int16_two_chars_range _ _ _ Eg).
  pose proof (int16_two_chars_range _ _ _ Eb).
  repeat split; lia.
Qed.

End ColourSpec.

(** ** Facts on create_safe_filename *)

Module FilenameFacts.
Import PyNum PyStr Model UtilsText.
Local Open Scope string_scope.

Lemma separator_is_space c : separator_char c = false -> is_space c = false.
Proof. unfold separator_char. intros H. now apply orb_false_iff in H as [_ H]. Qed.

Lemma separator_underscore c : separator_char c = false -> Ascii.eqb c "_" = false.
Proof. unfold separator_char. intros H. now apply orb_false_iff in H as [H _]. Qed.

Lemma replace_invalid_free s : free_of invalid_char (replace_invalid s) = true.
Proof.
  induction s as [|c s IH]; [reflexivity|]. cbn [replace_invalid free_of].
  rewrite IH, andb_true_r. destruct (invalid_char c) eqn:E; [reflexivity|].
  now rewrite E.
Qed.

Lemma collapse_free test s : forall in_run,
  test "_"%char = false -> free_of test s = true ->
  free_of test (collapse_runs in_run s) = true.
Proof.
  intros in_run Hu. revert in_run.
  induction s as [|c s IH]; intros in_run H; [reflexivity|].
  cbn [free_of] in H. apply andb_true_iff in H as [Hc Hs].
  cbn [collapse_runs]. destruct (separator_char c).
  - destruct in_run; [now apply IH|]. cbn [free_of]. rewrite Hu. now apply IH.
  - cbn [free_of]. rewrite Hc. now apply IH.
Qed.

Lemma collapse_no_space s : forall in_run,
  free_of is_space (collapse_runs in_run s) = true.
Proof.
  induction s as [|c s IH]; intros in_run; [reflexivity|].
  cbn [collapse_runs]. destruct (separator_char c) eqn:E.
  - destruct in_run; [apply IH|]. cbn [free_of]. now rewrite IH.
  - cbn [free_of]. now rewrite (separator_is_space c E), IH.
Qed.

Lemma collapse_in_run_first s :
  first_char (collapse_runs true s) <> Some "_"%char.
Proof.
  induction s as [|c s IH]; [discriminate|].
  cbn [collapse_runs]. destruct (separator_char c) eqn:E; [exact IH|].
  cbn [first_char]. intros [= ->]. discriminate.
Qed.

Lemma single_underscores_cons a s :
  (Ascii.eqb a "_" = true -> first_char s <> Some "_"%char) ->
  single_underscores s = true -> single_underscores (String a s) = true.
Proof.
  intros Hf Hs. destruct s as [|b s']; [reflexivity|].
  cbn [single_underscores]. change (single_underscores (String b s')) with
    (single_underscores (String b s')) in Hs.
  apply andb_true_iff. split; [|exact Hs].
  destruct (Ascii.eqb a "_") eqn:Ea; [|reflexivity].
  destruct (Ascii.eqb b "_") eqn:Eb; [|reflexivity].
  apply Ascii.eqb_eq in Eb. subst b. now contradiction (Hf eq_refl).
Qed.

Lemma single_underscores_tail a s :
  single_underscores (String a s) = true ->
  single_underscores s = true /\
  (Ascii.eqb a "_" = true -> first_char s <> Some "_"%char).
Proof.
  destruct s as [|b s']; [now split|].
  cbn [single_underscores]. intros H. apply andb_true_iff in H as [Hab Hs].
  split; [exact Hs|]. intros Ea. rewrite Ea in Hab. cbn [first_char].
  intros [= ->]. discriminate.
Qed.

Lemma collapse_single s : forall in_run,
  single_underscores (collapse_runs in_run s) = true.
Proof.
  induction s as [|c s IH]; intros in_run; [reflexivity|].
  cbn [collapse_runs]. destruct (separator_char c) eqn:E.
  - destruct in_run; [apply IH|].
    apply single_underscores_cons; [|apply IH].
    intros _. apply collapse_in_run_first.
  - apply single_underscores_cons; [|apply IH].
    intros Ec. now rewrite (separator_underscore c E) in Ec.
Qed.

(** *** Trimming one character *)

Lemma lstrip_char_free test c s :
  free_of test s = true -> free_of test (lstrip_char c s) = true.
Proof.
  induction s as [|a s IH]; intros H; [reflexivity|].
  cbn [lstrip_char]. destruct (Ascii.eqb a c); [|exact H].
  cbn [free_of] in H. apply andb_true_iff in H as [_ H]. now apply IH.
Qed.

Lemma rstrip_char_free test c s :
  free_of test s = true -> free_of test (rstrip_char c s) = true.
Proof.
  induction s as [|a s IH]; intros H; [reflexivity|].
  cbn [free_of] in H. apply andb_true_iff in H as [Ha Hs].
  cbn [rstrip_char]. specialize (IH Hs).
  destruct (rstrip_char c s) as [|b r].
  - destruct (Ascii.eqb a c); [reflexivity|]. cbn [free_of]. now rewrite Ha.
  - cbn [free_of] in *. now rewrite Ha.
Qed.

Lemma lstrip_char_single c s :
  single_underscores s = true -> single_underscores (lstrip_char c s) = true.
Proof.
  induction s as [|a s IH]; intros H; [reflexivity|].
  cbn [lstrip_char]. destruct (Ascii.eqb a c); [|exact H].
  apply IH. now apply single_underscores_tail in H as [H _].
Qed.

Lemma rstrip_char_first c s :
  first_char (rstrip_char c s) = None \/
  first_char (rstrip_char c s) = first_char s.
Proof.
  destruct s as [|a s]; [now left|]. cbn [rstrip_char].
  destruct (rstrip_char c s); [|now right].
  destruct (Ascii.eqb a c); [now left | now right].
Qed.

Lemma rstrip_char_single c s :
  single_underscores s = true -> single_underscores (rstrip_char c s) = true.
Proof.
  induction s as [|a s IH]; intros H; [reflexivity|].
  apply single_underscores_tail in H as [Hs Hf]. specialize (IH Hs).
  cbn [rstrip_char]. destruct (rstrip_char c s) as [|b r] eqn:E.
  - now destruct (Ascii.eqb a c).
  - apply single_underscores_cons; [|exact IH].
    intros Ea. specialize (Hf Ea).
    destruct (rstrip_char_first c s) as [F|F]; rewrite E in F;
      [discriminate | now rewrite F].
Qed.

Lemma lstrip_char_first c s : first_char (lstrip_char c s) <> Some c.
Proof.
  induction s as [|a s IH]; [discriminate|].
  cbn [lstrip_char]. destruct (Ascii.eqb a c) eqn:E; [exact IH|].
  cbn [first_char]. intros [= ->]. now rewrite Ascii.eqb_refl in E.
Qed.

Lemma rstrip_char_last c s : last_char (rstrip_char c s) <> Some c.
Proof.
  induction s as [|a s IH]; [discriminate|].
  cbn [rstrip_char]. destruct (rstrip_char c s) as [|b r] eqn:E.
  - destruct (Ascii.eqb a c) eqn:Ea; [discriminate|].
    cbn [last_char]. intros [= ->]. now rewrite Ascii.eqb_refl in Ea.
  - change (last_char (String a (String b r)))
      with (match last_char (String b r) with None => Some a | Some l => Some l end).
    destruct (last_char (String b r)) as [l|] eqn:L; [exact IH|].
    cbn [last_char] in L. now destruct (last_char r).
Qed.

Lemma strip_char_first c s : first_char (strip_char c s) <> Some c.
Proof.
  unfold strip_char.
  destruct (rstrip_char_first c (lstrip_char c s)) as [F|F]; rewrite F;
    [discriminate | apply lstrip_char_first].
Qed.

Lemma last_char_none s : last_char s = None -> s = EmptyString.
Proof.
  destruct s as [|a s]; [reflexivity|]. cbn [last_char].
  now destruct (last_char s).
Qed.

Lemma rstrip_char_fixed c s : last_char s <> Some c -> rstrip_char c s = s.
Proof.
  induction s as [|a s IH]; intros H; [reflexivity|].
  cbn [last_char] in H. cbn [rstrip_char].
  destruct (last_char s) as [l|] eqn:L.
  - rewrite (IH H). destruct s; [discriminate | reflexivity].
  - apply last_char_none in L. subst s. cbn [rstrip_char].
    destruct (Ascii.eqb a c) eqn:E; [|reflexivity].
    apply Ascii.eqb_eq in E. subst a. now contradiction H.
Qed.

Lemma lstrip_char_fixed c s : first_char s <> Some c -> lstrip_char c s = s.
Proof.
  destruct s as [|a s]; intros H; [reflexivity|].
  cbn [lstrip_char]. destruct (Ascii.eqb a c) eqn:E; [|reflexivity].
  apply Ascii.eqb_eq in E. subst a. now contradiction H.
Qed.

Lemma replace_invalid_fixed s :
  free_of invalid_char s = true -> replace_invalid s = s.
Proof.
  induction s as [|c s IH]; intros H; [reflexivity|].
  cbn [free_of] in H. apply andb_true_iff in H as [Hc Hs].
  cbn [replace_invalid]. apply negb_true_iff in Hc. now rewrite Hc, (IH Hs).
Qed.

Lemma collapse_fixed s : forall in_run,
  free_of is_space s = true -> single_underscores s = true ->
  (in_run = true -> first_char s <> Some "_"%char) ->
  collapse_runs in_run s = s.
Proof.
  induction s as [|c s IH]; intros in_run Hsp Hsu Hf; [reflexivity|].
  cbn [free_of] in Hsp. apply andb_true_iff in Hsp as [Hc Hsp].
  apply negb_true_iff in Hc.
  apply single_underscores_tail in Hsu as [Hsu Hn].
  cbn [collapse_runs]. unfold separator_char. rewrite Hc, orb_false_r.
  destruct (Ascii.eqb c "_") eqn:E.
  - apply Ascii.eqb_eq in E. subst c.
    destruct in_run; [now contradiction (Hf eq_refl)|].
    f_equal. now apply IH.
  - f_equal. apply IH; try assumption; discriminate.
Qed.

(** The four steps give a safe name, whatever the input. *)
Lemma create_safe_filename_safe filename :
  safe_name (create_safe_filename filename).
Proof.
  unfold create_safe_filename.
  set (s := strip_char "_" (collapse_runs false (replace_invalid filename))).
  assert (Hi : free_of invalid_char s = true).
  { apply rstrip_char_free, lstrip_char_free, collapse_free;
      [reflexivity | apply replace_invalid_free]. }
  assert (Hs : free_of is_space s = true).
  { apply rstrip_char_free, lstrip_char_free, collapse_no_space. }
  assert (Hu : single_underscores s = true).
  { apply rstrip_char_single, lstrip_char_single, collapse_single. }
  assert (Hf : first_char s <> Some "_"%char) by apply strip_char_first.
  assert (Hl : last_char s <> Some "_"%char) by apply rstrip_char_last.
  destruct s as [|c s'] eqn:E.
  - cbn [is_empty]. repeat split; discriminate.
  - cbn [is_empty]. repeat split; try assumption; discriminate.
Qed.

(** A safe name goes through the four steps unchanged. *)
Lemma create_safe_filename_fixed s :
  safe_name s -> create_safe_filename s = s.
Proof.
  intros (Hne & Hi & Hs & Hu & Hf & Hl). unfold create_safe_filename.
  rewrite (replace_invalid_fixed s Hi).
  rewrite (collapse_fixed s false Hs Hu) by discriminate.
  unfold strip_char. rewrite (lstrip_char_fixed _ s Hf), (rstrip_char_fixed _ s Hl).
  destruct s; [now contradiction Hne | reflexivity].
Qed.

End FilenameFacts.

(** ** create_safe_filename *)

Module FilenameSpec.
Import PyNum PyStr Model UtilsText FilenameFacts.
Local Open Scope string_scope.

(** X24.  For every input, the name returned by [create_safe_filename]
    is not empty, holds none of the nine characters that the first
    substitution replaces and no whitespace, has no two underscores in
    a row and none at either end; and cleaning it again changes
    nothing. *)
Theorem create_safe_filename_is_safe (filename : string) :
  safe_name (create_safe_filename filename) /\
  create_safe_filename (create_safe_filename filename)
  = create_safe_filename filename.
Proof.
  split; [apply create_safe_filename_safe|].
  apply create_safe_filename_fixed, create_safe_filename_safe.
Qed.

(** X25.  The names that [create_safe_filename] returns unchanged are
    exactly the safe names. *)
Theorem create_safe_filename_fixed_points (filename : string) :
  create_safe_filename filename = filename <-> safe_name filename.
Proof.
  split.
  - intros E. rewrite <- E. apply create_safe_filename_safe.
  - apply create_safe_filename_fixed.
Qed.

End FilenameSpec.

(** ** Facts on clean_text *)

Module CleanFacts.
Import PyNum PyStr Model Utils PyStrFacts MergeFacts RunFacts UtilsText.
Local Open Scope string_scope.

Lemma free_of_app test a b :
  free_of test (a ++ b) = free_of test a && free_of test b.
Proof.
  induction a as [|c a IH]; [reflexivity|].
  cbn [append free_of]. now rewrite IH, andb_assoc.
Qed.

Lemma free_of_weaken (test test' : ascii -> bool) s :
  (forall c, test' c = true -> test c = true) ->
  free_of test s = true -> free_of test' s = true.
Proof.
  intros Hw. induction s as [|c s IH]; intros H; [reflexivity|].
  cbn [free_of] in *. apply andb_true_iff in H as [Hc Hs].
  rewrite (IH Hs), andb_true_r. destruct (test' c) eqn:E; [|reflexivity].
  now rewrite (Hw c E) in Hc.
Qed.

Lemma split_from_free test s : forall cur,
  free_of test cur = true -> free_of test s = true ->
  Forall (fun w => free_of test w = true) (split_from cur s).
Proof.
  induction s as [|c s IH]; intros cur Hcur Hs.
  - destruct cur; [constructor | now repeat constructor].
  - cbn [free_of] in Hs. apply andb_true_iff in Hs as [Hc Hs].
    cbn [split_from]. destruct (is_space c).
    + apply Forall_app. split; [|now apply IH].
      destruct cur; [constructor | now repeat constructor].
    + apply IH; [|exact Hs]. rewrite free_of_app, Hcur. cbn [free_of].
      now rewrite Hc.
Qed.

Lemma join_free test ws :
  test " "%char = false ->
  Forall (fun w => free_of test w = true) ws ->
  free_of test (join " " ws) = true.
Proof.
  intros Hb. induction 1 as [|w ws Hw Hws IH]; [reflexivity|].
  destruct ws as [|w' ws']; [exact Hw|].
  rewrite join_cons, !free_of_app, Hw, IH. cbn [free_of]. now rewrite Hb.
Qed.

(** A text without the first character of the pattern holds no
    occurrence of it. *)
Lemma replace_absent c0 old new s :
  free_of (Ascii.eqb c0) s = true -> replace (String c0 old) new s = s.
Proof.
  unfold replace. induction s as [|c s IH]; intros H; [reflexivity|].
  cbn [free_of] in H. apply andb_true_iff in H as [Hc Hs].
  apply negb_true_iff in Hc. cbn [replace_from String.prefix].
  destruct (ascii_dec c0 c) as [->|_]; [now rewrite Ascii.eqb_refl in Hc|].
  now rewrite (IH Hs).
Qed.

Lemma normalised_fixed ws :
  Forall token ws ->
  strip (join " " (split (join " " ws))) = join " " ws.
Proof. intros H. now rewrite (split_join ws H), strip_join_tokens. Qed.

End CleanFacts.

(** ** clean_text *)

Module CleanSpec.
Import PyNum PyStr Model Utils PyStrFacts MergeFacts RunFacts UtilsText CleanFacts.
Local Open Scope string_scope.

(** X26.  The text returned by [clean_text] is normalised: it has no
    whitespace at either end and its words are separated by single
    blanks, that is, it equals [' '.join(result.split())]. *)
Theorem clean_text_normalised (text : string) :
  strip (clean_text text) = clean_text text /\
  join " " (split (clean_text text)) = clean_text text.
Proof.
  unfold clean_text. destruct text as [|c text']; [now split|].
  cbn [is_empty].
  set (t := replace "(Laughter)" _ _).
  pose proof (split_tokens t) as Ht.
  rewrite (strip_join_tokens _ Ht). split.
  - now apply strip_join_tokens.
  - now rewrite (split_join _ Ht).
Qed.

(** X27.  A text with neither an opening square bracket nor an opening
    parenthesis holds none of the six tags, and [clean_text] only
    normalises its whitespace: the result is [' '.join(text.split())]. *)
Theorem clean_text_without_tags (text : string) :
  free_of (fun c => Ascii.eqb c "[" || Ascii.eqb c "(") text = true ->
  clean_text text = join " " (split text).
Proof.
  intros H. unfold clean_text. destruct text as [|c text']; [reflexivity|].
  cbn [is_empty]. set (t := String c text') in *.
  assert (Hj : free_of (fun c => Ascii.eqb c "[" || Ascii.eqb c "(")
                       (join " " (split t)) = true).
  { apply join_free; [reflexivity|]. now apply split_from_free. }
  assert (Hs : free_of (Ascii.eqb "[") (join " " (split t)) = true).
  { eapply free_of_weaken; [|exact Hj]. intros a Ha. cbv beta.
    apply Ascii.eqb_eq in Ha. subst a. reflexivity. }
  assert (Hp : free_of (Ascii.eqb "(") (join " " (split t)) = true).
  { eapply free_of_weaken; [|exact Hj]. intros a Ha. cbv beta.
    apply Ascii.eqb_eq in Ha. subst a. reflexivity. }
  rewrite !(replace_absent "[" _ _ _ Hs), !(replace_absent "(" _ _ _ Hp).
  apply normalised_fixed, split_tokens.
Qed.

Lemma clean_text_without_tags_witness :
  free_of (fun c => Ascii.eqb c "[" || Ascii.eqb c "(") "  so   long ] " = true /\
  clean_text "  so   long ] " = join " " (split "  so   long ] ").
Proof.
  assert (H : free_of (fun c => Ascii.eqb c "[" || Ascii.eqb c "(")
                      "  so   long ] " = true) by reflexivity.
  exact (conj H (clean_text_without_tags "  so   long ] " H)).
Defined.

End CleanSpec.

(** ** The time stamps of the LRC file *)

Module LrcSpec.
Import PyNum PyStr Model Exports PyNumFacts.
Local Open Scope string_scope.

(** X28.  The seconds field of an LRC time stamp is rounded to
    hundredths after the minutes were taken off, so it is not always
    below sixty: when the seconds of a start time exceed 59.995 the
    field reads [60.00] and the minutes are not advanced. *)
Theorem lrc_timestamp_sixty (start_time : Q) :
  let minutes := Qfloor (start_time / 60) in
  ((59995 # 1000) < start_time - inject_Z minutes * 60)%Q ->
  lrc_timestamp start_time = "[" ++ format_02d minutes ++ ":60.00]".
Proof.
  intros minutes H. unfold lrc_timestamp. fold minutes.
  set (seconds := (start_time - inject_Z minutes * 60)%Q) in *.
  assert (Hlt : (seconds < 60)%Q).
  { destruct (Qfloor_bounds (start_time / 60)) as [_ Hu]. fold minutes in Hu.
    unfold seconds. 
    assert (E : (start_time == start_time / 60 * 60)%Q) by (field).
    rewrite E at 1. lra. }
  assert (R : round_half_even (seconds * 100) = 6000%Z).
  { assert (F : Qfloor (seconds * 100) = 5999%Z).
    { apply Qfloor_unique.
      change (inject_Z 5999) with (5999 # 1)%Q. lra. }
    destruct (round_half_even_cases (seconds * 100)) as [[C E]|[[C E]|[C E]]];
      rewrite F in *; change (inject_Z 5999) with (5999 # 1)%Q in C.
    - lra.
    - exact E.
    - lra. }
  unfold format_05_2f. rewrite R. reflexivity.
Qed.

Lemma lrc_timestamp_sixty_witness :
  ((59995 # 1000) < (119996 # 1000) - inject_Z (Qfloor ((119996 # 1000) / 60)) * 60)%Q /\
  lrc_timestamp (119996 # 1000)
  = "[" ++ format_02d (Qfloor ((119996 # 1000) / 60)) ++ ":60.00]".
Proof.
  assert (H : ((59995 # 1000)
               < (119996 # 1000) - inject_Z (Qfloor ((119996 # 1000) / 60)) * 60)%Q)
    by reflexivity.
  exact (conj H (lrc_timestamp_sixty (119996 # 1000) H)).
Defined.

End LrcSpec.

(** ** Facts on binary64 rounding *)

Module Binary64Facts.
Import PyNum PyNumFacts Binary64.

Lemma pow2_pos k : 0 < pow2 k.
Proof. apply Qpower_0_lt. reflexivity. Qed.

Lemma pow2_add a b : pow2 (a + b) == pow2 a * pow2 b.
Proof. apply Qpower_plus. discriminate. Qed.

Lemma pow2_le a b : (a <= b)%Z -> pow2 a <= pow2 b.
Proof. intros H. apply Qpower_le_compat_l; [exact H | discriminate]. Qed.

Lemma pow2_lt_inv a b : pow2 a < pow2 b -> (a < b)%Z.
Proof. intros H. apply (Qpower_lt_compat_l_inv 2); [exact H | reflexivity]. Qed.

Lemma pow2_Z k : (0 <= k)%Z -> inject_Z (2 ^ k) == pow2 k.
Proof. intros H. now rewrite Zpower_Qpower. Qed.

Lemma pow2_succ k : pow2 (k + 1) == 2 * pow2 k.
Proof. rewrite pow2_add. change (pow2 1) with 2. ring. Qed.

(** A positive whole number lies between two powers of two. *)
Lemma log2_bounds n :
  (0 < n)%Z ->
  pow2 (Z.log2 n) <= inject_Z n /\ inject_Z n < pow2 (Z.log2 n + 1).
Proof.
  intros Hn. destruct (Z.log2_spec n Hn) as [Hl Hu].
  pose proof (Z.log2_nonneg n) as H0. split.
  - rewrite <- pow2_Z by exact H0. now rewrite <- Zle_Qle.
  - rewrite <- pow2_Z by lia. rewrite <- Zlt_Qlt. now rewrite <- Z.add_1_r in Hu.
Qed.

(** [ilog2] is the integer part of the logarithm. *)
Lemma ilog2_spec x :
  0 < x -> pow2 (ilog2 x) <= x /\ x < pow2 (ilog2 x + 1).
Proof.
  intros Hx. destruct x as [n d]. unfold ilog2. cbn [Qnum Qden].
  assert (Hn : (0 < n)%Z) by (unfold Qlt in Hx; simpl in Hx; lia).
  destruct (log2_bounds n Hn) as [Nl Nu].
  destruct (log2_bounds (Z.pos d) (Pos2Z.is_pos d)) as [Dl Du].
  set (a := Z.log2 n) in *. set (b := Z.log2 (Z.pos d)) in *.
  assert (E : inject_Z n == (n # d) * inject_Z (Z.pos d)).
  { unfold Qeq. simpl. rewrite Pos.mul_1_r. ring. }
  pose proof (pow2_pos b) as Pb. pose proof (pow2_pos (a - b)) as Pg.
  assert (Ea : pow2 a == pow2 (a - b) * pow2 b).
  { rewrite <- pow2_add. now replace (a - b + b)%Z with a by lia. }
  assert (Upper : n # d < pow2 (a - b + 1)).
  { rewrite pow2_succ.
    assert (H : (n # d) * pow2 b < 2 * pow2 (a - b) * pow2 b).
    { apply Qle_lt_trans with (inject_Z n).
      - rewrite E. apply Qmult_le_l; [exact Hx | exact Dl].
      - rewrite pow2_succ in Nu. rewrite Ea in Nu. lra. }
    apply Qmult_lt_r in H; assumption. }
  assert (Lower : pow2 (a - b - 1) <= n # d).
  { assert (H2 : pow2 (a - b) == 2 * pow2 (a - b - 1)).
    { rewrite <- pow2_succ. now replace (a - b - 1 + 1)%Z with (a - b)%Z by lia. }
    assert (H : pow2 (a - b - 1) * pow2 (b + 1) <= (n # d) * pow2 (b + 1)).
    { apply Qle_trans with (inject_Z n).
      - rewrite pow2_succ. rewrite Ea, H2 in Nl. lra.
      - rewrite E. apply Qmult_le_l; [exact Hx | now apply Qlt_le_weak]. }
    apply Qmult_le_r in H; [exact H | apply pow2_pos]. }
  destruct (Qle_bool (pow2 (a - b)) (n # d)) eqn:C.
  - apply Qle_bool_iff in C. now split.
  - split; [exact Lower|].
    replace (a - b - 1 + 1)%Z with (a - b)%Z by lia.
    apply Qnot_le_lt. intros H. apply Qle_bool_iff in H. congruence.
Qed.

Lemma ilog2_mono x y : 0 < x -> x <= y -> (ilog2 x <= ilog2 y)%Z.
Proof.
  intros Hx Hxy.
  destruct (ilog2_spec x Hx) as [Xl _].
  destruct (ilog2_spec y) as [_ Yu]; [lra|].
  assert (H : pow2 (ilog2 x) < pow2 (ilog2 y + 1)) by lra.
  apply pow2_lt_inv in H. lia.
Qed.

Lemma ulp_exponent_mono x y :
  0 < x -> x <= y -> (ulp_exponent x <= ulp_exponent y)%Z.
Proof.
  intros Hx Hxy. unfold ulp_exponent.
  pose proof (ilog2_mono x y Hx Hxy). lia.
Qed.

(** The significand has at most 53 bits. *)
Lemma significand_upper x :
  0 < x -> x / pow2 (ulp_exponent x) < inject_Z (2 ^ 53).
Proof.
  intros Hx. destruct (ilog2_spec x Hx) as [_ Hu].
  pose proof (pow2_pos (ulp_exponent x)) as P.
  apply Qlt_shift_div_r; [exact P|].
  rewrite pow2_Z by lia. rewrite <- pow2_add.
  apply Qlt_le_trans with (pow2 (ilog2 x + 1)); [exact Hu|].
  apply pow2_le. unfold ulp_exponent. lia.
Qed.

(** Above the smallest exponent the significand has exactly 53 bits. *)
Lemma significand_lower x :
  0 < x -> (-1074 < ulp_exponent x)%Z ->
  inject_Z (2 ^ 52) <= x / pow2 (ulp_exponent x).
Proof.
  intros Hx Hs. destruct (ilog2_spec x Hx) as [Hl _].
  pose proof (pow2_pos (ulp_exponent x)) as P.
  apply Qle_shift_div_l; [exact P|].
  rewrite pow2_Z by lia. rewrite <- pow2_add.
  apply Qle_trans with (pow2 (ilog2 x)); [|exact Hl].
  apply pow2_le. unfold ulp_exponent in *. lia.
Qed.

Lemma round_pos_nonneg x : 0 < x -> 0 <= round_pos x.
Proof.
  intros Hx. unfold round_pos.
  pose proof (pow2_pos (ulp_exponent x)) as P.
  apply Qmult_le_0_compat; [|now apply Qlt_le_weak].
  change 0 with (inject_Z 0). rewrite <- Zle_Qle.
  rewrite <- (round_half_even_Z 0). apply round_half_even_mono.
  change (inject_Z 0) with 0. apply Qle_shift_div_l; [exact P | lra].
Qed.

(** Rounding keeps the order of positive numbers. *)
Lemma round_pos_mono x y : 0 < x -> x <= y -> round_pos x <= round_pos y.
Proof.
  intros Hx Hxy. assert (Hy : 0 < y) by lra.
  pose proof (ulp_exponent_mono x y Hx Hxy) as Hs.
  unfold round_pos.
  set (sx := ulp_exponent x) in *. set (sy := ulp_exponent y) in *.
  pose proof (pow2_pos sx) as Px. pose proof (pow2_pos sy) as Py.
  destruct (Z.eq_dec sx sy) as [E|NE].
  - rewrite E. apply Qmult_le_compat_r; [|now apply Qlt_le_weak].
    rewrite <- Zle_Qle. apply round_half_even_mono.
    apply Qmult_le_compat_r; [exact Hxy|].
    apply Qlt_le_weak, Qinv_lt_0_compat. exact Py.
  - assert (Hlt : (sx + 1 <= sy)%Z) by lia.
    apply Qle_trans with (pow2 (sy + 52)).
    + apply Qle_trans with (inject_Z (2 ^ 53) * pow2 sx).
      * apply Qmult_le_compat_r; [|now apply Qlt_le_weak].
        rewrite <- Zle_Qle. rewrite <- (round_half_even_Z (2 ^ 53)).
        apply round_half_even_mono, Qlt_le_weak.
        now apply significand_upper.
      * rewrite pow2_Z by lia. rewrite <- pow2_add. apply pow2_le. lia.
    + apply Qle_trans with (inject_Z (2 ^ 52) * pow2 sy).
      * rewrite pow2_Z by lia. rewrite <- pow2_add.
        apply pow2_le. lia.
      * apply Qmult_le_compat_r; [|now apply Qlt_le_weak].
        rewrite <- Zle_Qle. rewrite <- (round_half_even_Z (2 ^ 52)).
        apply round_half_even_mono, significand_lower; [exact Hy|].
        assert ((-1074 <= sx)%Z) by (unfold sx, ulp_exponent; lia).
        unfold sy in *. lia.
Qed.

(** The value of [rnd], up to the reduction of the fraction. *)
Lemma rnd_value x :
  rnd x == match Qcompare x 0 with
           | Eq => 0
           | Gt => round_pos x
           | Lt => - round_pos (- x)
           end.
Proof. unfold rnd. apply Qred_correct. Qed.

Lemma rnd_of_pos x : 0 < x -> rnd x == round_pos x.
Proof.
  intros H. rewrite rnd_value.
  assert (C : Qcompare x 0 = Gt) by (rewrite <- Qgt_alt; exact H).
  now rewrite C.
Qed.

Lemma rnd_of_neg x : x < 0 -> rnd x == - round_pos (- x).
Proof.
  intros H. rewrite rnd_value.
  assert (C : Qcompare x 0 = Lt) by (rewrite <- Qlt_alt; exact H).
  now rewrite C.
Qed.

Lemma rnd_of_zero x : x == 0 -> rnd x == 0.
Proof.
  intros H. rewrite rnd_value.
  assert (C : Qcompare x 0 = Eq) by (rewrite <- Qeq_alt; exact H).
  now rewrite C.
Qed.

Lemma rnd_nonneg x : 0 <= x -> 0 <= rnd x.
Proof.
  intros H. destruct (Qlt_le_dec 0 x) as [Hp|Hz].
  - rewrite rnd_of_pos by exact Hp. now apply round_pos_nonneg.
  - rewrite rnd_of_zero by lra. lra.
Qed.

Lemma rnd_nonpos x : x <= 0 -> rnd x <= 0.
Proof.
  intros H. destruct (Qlt_le_dec x 0) as [Hn|Hz].
  - rewrite rnd_of_neg by exact Hn.
    assert (0 <= round_pos (- x)) by (apply round_pos_nonneg; lra). lra.
  - rewrite rnd_of_zero by lra. lra.
Qed.

(** Rounding to the nearest float keeps the order. *)
Lemma rnd_mono x y : x <= y -> rnd x <= rnd y.
Proof.
  intros Hxy. destruct (Qlt_le_dec 0 x) as [Hx|Hx].
  - rewrite (rnd_of_pos x Hx), (rnd_of_pos y) by lra.
    now apply round_pos_mono.
  - destruct (Qlt_le_dec y 0) as [Hy|Hy].
    + rewrite (rnd_of_neg y Hy), (rnd_of_neg x) by lra.
      assert (round_pos (- y) <= round_pos (- x)) by (apply round_pos_mono; lra).
      lra.
    + apply Qle_trans with 0; [now apply rnd_nonpos | now apply rnd_nonneg].
Qed.

(** A float that a sum is at least, the rounded sum is at least. *)
Lemma rnd_above d x : double d -> d <= x -> d <= rnd x.
Proof. intros Hd H. rewrite <- Hd. now apply rnd_mono. Qed.

Lemma rnd_below d x : double d -> x <= d -> rnd x <= d.
Proof. intros Hd H. rewrite <- Hd. now apply rnd_mono. Qed.

Lemma double_zero : double 0.
Proof. reflexivity. Qed.

Lemma round_ms_mono x y : x <= y -> round_ms x <= round_ms y.
Proof.
  intros H. unfold round_ms. apply rnd_mono.
  apply (proj1 (Qmake_1000_le _ _)), round_half_even_mono. lra.
Qed.

Lemma round_ms_nonneg x : 0 <= x -> 0 <= round_ms x.
Proof.
  intros H. unfold round_ms. apply rnd_nonneg.
  apply Qle_trans with (0 # 1000); [discriminate|].
  apply (proj1 (Qmake_1000_le _ _)).
  rewrite <- (round_half_even_Z 0). apply round_half_even_mono.
  change (inject_Z 0) with 0. lra.
Qed.

(** *** The result of a rounding is a float *)

(** [ilog2] is determined by the two bounds. *)
Lemma ilog2_unique x e :
  pow2 e <= x -> x < pow2 (e + 1) -> ilog2 x = e.
Proof.
  intros Hl Hu. assert (Hx : 0 < x) by (pose proof (pow2_pos e); lra).
  destruct (ilog2_spec x Hx) as [Il Iu].
  assert (H1 : pow2 e < pow2 (ilog2 x + 1)) by lra.
  assert (H2 : pow2 (ilog2 x) < pow2 (e + 1)) by lra.
  apply pow2_lt_inv in H1, H2. lia.
Qed.

Lemma ilog2_eq x y : 0 < x -> x == y -> ilog2 x = ilog2 y.
Proof.
  intros Hx E. destruct (ilog2_spec x Hx) as [Hl Hu].
  symmetry. apply ilog2_unique; now rewrite <- E.
Qed.

Lemma round_pos_eq x y : 0 < x -> x == y -> round_pos x == round_pos y.
Proof.
  intros Hx E. unfold round_pos, ulp_exponent.
  rewrite (ilog2_eq x y Hx E).
  assert (R : round_half_even (x / pow2 (Z.max (-1074) (ilog2 y - 52)))
              = round_half_even (y / pow2 (Z.max (-1074) (ilog2 y - 52)))).
  { apply round_half_even_comp. now rewrite E. }
  now rewrite R.
Qed.

(** A whole multiple of a power of two that is not above the exponent
    of the last place is rounded to itself. *)
Lemma round_pos_multiple m s :
  (0 < m)%Z -> (ulp_exponent (inject_Z m * pow2 s) <= s)%Z ->
  round_pos (inject_Z m * pow2 s) == inject_Z m * pow2 s.
Proof.
  intros Hm Hu. unfold round_pos.
  set (y := inject_Z m * pow2 s) in *. set (u := ulp_exponent y) in *.
  pose proof (pow2_pos u) as Pu.
  assert (Es : pow2 s == inject_Z (2 ^ (s - u)) * pow2 u).
  { rewrite pow2_Z by lia. rewrite <- pow2_add.
    now replace (s - u + u)%Z with s by lia. }
  assert (Q : y / pow2 u == inject_Z (m * 2 ^ (s - u))).
  { unfold y. rewrite Es, inject_Z_mult. field. lra. }
  rewrite Q, round_half_even_Z. unfold y. rewrite Es, inject_Z_mult. ring.
Qed.

(** A significand of at most 53 bits at an admissible exponent is
    rounded to itself. *)
Lemma round_pos_exact m s :
  (0 < m <= 2 ^ 53)%Z -> (-1074 <= s)%Z ->
  round_pos (inject_Z m * pow2 s) == inject_Z m * pow2 s.
Proof.
  intros [Hm0 Hm] Hs. set (y := inject_Z m * pow2 s).
  pose proof (pow2_pos s) as Ps.
  destruct (log2_bounds m Hm0) as [Ml Mu].
  pose proof (Z.log2_nonneg m) as L0.
  assert (Ll : (Z.log2 m <= 53)%Z).
  { apply Z.log2_le_mono in Hm. rewrite Z.log2_pow2 in Hm by lia. exact Hm. }
  assert (Ey : ilog2 y = (Z.log2 m + s)%Z).
  { apply ilog2_unique; unfold y.
    - rewrite pow2_add. apply Qmult_le_compat_r; [exact Ml | lra].
    - replace (Z.log2 m + s + 1)%Z with (Z.log2 m + 1 + s)%Z by lia.
      rewrite pow2_add. apply Qmult_lt_r; assumption. }
  destruct (Z.eq_dec (Z.log2 m) 53) as [E53|N53].
  - (* the significand is 2 ** 53: one place up *)
    assert (Em : m = (2 ^ 53)%Z).
    { apply Z.le_antisymm; [exact Hm|].
      rewrite E53 in Ml. rewrite <- pow2_Z in Ml by lia.
      now rewrite <- Zle_Qle in Ml. }
    assert (E : y == inject_Z (2 ^ 52) * pow2 (s + 1)).
    { unfold y. rewrite Em, pow2_succ.
      change (inject_Z (2 ^ 53)) with (2 * inject_Z (2 ^ 52)). ring. }
    assert (Hy : 0 < y) by (rewrite E; apply Qmult_lt_0_compat; [reflexivity | apply pow2_pos]).
    apply Qeq_trans with (round_pos (inject_Z (2 ^ 52) * pow2 (s + 1)));
      [now apply round_pos_eq|].
    apply Qeq_trans with (inject_Z (2 ^ 52) * pow2 (s + 1)); [|now symmetry].
    apply round_pos_multiple; [reflexivity|].
    unfold ulp_exponent. rewrite <- (ilog2_eq y _ Hy E), Ey. lia.
  - apply round_pos_multiple; [exact Hm0|].
    fold y. unfold ulp_exponent. rewrite Ey. lia.
Qed.

(** The significand that [round_pos] produces has at most 53 bits. *)
Lemma round_pos_significand x :
  0 < x -> (0 <= round_half_even (x / pow2 (ulp_exponent x)) <= 2 ^ 53)%Z.
Proof.
  intros Hx. pose proof (pow2_pos (ulp_exponent x)) as P. split.
  - rewrite <- (round_half_even_Z 0). apply round_half_even_mono.
    change (inject_Z 0) with 0. apply Qle_shift_div_l; [exact P | lra].
  - rewrite <- (round_half_even_Z (2 ^ 53)).
    apply round_half_even_mono, Qlt_le_weak. now apply significand_upper.
Qed.

Lemma round_pos_idem x :
  0 < x -> 0 < round_pos x -> round_pos (round_pos x) == round_pos x.
Proof.
  intros Hx Hp. unfold round_pos at 2 3.
  apply round_pos_exact.
  - destruct (round_pos_significand x Hx) as [H0 H1]. split; [|exact H1].
    destruct (Z.eq_dec (round_half_even (x / pow2 (ulp_exponent x))) 0) as [E|N]; [|lia].
    unfold round_pos in Hp. rewrite E in Hp. change (inject_Z 0) with 0 in Hp. lra.
  - unfold ulp_exponent. lia.
Qed.

(** A rational that rounds to itself up to [==] and is in lowest terms
    is a float. *)
Lemma double_of_value v : rnd v == v -> double (Qred v).
Proof.
  intros H. unfold double.
  assert (E : rnd (Qred v) == rnd v).
  { pose proof (Qred_correct v) as C.
    destruct (Qlt_le_dec 0 v) as [Hp|Hn].
    - rewrite (rnd_of_pos v Hp), (rnd_of_pos (Qred v)) by now rewrite C.
      apply round_pos_eq; [now rewrite C | exact C].
    - destruct (Qlt_le_dec v 0) as [Hm|Hz].
      + rewrite (rnd_of_neg v Hm), (rnd_of_neg (Qred v)) by now rewrite C.
        apply Qopp_comp, round_pos_eq; [rewrite C; lra | now rewrite C].
      + rewrite (rnd_of_zero v), (rnd_of_zero (Qred v)); [reflexivity | rewrite C |]; lra. }
  unfold rnd at 1. fold (rnd (Qred v)) in E.
  apply Qred_complete. rewrite <- (rnd_value (Qred v)). now rewrite E, H.
Qed.

(** Rounding gives a float. *)
Lemma rnd_double x : double (rnd x).
Proof.
  unfold rnd at 1. apply double_of_value.
  destruct (Qlt_le_dec 0 x) as [Hp|Hn].
  - assert (C : Qcompare x 0 = Gt) by (rewrite <- Qgt_alt; exact Hp).
    rewrite C. pose proof (round_pos_nonneg x Hp) as N.
    destruct (Qlt_le_dec 0 (round_pos x)) as [Rp|Rz].
    + rewrite (rnd_of_pos _ Rp). now apply round_pos_idem.
    + rewrite rnd_of_zero; lra.
  - destruct (Qlt_le_dec x 0) as [Hm|Hz].
    + assert (C : Qcompare x 0 = Lt) by (rewrite <- Qlt_alt; exact Hm).
      rewrite C. assert (Hx : 0 < - x) by lra.
      pose proof (round_pos_nonneg (- x) Hx) as N.
      destruct (Qlt_le_dec 0 (round_pos (- x))) as [Rp|Rz].
      * rewrite rnd_of_neg by lra.
        apply Qopp_comp. rewrite (round_pos_eq (- - round_pos (- x)) (round_pos (- x))).
        -- now apply round_pos_idem.
        -- lra.
        -- ring.
      * rewrite rnd_of_zero; lra.
    + assert (C : Qcompare x 0 = Eq) by (rewrite <- Qeq_alt; lra).
      rewrite C. now rewrite rnd_of_zero.
Qed.

Lemma round_ms_double x : double (round_ms x).
Proof. apply rnd_double. Qed.

(** *** Some floats

    The values of two literals and of four operations, as fractions. *)
Lemma known_values :
  literal 0.1 = (3602879701896397 # 36028797018963968) /\
  literal 0.05 = (3602879701896397 # 72057594037927936) /\
  fmul (literal 1.001) 1000 = (8804889115230207 # 8796093022208) /\
  fsub (literal 1.55) (literal 1.5) = (225179981368525 # 4503599627370496) /\
  fadd (literal 0.0235) (literal 0.1) = (2224778215921025 # 18014398509481984) /\
  round_ms (literal 0.0025) = literal 0.003.
Proof. repeat split; vm_compute; reflexivity. Qed.

End Binary64Facts.
(** ** validate_timestamps over floats *)

Module Validate64Facts.
Import PyNum PyStr Model Binary64 AudioProcessor64.
Import PyNumFacts PyStrFacts Binary64Facts.

Lemma validate_fields d u :
  validate_word d u
  = timed (strip (get (word u) EmptyString))
          (round_ms (clamped_start u)) (round_ms (repaired_end d u)).
Proof. reflexivity. Qed.

Lemma validate_filter x d :
  validate_timestamps x d =
  filter (fun u => negb (is_empty (word_of u))) (map (validate_word d) x).
Proof.
  induction x as [|u x IH]; simpl; [reflexivity|].
  rewrite IH. now destruct (is_empty _).
Qed.

Lemma validate_In x d u :
  In u x -> is_empty (strip (get (word u) EmptyString)) = false ->
  In (validate_word d u) (validate_timestamps x d).
Proof.
  intros Hin Hw. rewrite validate_filter. apply filter_In. split.
  - now apply in_map.
  - rewrite validate_fields. unfold word_of. simpl. now rewrite Hw.
Qed.

Lemma validate_origin x d v :
  In v (validate_timestamps x d) -> exists u, In u x /\ v = validate_word d u.
Proof.
  rewrite validate_filter. intros H.
  apply filter_In in H as [H _]. apply in_map_iff in H as (u & <- & Hu).
  now exists u.
Qed.

Lemma clamped_nonneg u : 0 <= clamped_start u.
Proof. apply py_max_lb. Qed.

Lemma clamped_double u : double (start_of u) -> double (clamped_start u).
Proof.
  intros H. unfold clamped_start, py_max.
  destruct (Qlt_le_dec 0 (get (start u) 0)); [exact H | exact double_zero].
Qed.

Lemma clamped_mono u v :
  start_of u <= start_of v -> clamped_start u <= clamped_start v.
Proof.
  unfold clamped_start, start_of, py_max. intros H.
  destruct (Qlt_le_dec 0 (get (start u) 0)), (Qlt_le_dec 0 (get (start v) 0)); lra.
Qed.

Lemma tenth_pos : 0 < literal 0.1.
Proof. vm_compute. reflexivity. Qed.

(** The float sum [start + 0.1] is not below the start. *)
Lemma repair_not_below s : double s -> s <= fadd s (literal 0.1).
Proof.
  intros H. unfold fadd. apply rnd_above; [exact H|].
  pose proof tenth_pos. lra.
Qed.

Lemma repaired_after_start d u :
  double (start_of u) -> clamped_start u <= repaired_end d u.
Proof.
  intros H. unfold repaired_end. destruct (Qle_bool _ _) eqn:E.
  - now apply repair_not_below, clamped_double.
  - destruct (Qlt_le_dec (clamped_start u) (clamped_end d u)) as [L|L]; [lra|].
    apply Qle_bool_iff in L. congruence.
Qed.

Lemma validate_ordered d u :
  double (start_of u) ->
  0 <= start_of (validate_word d u) /\
  start_of (validate_word d u) <= end_of (validate_word d u).
Proof.
  intros H. rewrite validate_fields. unfold start_of, end_of. simpl. split.
  - apply round_ms_nonneg, clamped_nonneg.
  - now apply round_ms_mono, repaired_after_start.
Qed.

Lemma validate_sorted x d :
  non_decreasing_start x -> non_decreasing_start (validate_timestamps x d).
Proof.
  unfold non_decreasing_start.
  induction x as [|u x IH]; simpl; intros S; [constructor|].
  inversion S as [|? ? Sx Hu]; subst.
  destruct (is_empty _); [now apply IH|].
  simpl. constructor; [now apply IH|].
  apply Forall_forall. intros q Hq.
  apply in_map_iff in Hq as (v & <- & Hv).
  apply validate_origin in Hv as (u' & Hu' & ->).
  change (round_ms (clamped_start u) <= round_ms (clamped_start u')).
  apply round_ms_mono, clamped_mono.
  rewrite Forall_forall in Hu. apply Hu.
  change (In (start_of u') (map start_of x)). now apply in_map.
Qed.

End Validate64Facts.

(** ** What validate_timestamps guarantees once floats round *)

Module Validate64Spec.
Import PyNum PyStr Model Binary64 AudioProcessor64 Scenario64.
Import PyNumFacts PyStrFacts Binary64Facts Validate64Facts.
Local Open Scope string_scope.

(** Closed comparisons of rationals, by computation. *)
Ltac holds := vm_compute; first [reflexivity | discriminate].
Ltac fails H := vm_compute in H; first [discriminate H | apply H; reflexivity].




(** C9, as amended.  A unit with a non-empty word whose clamped start
    lies within a tenth of a second of the duration (or beyond it) and
    whose clamped end is not after that start comes out with the start
    rounded to milliseconds and, as its end, the float sum
    [start + 0.1] rounded to milliseconds: the repair is not clamped to
    the duration again.  That sum is not below the duration, and the end
    written is not below the duration rounded to milliseconds. *)
Theorem validate_repair_not_reclamped (x : list WordData) (d : Q) (u : WordData) :
  In u x ->
  is_empty (strip (get (word u) EmptyString)) = false ->
  double d -> double (start_of u) ->
  d - literal 0.1 < clamped_start u ->
  clamped_end d u <= clamped_start u ->
  let v := validate_word d u in
  In v (validate_timestamps x d) /\
  v = timed (strip (get (word u) EmptyString))
            (round_ms (clamped_start u))
            (round_ms (fadd (clamped_start u) (literal 0.1))) /\
  d <= fadd (clamped_start u) (literal 0.1) /\
  round_ms d <= end_of v /\
  start_of v <= end_of v.
Proof.
  intros Hin Hw Hd Hu Hs He v.
  assert (Er : repaired_end d u = fadd (clamped_start u) (literal 0.1)).
  { unfold repaired_end. apply Qle_bool_iff in He. now rewrite He. }
  assert (Ev : v = timed (strip (get (word u) EmptyString))
                         (round_ms (clamped_start u))
                         (round_ms (fadd (clamped_start u) (literal 0.1)))).
  { unfold v. now rewrite validate_fields, Er. }
  assert (Hsum : d <= fadd (clamped_start u) (literal 0.1)).
  { unfold fadd. apply rnd_above; [exact Hd | lra]. }
  split; [now apply validate_In|]. split; [exact Ev|]. split; [exact Hsum|].
  split.
  - rewrite Ev. unfold end_of. simpl. now apply round_ms_mono.
  - now apply validate_ordered.
Qed.

Lemma validate_repair_not_reclamped_witness :
  let u := timed_at "a" 0.95 0.5 in
  In u [u] /\
  is_empty (strip (get (word u) EmptyString)) = false /\
  double 1 /\ double (start_of u) /\
  1 - literal 0.1 < clamped_start u /\
  clamped_end 1 u <= clamped_start u /\
  In (validate_word 1 u) (validate_timestamps [u] 1) /\
  validate_word 1 u = timed_at "a" 0.95 1.05 /\
  1 <= fadd (clamped_start u) (literal 0.1).
Proof.
  intros u.
  assert (Hin : In u [u]) by (left; reflexivity).
  assert (Hw : is_empty (strip (get (word u) EmptyString)) = false) by reflexivity.
  assert (Hd : double 1) by holds.
  assert (Hu : double (start_of u)) by holds.
  assert (Hs : 1 - literal 0.1 < clamped_start u) by holds.
  assert (He : clamped_end 1 u <= clamped_start u) by holds.
  destruct (validate_repair_not_reclamped [u] 1 u Hin Hw Hd Hu Hs He)
    as (Hv & Ev & Hsum & _ & _).
  refine (conj Hin (conj Hw (conj Hd (conj Hu (conj Hs (conj He (conj Hv (conj _ Hsum)))))))).
  rewrite Ev. vm_compute. reflexivity.
Defined.

(** C9 as stated fails: the end written is not always beyond the
    duration.  With the start 0.9004 and the duration 1 the repaired end
    is written as 1.0, the duration itself; with the start 0.0235 and
    the duration 0.1232 it is written as 0.123, below the duration and
    less than a tenth of a second after the start written. *)
Lemma validate_repair_rounds_to_duration :
  let u := timed_at "a" 0.9004 0 in
  let w := timed_at "c" 0.0235 0 in
  let d := literal 0.1232 in
  (1 - 0.1 < clamped_start u /\ clamped_end 1 u <= clamped_start u /\
   validate_timestamps [u] 1 = [timed_at "a" 0.9 1] /\
   ~ (1 < end_of (timed_at "a" 0.9 1))) /\
  (d - 0.1 < clamped_start w /\ clamped_end d w <= clamped_start w /\
   validate_timestamps [w] d = [timed_at "c" 0.024 0.123] /\
   end_of (timed_at "c" 0.024 0.123) < d /\
   d - 0.1 < start_of (timed_at "c" 0.024 0.123) /\
   ~ (end_of (timed_at "c" 0.024 0.123)
      == start_of (timed_at "c" 0.024 0.123) + 0.1)).
Proof.
  intros u w d. split.
  - split; [holds|]. split; [holds|]. split; [holds|]. intros H. fails H.
  - split; [holds|]. split; [holds|]. split; [holds|]. split; [holds|].
    split; [holds|]. intros H. fails H.
Qed.

End Validate64Spec.
(** ** _create_sylt_data over floats *)

Module Sylt64Facts.
Import PyNum PyStr Model Binary64 MP3Embedder64.
Import PyNumFacts Binary64Facts.
Local Open Scope string_scope.

(** Without an overflow the loop keeps, in order, the entries of the
    units whose trimmed word is not empty. *)
Lemma sylt_loop_finite units :
  Forall (fun u => overflows (milliseconds u) = false) (filter kept units) ->
  sylt_loop units = Some (map sylt_entry (filter kept units)).
Proof.
  induction units as [|u units IH]; intros H; [reflexivity|].
  cbn [sylt_loop filter]. unfold kept at 1 in H. cbn [filter] in H.
  unfold kept at 1.
  destruct (is_empty (strip (get (word u) EmptyString))); cbn [negb] in *.
  - now apply IH.
  - inversion H as [|? ? Hu Hrest]; subst.
    rewrite Hu, (IH Hrest). reflexivity.
Qed.

(** One overflow among the units kept and the loop raises. *)
Lemma sylt_loop_overflow units :
  Exists (fun u => overflows (milliseconds u) = true) (filter kept units) ->
  sylt_loop units = None.
Proof.
  induction units as [|u units IH]; intros H; [inversion H|].
  cbn [sylt_loop filter]. unfold kept at 1 in H. cbn [filter] in H.
  destruct (is_empty (strip (get (word u) EmptyString))); cbn [negb] in *.
  - now apply IH.
  - destruct (overflows (milliseconds u)) eqn:O; [reflexivity|].
    inversion H as [? ? Hu|? ? Hrest]; subst; [congruence|].
    now rewrite (IH Hrest).
Qed.

Lemma milliseconds_nonneg u : 0 <= start_of u -> 0 <= milliseconds u.
Proof.
  intros H. unfold milliseconds, fmul. apply rnd_nonneg.
  unfold start_of in H. nra.
Qed.

Lemma milliseconds_nonpos u : start_of u <= 0 -> milliseconds u <= 0.
Proof.
  intros H. unfold milliseconds, fmul. apply rnd_nonpos.
  unfold start_of in H. nra.
Qed.

Lemma py_int_nonpos x : x <= 0 -> py_int x = Qceiling x.
Proof.
  intros H. destruct (Qlt_le_dec x 0) as [L|L]; [now apply py_int_neg|].
  assert (E : x == inject_Z 0) by (change (inject_Z 0) with 0; lra).
  rewrite py_int_nonneg by exact L.
  now rewrite (Qfloor_comp _ _ E), (Qceiling_comp _ _ E), Qfloor_Z, Qceiling_Z.
Qed.

End Sylt64Facts.

(** ** What _create_sylt_data emits once floats round *)

Module Sylt64Spec.
Import PyNum PyStr Model Binary64 MP3Embedder64 Scenario64.
Import PyNumFacts Binary64Facts Sylt64Facts.
Local Open Scope string_scope.

(** C7, as amended.  [_create_sylt_data] keeps, in order, exactly the
    units whose trimmed word is not empty, and the offset of a kept unit
    is [int(start * 1000)] where the product is the float product: that
    product cut toward zero, its floor when the start is not negative
    and its ceiling when the start is negative.  When the product of a
    kept unit overflows, the conversion raises and the result is the
    empty list.  The empty list gives the empty list. *)
Theorem create_sylt_data_truncates (units : list WordData) :
  (Forall (fun u => overflows (milliseconds u) = false) (filter kept units) ->
   _create_sylt_data units = map sylt_entry (filter kept units)) /\
  (Exists (fun u => overflows (milliseconds u) = true) (filter kept units) ->
   _create_sylt_data units = []) /\
  (forall u, 0 <= start_of u -> snd (sylt_entry u) = Qfloor (milliseconds u)) /\
  (forall u, start_of u < 0 -> snd (sylt_entry u) = Qceiling (milliseconds u)) /\
  _create_sylt_data [] = [].
Proof.
  split; [|split; [|split; [|split; [|reflexivity]]]].
  - intros H. unfold _create_sylt_data. now rewrite (sylt_loop_finite units H).
  - intros H. unfold _create_sylt_data. now rewrite (sylt_loop_overflow units H).
  - intros u H. unfold sylt_entry. cbn [snd].
    apply py_int_nonneg. now apply milliseconds_nonneg.
  - intros u H. unfold sylt_entry. cbn [snd].
    apply py_int_nonpos, milliseconds_nonpos. lra.
Qed.

Lemma create_sylt_data_truncates_witness :
  let u := timed_at " b " 1.0019 3 in
  let units := [u; timed_at "  " 1 2] in
  Forall (fun u => overflows (milliseconds u) = false) (filter kept units) /\
  0 <= start_of u /\
  _create_sylt_data units = [("b", 1001%Z)] /\
  snd (sylt_entry u) = Qfloor (milliseconds u).
Proof.
  intros u units.
  assert (F : Forall (fun u => overflows (milliseconds u) = false) (filter kept units)).
  { apply Forall_cons; [vm_compute; reflexivity | apply Forall_nil]. }
  assert (H : 0 <= start_of u) by (vm_compute; discriminate).
  destruct (create_sylt_data_truncates units) as (E & _ & Fl & _).
  refine (conj F (conj H (conj _ (Fl u H)))).
  rewrite (E F). vm_compute. reflexivity.
Defined.

(** C7 as stated fails: the offset is not the floor of [start * 1000].
    For a negative start that is not a whole number of milliseconds it
    is one more than the floor; and for the start 1.001 the float
    product is just below 1001, so the offset is 1000 while the decimal
    product is 1001. *)
Lemma create_sylt_data_not_floor :
  let u := timed_at "a" (-0.0005) 1 in
  let v := timed_at "b" 1.001 2 in
  _create_sylt_data [u; v] = [("a", 0%Z); ("b", 1000%Z)] /\
  Qfloor (start_of u * 1000) = (-1)%Z /\
  Qfloor (milliseconds u) = (-1)%Z /\
  milliseconds v < 1001 /\
  Qfloor (1.001 * 1000) = 1001%Z.
Proof.
  intros u v. repeat split; vm_compute; reflexivity.
Qed.

End Sylt64Spec.

(** ** merge_overlapping_timestamps over floats *)

Module Merge64Facts.
Import PyNum PyStr Model Binary64 Utils Runs Utils64.
Import PyStrFacts Binary64Facts MergeFacts SentenceFacts MergeRunFacts.
Local Open Scope string_scope.

(** What is already merged only prefixes the result. *)
Lemma merge_acc th rest : forall g merged,
  merge_loop rest g merged th
  = option_map (app merged) (merge_loop rest g [] th).
Proof.
  induction rest as [|w rest IH]; intros g merged; simpl.
  - now destruct (flush_group g).
  - destruct (last_item g) as [final|]; [|reflexivity].
    destruct (end_ final) as [last_end|]; [|reflexivity].
    destruct (start w) as [current_start|]; [|reflexivity].
    destruct (Qle_bool _ _); [apply IH|].
    destruct (flush_group g) as [m|]; [|reflexivity].
    rewrite (IH [w] (merged ++ [m])%list), (IH [w] [m]).
    destruct (merge_loop rest [w] [] th); simpl; [|reflexivity].
    now rewrite <- app_assoc.
Qed.

Lemma gaps_cons th m first out :
  hd_error out = Some first ->
  gap_exceeds th m first -> gaps_exceed th out -> gaps_exceed th (m :: out).
Proof.
  intros Hh Hg Ho. destruct out as [|f out']; [discriminate|].
  inversion Hh; subst. now split.
Qed.

(** A float difference above a float threshold: the exact difference is
    above it too. *)
Lemma gap_exceeds_apart th a b :
  double th -> gap_exceeds th a b -> apart th a b.
Proof.
  unfold gap_exceeds, apart. intros Hth H.
  destruct (end_ a) as [ea|]; [|exact H]. destruct (start b) as [sb|]; [|exact H].
  apply Qnot_le_lt. intros L. apply H. unfold fsub. now apply rnd_below.
Qed.

Lemma gaps_exceed_apart th l :
  double th -> gaps_exceed th l -> all_apart th l.
Proof.
  intros Hth. induction l as [|a l IH]; intros H; [exact I|].
  destruct l as [|b l']; [exact I|]. destruct H as [Hab H].
  split; [now apply gap_exceeds_apart | now apply IH].
Qed.

Lemma chain_snoc th g final w :
  last_item g = Some final -> chained th g -> close_enough th final w ->
  chained th (g ++ [w])%list.
Proof.
  revert final. induction g as [|a g IH]; intros final Hl Hc Hw; [discriminate|].
  destruct g as [|b g'].
  - simpl in Hl. inversion Hl; subst. simpl. now split.
  - destruct Hc as [Hab Hc]. split; [exact Hab|].
    apply (IH final); [|exact Hc | exact Hw].
    now rewrite <- (last_item_tail a b g').
Qed.

Lemma chain_close th g final w rest :
  last_item g = Some final -> chained th ((g ++ [w]) ++ rest)%list ->
  close_enough th final w.
Proof.
  revert final. induction g as [|a g IH]; intros final Hl Hch; [discriminate|].
  destruct g as [|b g'].
  - simpl in Hl. injection Hl as <-. simpl in Hch. destruct rest; apply Hch.
  - rewrite last_item_tail in Hl. apply (IH final Hl). apply Hch.
Qed.

(** The loop on units whose words are tokens: it ends without a
    [KeyError], each unit it appends stands for one group of words, the
    groups together are the words of the current group followed by those
    still to come, and neighbours in the result are, by the test of the
    loop, more than the threshold apart. *)
Lemma merge_spec th rest : forall g,
  g <> [] -> Forall token_unit g -> Forall token_unit rest ->
  exists out groups,
    merge_loop rest g [] th = Some out /\
    map word_of out = map (join " ") groups /\
    List.concat groups = (map word_of g ++ map word_of rest)%list /\
    Forall word_group groups /\
    gaps_exceed th out /\
    same_first_start g out.
Proof.
  induction rest as [|w rest IH]; intros g Hne Hg Hrest.
  - destruct (flush_group_spec g Hne Hg) as (m & h & final & Hm & Hh & _ & Hw & Hs & _).
    exists [m], [map word_of g]. simpl. rewrite Hm.
    split; [reflexivity|].
    split; [now rewrite Hw|].
    split; [reflexivity|].
    split; [constructor; [now apply group_words | constructor]|].
    split; [exact I|].
    now exists h, m.
  - inversion Hrest as [|? ? Hw Hrest']; subst.
    destruct (flush_group_spec g Hne Hg)
      as (m & h & final & Hm & Hh & Hl & Hmw & Hms & Hme).
    destruct (last_item_token_unit g Hne Hg) as (final' & Hl' & Hft).
    assert (Efinal : final = final') by congruence. subst final. clear Hl'.
    destruct Hft as (wf & sf & ef & Ef & _).
    pose proof Hw as (ww & sw & ew & Ew & _).
    simpl. rewrite Hl, Ef, Ew. simpl end_. simpl start. cbv iota.
    destruct (Qle_bool (fsub sw ef) th) eqn:Q.
    + destruct (IH (g ++ [w])%list) as (out & groups & Ho & Hwo & Hc & Hgr & Hgap & Hf).
      * now destruct g.
      * apply Forall_app. split; [exact Hg | now constructor].
      * exact Hrest'.
      * exists out, groups. rewrite <- Ew.
        split; [exact Ho|]. split; [exact Hwo|].
        split; [rewrite Hc, map_app, <- app_assoc; reflexivity|].
        split; [exact Hgr|]. split; [exact Hgap|].
        destruct Hf as (h' & first & Hh' & Hfo & Hst).
        exists h, first. split; [exact Hh|]. split; [exact Hfo|].
        destruct g; [contradiction|]. simpl in Hh, Hh'. congruence.
    + destruct (IH [w]) as (out & groups & Ho & Hwo & Hc & Hgr & Hgap & Hf).
      * discriminate.
      * now constructor.
      * exact Hrest'.
      * rewrite Hm. rewrite <- Ew, merge_acc, Ho. simpl.
        exists (m :: out), (map word_of g :: groups).
        split; [reflexivity|].
        split; [simpl; now rewrite Hmw, Hwo|].
        split; [simpl; now rewrite Hc|].
        split; [constructor; [now apply group_words | exact Hgr]|].
        split; [|now exists h, m].
        destruct Hf as (h' & first & Hh' & Hfo & Hst).
        apply (gaps_cons th m first out Hfo); [|exact Hgap].
        simpl in Hh'. inversion Hh'; subst h'.
        unfold gap_exceeds. rewrite Hme, Hst, Ef, Ew. simpl.
        intros Hle. apply Qle_bool_iff in Hle. congruence.
Qed.

(** The loop on units that carry all keys: it ends without an error,
    and its result stands, unit by unit, for the runs into which the
    test of the loop cuts the input. *)
Lemma merge_runs th rest : forall g,
  g <> [] -> Forall complete g -> Forall complete rest -> chained th g ->
  exists out groups,
    merge_loop rest g [] th = Some out /\
    List.concat groups = (g ++ rest)%list /\
    Forall2 spans groups out /\
    Forall (fun grp => grp <> [] /\ chained th grp) groups /\
    gaps_exceed th out /\
    same_first_start g out.
Proof.
  induction rest as [|w rest IH]; intros g Hne Hg Hrest Hch.
  - destruct (flush_group_complete g Hne Hg) as (m & Hm & _).
    pose proof Hm as (Hf & first & final & Hh & _ & Hs & _).
    exists [m], [g]. simpl. rewrite Hf, !app_nil_r.
    split; [reflexivity|]. split; [reflexivity|].
    split; [constructor; [exact Hm | constructor]|].
    split; [constructor; [now split | constructor]|].
    split; [exact I|]. now exists first, m.
  - inversion Hrest as [|? ? Hw Hrest']; subst.
    destruct (flush_group_complete g Hne Hg) as (m & Hm & _).
    pose proof Hm as (Hf & first & final & Hh & Hl & Hs & He).
    destruct (last_item_complete g Hne Hg) as (final' & Hl' & Hfc).
    assert (Efinal : final = final') by congruence. subst final. clear Hl'.
    destruct Hfc as (wf & sf & ef & Ef). pose proof Hw as (ww & sw & ew & Ew).
    simpl. rewrite Hl, Ef, Ew. simpl end_. simpl start. cbv iota.
    destruct (Qle_bool (fsub sw ef) th) eqn:Q.
    + destruct (IH (g ++ [w])%list) as (out & groups & Ho & Hc & Hsp & Hgr & Hgap & Hfs).
      * now destruct g.
      * apply Forall_app. split; [exact Hg | now constructor].
      * exact Hrest'.
      * apply (chain_snoc th g final' w Hl Hch).
        unfold close_enough. rewrite Ef, Ew. simpl. now apply Qle_bool_iff.
      * exists out, groups. rewrite <- Ew.
        split; [exact Ho|]. split; [now rewrite Hc, <- app_assoc|].
        split; [exact Hsp|]. split; [exact Hgr|]. split; [exact Hgap|].
        destruct Hfs as (h' & f' & Hh' & Hfo & Hst).
        exists first, f'. split; [exact Hh|]. split; [exact Hfo|].
        destruct g; [contradiction|]. simpl in Hh, Hh'. congruence.
    + destruct (IH [w]) as (out & groups & Ho & Hc & Hsp & Hgr & Hgap & Hfs).
      * discriminate.
      * now constructor.
      * exact Hrest'.
      * exact I.
      * rewrite Hf. rewrite <- Ew, merge_acc, Ho. simpl.
        exists (m :: out), (g :: groups).
        split; [reflexivity|]. split; [simpl; now rewrite Hc|].
        split; [constructor; [exact Hm | exact Hsp]|].
        split; [constructor; [now split | exact Hgr]|].
        split; [|now exists first, m].
        destruct Hfs as (h' & f' & Hh' & Hfo & Hst).
        apply (gaps_cons th m f' out Hfo); [|exact Hgap].
        simpl in Hh'. inversion Hh'; subst h'.
        unfold gap_exceeds. rewrite He, Hst, Ef, Ew. simpl.
        intros Hle. apply Qle_bool_iff in Hle. congruence.
Qed.

Lemma merge_chained th rest : forall g,
  g <> [] -> Forall complete (g ++ rest)%list -> chained th (g ++ rest)%list ->
  merge_loop rest g [] th
  = option_map (fun m => [m]) (flush_group (g ++ rest)%list).
Proof.
  induction rest as [|w rest IH]; intros g Hne Hc Hch.
  - simpl. rewrite app_nil_r. now destruct (flush_group g).
  - assert (E : (g ++ w :: rest)%list = ((g ++ [w]) ++ rest)%list)
      by now rewrite <- app_assoc.
    rewrite E in Hc, Hch |- *.
    assert (Hgw : Forall complete (g ++ [w])%list).
    { apply Forall_app in Hc as [Hc _]. exact Hc. }
    apply Forall_app in Hgw as [Hg Hw]. inversion Hw as [|? ? (ww & sw & ew & Ew) _]; subst.
    destruct (last_item_complete g Hne Hg) as (final & Hl & (wf & sf & ef & Ef)).
    pose proof (chain_close th g final (timed ww sw ew) rest Hl Hch) as Hclose.
    unfold close_enough in Hclose. rewrite Ef in Hclose. simpl in Hclose.
    apply Qle_bool_iff in Hclose.
    simpl. rewrite Hl, Ef. simpl. rewrite Hclose.
    apply IH; [now destruct g | exact Hc | exact Hch].
Qed.

End Merge64Facts.

(** ** What merge_overlapping_timestamps preserves once floats round *)

Module Merge64Spec.
Import PyNum PyStr Model Binary64 Utils Runs Utils64 Scenario64.
Import PyStrFacts Binary64Facts MergeFacts MergeRunFacts Merge64Facts.
Local Open Scope string_scope.

(** C6.  On units whose words are single tokens, merging ends without
    an error for every threshold and keeps the words: splitting the
    merged word fields on whitespace, field by field or after joining
    them with blanks, gives back the input words in their order (so the
    multiset of words is the same).  No two neighbours of the result have
    a gap, next start minus previous end, at or below the threshold:
    not as the loop computes the difference, in float arithmetic, and,
    the threshold being a float, not as an exact difference either. *)
Theorem merge_preserves_words_and_gaps (x : list WordData) (th : Q) :
  Forall token_unit x ->
  exists out,
    merge_overlapping_timestamps x th = Some out /\
    flat_map split (map word_of out) = map word_of x /\
    split (join " " (map word_of out)) = map word_of x /\
    gaps_exceed th out /\
    (double th -> all_apart th out).
Proof.
  intros H. destruct x as [|u rest].
  - exists []. repeat split.
  - inversion H as [|? ? Hu Hrest]; subst.
    destruct (merge_spec th rest [u]) as (out & groups & Ho & Hw & Hc & Hg & Hgap & _).
    + discriminate.
    + now constructor.
    + exact Hrest.
    + exists out. split; [exact Ho|].
      change (map word_of (u :: rest)) with (map word_of [u] ++ map word_of rest)%list.
      rewrite <- Hc, Hw. split; [now apply split_groups|].
      split; [|split; [exact Hgap|]].
      * rewrite (join_groups _ Hg). apply split_join. now apply concat_groups_tokens.
      * intros Hth. now apply gaps_exceed_apart.
Qed.

Lemma merge_preserves_words_and_gaps_witness :
  Forall token_unit hello_units /\ double default_overlap_threshold /\
  merge_overlapping_timestamps hello_units default_overlap_threshold
  = Some hello_units /\
  exists out,
    merge_overlapping_timestamps hello_units default_overlap_threshold = Some out /\
    flat_map split (map word_of out) = map word_of hello_units /\
    split (join " " (map word_of out)) = map word_of hello_units /\
    gaps_exceed default_overlap_threshold out /\
    all_apart default_overlap_threshold out.
Proof.
  assert (H : Forall token_unit hello_units).
  { apply Forall_cons; [eexists _, _, _; split; [reflexivity | split; [discriminate | reflexivity]]|].
    apply Forall_cons; [eexists _, _, _; split; [reflexivity | split; [discriminate | reflexivity]]|].
    apply Forall_nil. }
  assert (D : double default_overlap_threshold) by (vm_compute; reflexivity).
  assert (E : merge_overlapping_timestamps hello_units default_overlap_threshold
              = Some hello_units) by (vm_compute; reflexivity).
  destruct (merge_preserves_words_and_gaps hello_units default_overlap_threshold H)
    as (out & Ho & Hw & Hj & Hg & Ha).
  refine (conj H (conj D (conj E _))).
  exists out. repeat split; try assumption. now apply Ha.
Defined.

End Merge64Spec.

(** ** merge_overlapping_timestamps over floats: runs *)

Module MergeRun64Spec.
Import PyNum PyStr Model Binary64 Utils Runs Utils64 Scenario64.
Import PyStrFacts Binary64Facts MergeFacts MergeRunFacts Merge64Facts.
Local Open Scope string_scope.

(** X11.  On units that carry all three keys, whatever their words,
    [merge_overlapping_timestamps] returns without an error, and its
    result stands for a cut of the input into runs: the runs hold the
    input in order, within a run every unit starts within the threshold
    after the one before it ends, every run gives one unit (the unit
    itself when it is alone, else the blank-joined words with the start
    of the first and the end of the last), and neighbouring units of
    the result are more than the threshold apart.  Every difference is
    the float difference that the loop computes. *)
Theorem merge_cuts_into_runs (x : list WordData) (th : Q) :
  Forall complete x ->
  exists out groups,
    merge_overlapping_timestamps x th = Some out /\
    List.concat groups = x /\
    Forall2 spans groups out /\
    Forall (fun grp => grp <> [] /\ chained th grp) groups /\
    gaps_exceed th out.
Proof.
  intros H. destruct x as [|u rest].
  - exists [], []. repeat split; constructor.
  - inversion H as [|? ? Hu Hrest]; subst.
    destruct (merge_runs th rest [u]) as (out & groups & Ho & Hc & Hsp & Hgr & Hgap & _).
    + discriminate.
    + now constructor.
    + exact Hrest.
    + exact I.
    + exists out, groups. now repeat split.
Qed.

Lemma merge_cuts_into_runs_witness :
  let x := [timed_at "a b" 0 1; timed_at EmptyString 1.02 2; timed_at "c" 3 4] in
  Forall complete x /\
  exists out groups,
    merge_overlapping_timestamps x default_overlap_threshold = Some out /\
    List.concat groups = x /\
    Forall2 spans groups out /\
    Forall (fun grp => grp <> [] /\ chained default_overlap_threshold grp) groups /\
    gaps_exceed default_overlap_threshold out.
Proof.
  intros x.
  assert (H : Forall complete x).
  { apply Forall_cons; [now eexists _, _, _|].
    apply Forall_cons; [now eexists _, _, _|].
    apply Forall_cons; [now eexists _, _, _ | apply Forall_nil]. }
  exact (conj H (merge_cuts_into_runs x default_overlap_threshold H)).
Defined.

(** X13.  Units that follow each other closely become one: when all
    keys are present, there are at least two units and every unit
    starts, by the float difference that the loop computes, within the
    threshold after the one before it ends, the result is the single
    unit with all the words joined by blanks, the start of the first
    unit and the end of the last. *)
Theorem merge_joins_a_chain (x : list WordData) (th : Q) :
  Forall complete x -> chained th x -> (2 <= List.length x)%nat ->
  exists first final,
    hd_error x = Some first /\ last_item x = Some final /\
    merge_overlapping_timestamps x th
    = Some [timed (join " " (map word_of x)) (start_of first) (end_of final)].
Proof.
  intros Hc Hch Hlen. destruct x as [|u rest]; [simpl in Hlen; lia|].
  destruct (last_item_complete (u :: rest) ltac:(discriminate) Hc)
    as (final & Hl & (wf & sf & ef & Ef)).
  exists u, final. split; [reflexivity|]. split; [exact Hl|].
  unfold merge_overlapping_timestamps.
  rewrite (merge_chained th rest [u] ltac:(discriminate) Hc Hch).
  change ([u] ++ rest)%list with (u :: rest).
  inversion Hc as [|? ? (w & s & e & Eu) _]; subst.
  destruct rest as [|v rest']; [simpl in Hlen; lia|].
  unfold flush_group. rewrite (words_of_group_all _ Hc), Hl. reflexivity.
Qed.

Lemma merge_joins_a_chain_witness :
  let x := [timed_at "a" 0 1; timed_at "b" 1.02 2; timed_at "c" 2 3] in
  Forall complete x /\ chained default_overlap_threshold x /\
  (2 <= List.length x)%nat /\
  merge_overlapping_timestamps x default_overlap_threshold
  = Some [timed_at "a b c" 0 3].
Proof.
  intros x.
  assert (H : Forall complete x).
  { apply Forall_cons; [now eexists _, _, _|].
    apply Forall_cons; [now eexists _, _, _|].
    apply Forall_cons; [now eexists _, _, _ | apply Forall_nil]. }
  assert (C : chained default_overlap_threshold x).
  { split; [vm_compute; discriminate|]. split; [vm_compute; discriminate | exact I]. }
  assert (L : (2 <= List.length x)%nat) by (simpl; lia).
  destruct (merge_joins_a_chain x default_overlap_threshold H C L)
    as (first & final & Hf & Hl & E).
  refine (conj H (conj C (conj L _))).
  inversion Hf; subst first. inversion Hl; subst final. exact E.
Defined.

End MergeRun64Spec.
